(** * Server-side checkers engine: the [CheckersGame] class

    A shallow embedding of the game class of the checkers server (the class
    [CheckersGame], present both on its own and inlined in [server.js]) and
    the properties of its move validation, move execution, win detection and
    new-game consensus; then its callers, the game controller, the socket
    handlers and the capture check of the client, with properties of the
    methods of the class that the first part leaves aside.

    Conventions of the embedding.
    - JavaScript numbers that index the board are integers, modelled in [Z].
    - The board is an array of arrays, modelled as a list of lists; reading
      outside the outer array and then indexing the result raises a
      [TypeError], reading outside an inner array yields [undefined].
    - A method runs on the receiver [this]; it is a function from the
      receiver to an outcome (a returned value or a [TypeError]) and the
      receiver as the method left it.
    - Player ids are socket ids: strings, none of them an array index, so
      the property order of the [players] object is insertion order. *)

From Stdlib Require Import ZArith String List Bool Lia.
From stdpp Require Import base list list_numbers strings gmap.

Local Open Scope string_scope.
Local Open Scope list_scope.
Local Open Scope Z_scope.

(** ** Values *)

Inductive Color : Type := red | black.

#[global] Instance Color_eq_dec : EqDecision Color.
Proof. solve_decision. Defined.

(** [c === 'red' ? 'black' : 'red'] *)
Definition opponent (c : Color) : Color :=
  match c with red => black | black => red end.

Record Piece : Type := mkPiece { color : Color; king : bool }.

#[global] Instance Piece_eq_dec : EqDecision Piece.
Proof. solve_decision. Defined.

Record Pos : Type := mkPos { row : Z; col : Z }.

#[global] Instance Pos_eq_dec : EqDecision Pos.
Proof. solve_decision. Defined.

(** The records pushed by [getPieceCaptues]. *)
Record Capture : Type := mkCapture { from : Pos; to : Pos; captured : Pos }.

#[global] Instance Capture_eq_dec : EqDecision Capture.
Proof. solve_decision. Defined.

Inductive MoveType : Type := type_move | type_capture.

(** The records pushed by [getValidMovesForPiece]; [move_captured] is present
    for captures only. *)
Record Move : Type := mkMove {
  move_from : Pos; move_to : Pos; move_type : MoveType;
  move_captured : option Pos }.

Inductive GameState : Type := waiting | playing | finished | turn_selection.

#[global] Instance GameState_eq_dec : EqDecision GameState.
Proof. solve_decision. Defined.

Record Player : Type := mkPlayer { name : string; player_color : Color }.

(** A stored square is [null] ([None]) or a piece. *)
Abbreviation Board := (list (list (option Piece))).

(** What an expression [this.board[r][c]] evaluates to. *)
Inductive Cell : Type := undefined | null | occupied (p : Piece).

(** [!v] on such a value *)
Definition falsy (v : Cell) : bool :=
  match v with occupied _ => false | _ => true end.

Record CheckersGame : Type := mkGame {
  roomCode : string;
  players : list (string * Player);
  currentPlayer : Color;
  gameState : GameState;
  winner : option Color;
  board : Board;
  mustCapture : bool;
  capturingPiece : option Pos;
  newGameRequests : gset string;
  turnOrderSelector : option string;
  waitingForTurnOrderSelection : bool }.

(** ** Outcomes and methods *)

Inductive Outcome (A : Type) : Type := Returned (a : A) | TypeError.
Arguments Returned {A} a.
Arguments TypeError {A}.

#[global] Instance Outcome_ret : MRet Outcome := @Returned.
#[global] Instance Outcome_bind : MBind Outcome := λ A B f m,
  match m with Returned a => f a | TypeError => TypeError end.

Definition Method (A : Type) : Type := CheckersGame → Outcome A * CheckersGame.

#[global] Instance Method_ret : MRet Method := λ A a this, (Returned a, this).
#[global] Instance Method_bind : MBind Method := λ A B f m this,
  match m this with
  | (Returned a, this') => f a this'
  | (TypeError, this') => (TypeError, this')
  end.

(** A read of the receiver that may raise. *)
Definition read {A} (f : CheckersGame → Outcome A) : Method A :=
  λ this, (f this, this).

(** An assignment to fields of the receiver. *)
Definition assign (f : CheckersGame → CheckersGame) : Method unit :=
  λ this, (Returned (), f this).

(** [for (const a of l) body], with the variables the body updates as the
    accumulator; an exception leaves the loop. *)
Fixpoint for_of {A S} (l : list A) (body : A → S → Outcome S) (acc : S)
  : Outcome S :=
  match l with
  | [] => Returned acc
  | a :: l' =>
      match body a acc with
      | Returned acc' => for_of l' body acc'
      | TypeError => TypeError
      end
  end.

(** ** Field updates *)

Definition set_players v (g : CheckersGame) : CheckersGame :=
  mkGame (roomCode g) v (currentPlayer g) (gameState g) (winner g) (board g)
    (mustCapture g) (capturingPiece g) (newGameRequests g)
    (turnOrderSelector g) (waitingForTurnOrderSelection g).
Definition set_currentPlayer v (g : CheckersGame) : CheckersGame :=
  mkGame (roomCode g) (players g) v (gameState g) (winner g) (board g)
    (mustCapture g) (capturingPiece g) (newGameRequests g)
    (turnOrderSelector g) (waitingForTurnOrderSelection g).
Definition set_gameState v (g : CheckersGame) : CheckersGame :=
  mkGame (roomCode g) (players g) (currentPlayer g) v (winner g) (board g)
    (mustCapture g) (capturingPiece g) (newGameRequests g)
    (turnOrderSelector g) (waitingForTurnOrderSelection g).
Definition set_winner v (g : CheckersGame) : CheckersGame :=
  mkGame (roomCode g) (players g) (currentPlayer g) (gameState g) v (board g)
    (mustCapture g) (capturingPiece g) (newGameRequests g)
    (turnOrderSelector g) (waitingForTurnOrderSelection g).
Definition set_board v (g : CheckersGame) : CheckersGame :=
  mkGame (roomCode g) (players g) (currentPlayer g) (gameState g) (winner g) v
    (mustCapture g) (capturingPiece g) (newGameRequests g)
    (turnOrderSelector g) (waitingForTurnOrderSelection g).
Definition set_mustCapture v (g : CheckersGame) : CheckersGame :=
  mkGame (roomCode g) (players g) (currentPlayer g) (gameState g) (winner g)
    (board g) v (capturingPiece g) (newGameRequests g)
    (turnOrderSelector g) (waitingForTurnOrderSelection g).
Definition set_capturingPiece v (g : CheckersGame) : CheckersGame :=
  mkGame (roomCode g) (players g) (currentPlayer g) (gameState g) (winner g)
    (board g) (mustCapture g) v (newGameRequests g)
    (turnOrderSelector g) (waitingForTurnOrderSelection g).
Definition set_newGameRequests v (g : CheckersGame) : CheckersGame :=
  mkGame (roomCode g) (players g) (currentPlayer g) (gameState g) (winner g)
    (board g) (mustCapture g) (capturingPiece g) v
    (turnOrderSelector g) (waitingForTurnOrderSelection g).
Definition set_turnOrderSelector v (g : CheckersGame) : CheckersGame :=
  mkGame (roomCode g) (players g) (currentPlayer g) (gameState g) (winner g)
    (board g) (mustCapture g) (capturingPiece g) (newGameRequests g)
    v (waitingForTurnOrderSelection g).
Definition set_waitingForTurnOrderSelection v (g : CheckersGame)
  : CheckersGame :=
  mkGame (roomCode g) (players g) (currentPlayer g) (gameState g) (winner g)
    (board g) (mustCapture g) (capturingPiece g) (newGameRequests g)
    (turnOrderSelector g) v.

(** ** The board as an array of arrays *)

(** [l[i]] for an integer [i]: [None] stands for [undefined]. *)
Definition index {A} (l : list A) (i : Z) : option A :=
  if i <? 0 then None else l !! Z.to_nat i.

(** [this.board[row][col]] *)
Definition board_get (b : Board) (row col : Z) : Outcome Cell :=
  match index b row with
  | None => TypeError
  | Some r =>
      Returned match index r col with
               | None => undefined
               | Some None => null
               | Some (Some p) => occupied p
               end
  end.

(** [this.board[row][col] = v], for a square inside the arrays. The class
    writes only to squares it has read a piece or [null] from
    (see [makeMove_writes_inside]); outside the arrays the model leaves the
    board as it is. *)
Definition board_set (b : Board) (row col : Z) (v : option Piece) : Board :=
  match index b row with
  | Some r =>
      if col <? 0 then b
      else <[Z.to_nat row := <[Z.to_nat col := v]> r]> b
  | None => b
  end.

(** A property access [v.color] or [v.king] on a value read from the board. *)
Definition as_piece (v : Cell) : Outcome Piece :=
  match v with occupied p => Returned p | _ => TypeError end.

(** ** [initializeBoard] *)

Definition place_rows (c : Color) (rows : list Z) (b : Board) : Board :=
  foldl (λ b row,
    foldl (λ b col,
      if (row + col) `rem` 2 =? 1
      then board_set b row col (Some (mkPiece c false))
      else b) b (seqZ 0 8)) b rows.

Definition initializeBoard : Board :=
  let board := replicate 8 (replicate 8 None) in
  let board := place_rows red (seqZ 0 3) board in
  let board := place_rows black (seqZ 5 3) board in
  board.

Arguments initializeBoard : simpl never.

(** ** Capture enumeration *)

(** The [directions] array of [getPieceCaptues] and [getValidMovesForPiece]. *)
Definition directions (piece : Piece) : list (Z * Z) :=
  if king piece then [(-1, -1); (-1, 1); (1, -1); (1, 1)]
  else match color piece with
       | red => [(1, -1); (1, 1)]
       | black => [(-1, -1); (-1, 1)]
       end.

(** [r >= 0 && r < 8 && c >= 0 && c < 8] *)
Definition in_bounds (r c : Z) : bool :=
  (0 <=? r) && (r <? 8) && (0 <=? c) && (c <? 8).

(** [v && v.color !== c] *)
Definition opposing (v : Cell) (c : Color) : bool :=
  match v with
  | occupied q => negb (bool_decide (color q = c))
  | _ => false
  end.

(** [v && v.color === c] *)
Definition belongs_to (v : Cell) (c : Color) : bool :=
  match v with
  | occupied q => bool_decide (color q = c)
  | _ => false
  end.

Definition getPieceCaptues (b : Board) (row col : Z) : Outcome (list Capture) :=
  v ← board_get b row col;
  piece ← as_piece v;
  for_of (directions piece) (λ '(dRow, dCol) captures,
    let captureRow := row + dRow in
    let captureCol := col + dCol in
    let landRow := row + 2 * dRow in
    let landCol := col + 2 * dCol in
    if in_bounds landRow landCol then
      capturedPiece ← board_get b captureRow captureCol;
      landSquare ← board_get b landRow landCol;
      if opposing capturedPiece (color piece) && falsy landSquare
      then Returned (captures ++
             [mkCapture (mkPos row col) (mkPos landRow landCol)
                        (mkPos captureRow captureCol)])
      else Returned captures
    else Returned captures) [].

Definition getAvailableCaptures (b : Board) (c : Color)
  : Outcome (list Capture) :=
  for_of (seqZ 0 8) (λ row captures,
    for_of (seqZ 0 8) (λ col captures,
      piece ← board_get b row col;
      if belongs_to piece c then
        pieceCaptues ← getPieceCaptues b row col;
        Returned (captures ++ pieceCaptues)
      else Returned captures) captures) [].

(** ** Move validation *)

(** [this.players[playerId]] *)
Fixpoint players_get (ps : list (string * Player)) (playerId : string)
  : option Player :=
  match ps with
  | [] => None
  | (id, p) :: ps' =>
      if bool_decide (id = playerId) then Some p else players_get ps' playerId
  end.

(** The object returned by [isValidMove]. *)
Inductive Validation : Type :=
  | invalid (reason : string)
  | valid_move
  | valid_capture (capturedRow capturedCol : Z).

(** [piece.color === 'red' ? 1 : -1] *)
Definition expectedDirection (piece : Piece) : Z :=
  match color piece with red => 1 | black => -1 end.

(** [this.mustCapture && this.capturingPiece &&
     (fromRow !== this.capturingPiece.row || fromCol !== this.capturingPiece.col)] *)
Definition bound_to_other_piece (this : CheckersGame) (fromRow fromCol : Z)
  : bool :=
  mustCapture this &&
  match capturingPiece this with
  | Some cp => negb (fromRow =? row cp) || negb (fromCol =? col cp)
  | None => false
  end.

Definition isValidMove (fromRow fromCol toRow toCol : Z) (playerId : string)
    (this : CheckersGame) : Outcome Validation :=
  match players_get (players this) playerId with
  | None => TypeError
  | Some player =>
  if negb (bool_decide (player_color player = currentPlayer this))
  then Returned (invalid "Not your turn") else
  source ← board_get (board this) fromRow fromCol;
  match source with
  | undefined | null => Returned (invalid "Invalid source position")
  | occupied piece =>
  if negb (bool_decide (color piece = currentPlayer this))
  then Returned (invalid "Invalid source position") else
  destination ← board_get (board this) toRow toCol;
  match destination with
  | undefined | occupied _ => Returned (invalid "Destination not empty")
  | null =>
  if (toRow + toCol) `rem` 2 =? 0
  then Returned (invalid "Can only move to dark squares") else
  let rowDiff := toRow - fromRow in
  let colDiff := Z.abs (toCol - fromCol) in
  if bound_to_other_piece this fromRow fromCol
  then Returned (invalid "Must continue capturing with the same piece") else
  if (Z.abs rowDiff =? 1) && (colDiff =? 1) then
    if negb (king piece) && negb (rowDiff =? expectedDirection piece)
    then Returned (invalid "Invalid move direction") else
    captures ← getAvailableCaptures (board this) (currentPlayer this);
    if (0 <? length captures)%nat
    then Returned (invalid "Must capture when possible")
    else Returned valid_move
  else if (Z.abs rowDiff =? 2) && (colDiff =? 2) then
    if negb (king piece) && negb (Z.sgn rowDiff =? expectedDirection piece)
    then Returned (invalid "Invalid capture direction") else
    let middleRow := fromRow + Z.sgn rowDiff in
    let middleCol := fromCol + Z.sgn (toCol - fromCol) in
    middlePiece ← board_get (board this) middleRow middleCol;
    if negb (opposing middlePiece (currentPlayer this))
    then Returned (invalid "No piece to capture")
    else Returned (valid_capture middleRow middleCol)
  else Returned (invalid "Invalid move distance")
  end end end.

(** ** Win detection *)

Definition countPieces (b : Board) (c : Color) : Outcome nat :=
  for_of (seqZ 0 8) (λ row count,
    for_of (seqZ 0 8) (λ col count,
      v ← board_get b row col;
      if belongs_to v c then Returned (S count) else Returned count)
      count) 0%nat.

Definition getValidMovesForPiece (b : Board) (row col : Z)
  : Outcome (list Move) :=
  v ← board_get b row col;
  match v with
  | undefined | null => Returned []
  | occupied piece =>
    for_of (directions piece) (λ '(dRow, dCol) moves,
      let newRow := row + dRow in
      let newCol := col + dCol in
      moves ←
        (if in_bounds newRow newCol then
           target ← board_get b newRow newCol;
           if falsy target
           then Returned (moves ++
                  [mkMove (mkPos row col) (mkPos newRow newCol) type_move None])
           else Returned moves
         else Returned moves);
      let captureRow := row + 2 * dRow in
      let captureCol := col + 2 * dCol in
      if in_bounds captureRow captureCol then
        capturedPiece ← board_get b newRow newCol;
        landSquare ← board_get b captureRow captureCol;
        if opposing capturedPiece (color piece) && falsy landSquare
        then Returned (moves ++
               [mkMove (mkPos row col) (mkPos captureRow captureCol)
                       type_capture (Some (mkPos newRow newCol))])
        else Returned moves
      else Returned moves) []
  end.

Definition getValidMovesForPlayer (b : Board) (c : Color)
  : Outcome (list Move) :=
  for_of (seqZ 0 8) (λ row moves,
    for_of (seqZ 0 8) (λ col moves,
      piece ← board_get b row col;
      if belongs_to piece c then
        pieceMoves ← getValidMovesForPiece b row col;
        Returned (moves ++ pieceMoves)
      else Returned moves) moves) [].

Definition checkGameOver (this : CheckersGame) : Outcome (option Color) :=
  redPieces ← countPieces (board this) red;
  blackPieces ← countPieces (board this) black;
  if (redPieces =? 0)%nat then Returned (Some black) else
  if (blackPieces =? 0)%nat then Returned (Some red) else
  validMoves ← getValidMovesForPlayer (board this) (currentPlayer this);
  if (length validMoves =? 0)%nat
  then Returned (Some (opponent (currentPlayer this)))
  else Returned None.

(** ** Move execution *)

(** The object returned by [makeMove]: [{success: false, reason}] or
    [{success: true, capturedPiece, promoted, continueCapturing, winner,
    gameState}]. *)
Inductive MoveResult : Type :=
  | move_rejected (reason : string)
  | move_accepted (capturedPiece : Cell) (promoted continueCapturing : bool)
                  (result_winner : option Color) (result_gameState : GameState).

Definition success (r : MoveResult) : bool :=
  match r with move_rejected _ => false | move_accepted _ _ _ _ _ => true end.

Definition throw {A} : Method A := λ this, (TypeError, this).

(** [this.mustCapture = false; this.capturingPiece = null] *)
Definition clear_capture_obligation : Method unit :=
  assign (λ this, set_capturingPiece None (set_mustCapture false this)).

(** [this.board[row][col] = v] *)
Definition write_square (row col : Z) (v : option Piece) : Method unit :=
  assign (λ this, set_board (board_set (board this) row col v) this).

(** [this.board[row][col].king = true] *)
Definition crown (row col : Z) : Method unit :=
  v ← read (λ this, board_get (board this) row col);
  p ← read (λ _, as_piece v);
  write_square row col (Some (mkPiece (color p) true)).

(** [(piece.color === 'red' && toRow === 7) ||
     (piece.color === 'black' && toRow === 0)] *)
Definition reaches_far_row (piece : Piece) (toRow : Z) : bool :=
  match color piece with red => toRow =? 7 | black => toRow =? 0 end.

(** The source copies the piece with a spread, which accepts [null]; the
    model reads its fields at once. A validated move has a piece on its
    source square ([isValidMove_accepts_source]), so the two agree. *)
Definition makeMove (fromRow fromCol toRow toCol : Z) (playerId : string)
  : Method MoveResult :=
  validation ← read (isValidMove fromRow fromCol toRow toCol playerId);
  match validation with
  | invalid reason => mret (move_rejected reason)
  | _ =>
    source ← read (λ this, board_get (board this) fromRow fromCol);
    piece ← read (λ _, as_piece source);
    write_square toRow toCol (Some piece);;
    write_square fromRow fromCol None;;
    '(capturedPiece, continueCapturing) ←
      match validation with
      | valid_capture capturedRow capturedCol =>
          capturedPiece ←
            read (λ this, board_get (board this) capturedRow capturedCol);
          write_square capturedRow capturedCol None;;
          additionalCaptures ←
            read (λ this, getPieceCaptues (board this) toRow toCol);
          if (0 <? length additionalCaptures)%nat then
            assign (λ this, set_capturingPiece (Some (mkPos toRow toCol))
                              (set_mustCapture true this));;
            mret (capturedPiece, true)
          else
            clear_capture_obligation;;
            mret (capturedPiece, false)
      | _ =>
          clear_capture_obligation;;
          mret (null, false)
      end;
    '(promoted, continueCapturing) ←
      (if negb (king piece) then
         if reaches_far_row piece toRow then
           crown toRow toCol;;
           if continueCapturing : bool then
             clear_capture_obligation;;
             mret (true, false)
           else mret (true, continueCapturing)
         else mret (false, continueCapturing)
       else mret (false, continueCapturing));
    (if negb continueCapturing
     then assign (λ this, set_currentPlayer (opponent (currentPlayer this)) this)
     else mret ());;
    over ← read checkGameOver;
    match over with
    | Some w => assign (λ this, set_winner (Some w) (set_gameState finished this))
    | None => mret ()
    end;;
    read (λ this, Returned (move_accepted capturedPiece promoted
                              continueCapturing (winner this) (gameState this)))
  end.

(** ** Players, turn order and new games *)

(** [new CheckersGame(roomCode)]. The field [selectedPiece] is [null] from
    construction on and is never read; it is left out. *)
Definition new_CheckersGame (code : string) : CheckersGame :=
  mkGame code [] red waiting None initializeBoard false None ∅ None false.

(** [this.players[playerId] = p]: an existing key keeps its place. *)
Fixpoint players_set (ps : list (string * Player)) (playerId : string)
    (p : Player) : list (string * Player) :=
  match ps with
  | [] => [(playerId, p)]
  | (id, q) :: ps' =>
      if bool_decide (id = playerId) then (id, p) :: ps'
      else (id, q) :: players_set ps' playerId p
  end.

(** [delete this.players[playerId]] *)
Definition players_delete (ps : list (string * Player)) (playerId : string)
  : list (string * Player) :=
  List.filter (λ kv, negb (bool_decide (kv.1 = playerId))) ps.

(** [Object.entries(this.players).find(([id, player]) => player.color === 'red')] *)
Definition find_red (ps : list (string * Player)) : option (string * Player) :=
  List.find (λ kv, bool_decide (player_color kv.2 = red)) ps.

Definition addPlayer (playerId playerName : string) : Method bool :=
  full ← read (λ this, Returned (2 <=? length (players this))%nat);
  if full : bool then mret false else
  assign (λ this,
    let c := if (length (players this) =? 0)%nat then red else black in
    set_players (players_set (players this) playerId (mkPlayer playerName c))
      this);;
  both ← read (λ this, Returned (length (players this) =? 2)%nat);
  (if both : bool then
     assign (λ this,
       set_waitingForTurnOrderSelection true (set_gameState turn_selection this));;
     redPlayer ← read (λ this, Returned (find_red (players this)));
     match redPlayer with
     | Some (id, _) => assign (set_turnOrderSelector (Some id))
     | None => throw
     end
   else mret ());;
  mret true.

Definition removePlayer (playerId : string) : Method unit :=
  assign (λ this, set_players (players_delete (players this) playerId) this);;
  assign (λ this,
    set_newGameRequests (newGameRequests this ∖ {[playerId]}) this);;
  empty ← read (λ this, Returned (length (players this) =? 0)%nat);
  if empty : bool then assign (set_gameState finished) else mret ().

(** The object returned by [selectTurnOrder]. *)
Inductive TurnOrderResult : Type :=
  | turn_order_rejected (reason : string)
  | turn_order_selected (starting : Color) (startingPlayerName : option string).

Definition selectTurnOrder (playerId choice : string)
  : Method TurnOrderResult :=
  allowed ← read (λ this, Returned
    (bool_decide (turnOrderSelector this = Some playerId)
     && waitingForTurnOrderSelection this));
  if negb allowed
  then mret (turn_order_rejected "Not authorized to select turn order") else
  selectorPlayer ← read (λ this, Returned (players_get (players this) playerId));
  (if bool_decide (choice = "self") then
     match selectorPlayer with
     | Some p => assign (set_currentPlayer (player_color p));; mret true
     | None => throw
     end
   else if bool_decide (choice = "opponent") then
     match selectorPlayer with
     | Some p =>
         assign (set_currentPlayer (opponent (player_color p)));; mret true
     | None => throw
     end
   else mret false) ≫= λ chosen : bool,
  if negb chosen then mret (turn_order_rejected "Invalid choice") else
  assign (λ this,
    set_turnOrderSelector None
      (set_waitingForTurnOrderSelection false (set_gameState playing this)));;
  read (λ this, Returned (turn_order_selected (currentPlayer this)
    (name <$> (snd <$> List.find
       (λ kv, bool_decide (player_color kv.2 = currentPlayer this))
       (players this))))).

Definition resetGame : Method unit :=
  assign (λ this,
    set_newGameRequests ∅
      (set_capturingPiece None
        (set_mustCapture false
          (set_board initializeBoard
            (set_winner None (set_currentPlayer red this))))));;
  playerCount ← read (λ this, Returned (length (players this)));
  if (playerCount =? 2)%nat then
    assign (λ this,
      set_waitingForTurnOrderSelection true (set_gameState turn_selection this));;
    assign (λ this,
      set_turnOrderSelector
        match find_red (players this) with
        | Some (id, _) => Some id
        | None => fst <$> head (players this)
        end this)
  else
    assign (λ this,
      set_turnOrderSelector None
        (set_waitingForTurnOrderSelection false (set_gameState waiting this))).

(** The object returned by [requestNewGame]. *)
Inductive NewGameResult : Type :=
  | approved_both_agreed
  | approved_single_player
  | waiting_for_other.

(** [newGameRequests] is a [Set] from construction on, so the guard that
    creates it when missing never fires. *)
Definition requestNewGame (playerId : string) : Method NewGameResult :=
  assign (λ this,
    set_newGameRequests (newGameRequests this ∪ {[playerId]}) this);;
  playerCount ← read (λ this, Returned (length (players this)));
  requests ← read (λ this, Returned (size (newGameRequests this)));
  if (playerCount =? 2)%nat && (requests =? 2)%nat then
    resetGame;; mret approved_both_agreed
  else if (playerCount =? 1)%nat then
    resetGame;; mret approved_single_player
  else mret waiting_for_other.

Definition cancelNewGameRequest (playerId : string) : Method unit :=
  assign (λ this,
    set_newGameRequests (newGameRequests this ∖ {[playerId]}) this).

(** ** Sessions *)

(** The commands a session receives. *)
Inductive Command : Type :=
  | AddPlayer (playerId playerName : string)
  | RemovePlayer (playerId : string)
  | MakeMove (fromRow fromCol toRow toCol : Z) (playerId : string)
  | SelectTurnOrder (playerId choice : string)
  | RequestNewGame (playerId : string)
  | CancelNewGameRequest (playerId : string).

(** The session after a command, whether the method returned or raised. *)
Definition exec (c : Command) (this : CheckersGame) : CheckersGame :=
  match c with
  | AddPlayer id n => (addPlayer id n this).2
  | RemovePlayer id => (removePlayer id this).2
  | MakeMove fr fc tr tc id => (makeMove fr fc tr tc id this).2
  | SelectTurnOrder id ch => (selectTurnOrder id ch this).2
  | RequestNewGame id => (requestNewGame id this).2
  | CancelNewGameRequest id => (cancelNewGameRequest id this).2
  end.

Definition run (cs : list Command) (this : CheckersGame) : CheckersGame :=
  foldl (λ g c, exec c g) this cs.

(** The sessions that a fresh game reaches by commands. *)
Inductive reachable : CheckersGame → Prop :=
  | reachable_new code : reachable (new_CheckersGame code)
  | reachable_exec c this : reachable this → reachable (exec c this).

(** ** Equality of cells, outcomes and move types *)

#[global] Instance Cell_eq_dec : EqDecision Cell.
Proof. solve_decision. Defined.

#[global] Instance Outcome_eq_dec `{EqDecision A} : EqDecision (Outcome A).
Proof. solve_decision. Defined.

#[global] Instance MoveType_eq_dec : EqDecision MoveType.
Proof. solve_decision. Defined.

(** ** The moves offered to a player *)

(** [moves.filter(move => move.type === 'capture')] *)
Definition capture_moves (moves : list Move) : list Move :=
  List.filter (λ move, bool_decide (move_type move = type_capture)) moves.

(** The handler of ['get-possible-moves'], from the point where it has found
    the game of the socket: the value is the list [moves] of the
    ['possible-moves'] event it sends back. *)
Definition possible_moves (row col : Z) (socketId : string)
    (game : CheckersGame) : Outcome (list Pos) :=
  piece ← board_get (board game) row col;
  match piece with
  | undefined | null => Returned []
  | occupied p =>
    if negb (bool_decide
         (player_color <$> players_get (players game) socketId
          = Some (color p)))
    then Returned [] else
    if bound_to_other_piece game row col then Returned [] else
    moves ← getValidMovesForPiece (board game) row col;
    let captures := capture_moves moves in
    let finalMoves := if (0 <? length captures)%nat then captures else moves in
    Returned (move_to <$> finalMoves)
  end.

(** ** The client's view of mandatory captures *)

(** [for (const a of l) { if (test(a)) return true; } return false] *)
Fixpoint for_some {A} (l : list A) (test : A → Outcome bool) : Outcome bool :=
  match l with
  | [] => Returned false
  | a :: l' =>
      match test a with
      | Returned true => Returned true
      | Returned false => for_some l' test
      | TypeError => TypeError
      end
  end.

(** The fields of [CheckersClient] that its capture checks read:
    [gameState], the last state received from the server or [null], and
    [playerColor]. *)
Record CheckersClient : Type := mkClient {
  client_gameState : option CheckersGame;
  playerColor : option Color }.

(** [pieceHasCaptures(row, col)]: whether the client's own piece on the
    square has a jump. *)
Definition pieceHasCaptures (row col : Z) (this : CheckersClient)
  : Outcome bool :=
  match client_gameState this with
  | None => Returned false
  | Some gameState =>
    v ← board_get (board gameState) row col;
    match v with
    | undefined | null => Returned false
    | occupied piece =>
      if negb (bool_decide (Some (color piece) = playerColor this))
      then Returned false else
      for_some (directions piece) (λ '(dRow, dCol),
        let captureRow := row + dRow in
        let captureCol := col + dCol in
        let landRow := row + 2 * dRow in
        let landCol := col + 2 * dCol in
        if in_bounds landRow landCol then
          capturedPiece ← board_get (board gameState) captureRow captureCol;
          landSquare ← board_get (board gameState) landRow landCol;
          Returned (opposing capturedPiece (color piece) && falsy landSquare)
        else Returned false)
    end
  end.

(** [hasMandatoryCaptures()]: whether any of the client's own pieces has a
    jump. *)
Definition hasMandatoryCaptures (this : CheckersClient) : Outcome bool :=
  match client_gameState this with
  | None => Returned false
  | Some gameState =>
    for_some (seqZ 0 8) (λ row,
      for_some (seqZ 0 8) (λ col,
        piece ← board_get (board gameState) row col;
        match piece with
        | occupied p =>
            if bool_decide (Some (color p) = playerColor this)
            then pieceHasCaptures row col this
            else Returned false
        | _ => Returned false
        end))
  end.

(** ** The client's board *)

(** [shouldRotate ? (7 - x) : x], with
    [shouldRotate = this.playerColor === 'red'] *)
Definition toDisplay (this : CheckersClient) (x : Z) : Z :=
  if bool_decide (playerColor this = Some red) then 7 - x else x.

Inductive SquareClass : Type := light | dark.

(** What [updateBoard] puts on the page for a square: the element
    [createSquare] makes, with the piece [createPiece] adds if there is
    one. *)
Record Square : Type := mkSquare {
  displayRow : Z; displayCol : Z; serverRow : Z; serverCol : Z;
  square_class : SquareClass; square_piece : option Piece }.

Definition createSquare (displayRow displayCol serverRow serverCol : Z)
  : Square :=
  mkSquare displayRow displayCol serverRow serverCol
    (if (displayRow + displayCol) `rem` 2 =? 0 then light else dark) None.

(** [updateBoard]: the squares in the order in which they are appended. *)
Definition updateBoard (this : CheckersClient) : Outcome (list Square) :=
  match client_gameState this with
  | None => Returned []
  | Some gameState =>
    for_of (seqZ 0 8) (λ row squares,
      for_of (seqZ 0 8) (λ col squares,
        let displayRow := toDisplay this row in
        let displayCol := toDisplay this col in
        let square := createSquare displayRow displayCol row col in
        piece ← board_get (board gameState) row col;
        match piece with
        | occupied p =>
            Returned (squares ++
              [mkSquare displayRow displayCol row col (square_class square)
                 (Some p)])
        | _ => Returned (squares ++ [square])
        end) squares) []
  end.

(** [handlePossibleMoves]: the value it gives [this.possibleMoves]. *)
Definition handlePossibleMoves (moves : list Pos) (this : CheckersClient)
  : list Pos :=
  (λ move, mkPos (toDisplay this (row move)) (toDisplay this (col move)))
    <$> moves.

(** [this.possibleMoves.some(move => move.row === displayRow &&
     move.col === displayCol)] of [handleSquareClick] *)
Definition isPossibleMove (possibleMoves : list Pos) (displayRow displayCol : Z)
  : bool :=
  existsb (λ move, (row move =? displayRow) && (col move =? displayCol))
    possibleMoves.

(** ** The game controller *)

(** The record [createRoom] stores in [rooms]; [created] is a time in
    milliseconds. *)
Record RoomMeta : Type := mkRoomMeta { playerCount : nat; created : Z }.

(** [GameController]: the two [Map]s from room codes. The games are objects
    that the handlers change in place; here a handler stores the game back
    under its code. *)
Record GameController : Type := mkController {
  games : gmap string CheckersGame;
  rooms : gmap string RoomMeta }.

Definition new_GameController : GameController := mkController ∅ ∅.

(** [createRoom()]. The code that [generateRoomCode()] draws and the time
    [new Date()] are arguments. *)
Definition createRoom (code : string) (now : Z) (this : GameController)
  : string * GameController :=
  (code,
   mkController (<[code := new_CheckersGame code]> (games this))
                (<[code := mkRoomMeta 0 now]> (rooms this))).

(** The object [getRoomInfo] returns. *)
Record RoomInfo : Type := mkRoomInfo {
  info_roomCode : string; info_playerCount : nat; info_gameState : GameState }.

Definition getRoomInfo (code : string) (this : GameController)
  : option RoomInfo :=
  match games this !! code with
  | None => None
  | Some game =>
      Some (mkRoomInfo code (length (players game)) (gameState game))
  end.

Definition getGame (code : string) (this : GameController)
  : option CheckersGame :=
  games this !! code.

Definition cleanupRoom (code : string) (this : GameController)
  : GameController :=
  match games this !! code with
  | Some game =>
      if (length (players game) =? 0)%nat
      then mkController (delete code (games this)) (delete code (rooms this))
      else this
  | None => this
  end.

(** [getStats()]: [activeRooms] and [totalPlayers]. The sum does not depend
    on the order of the games. *)
Definition getStats (this : GameController) : nat * nat :=
  (size (games this),
   foldl (λ total game, total + length (players game))%nat 0%nat
         (map_to_list (games this)).*2).

(** [room.created < cutoffTime] for the room stored under [code], if any. *)
Definition expired (rooms : gmap string RoomMeta) (cutoffTime : Z)
    (code : string) : bool :=
  match rooms !! code with
  | Some room => bool_decide (created room < cutoffTime)
  | None => false
  end.

(** [cleanupOldRooms(games, rooms, maxAgeHours)] of [gameUtils.js], at the
    time [now] that [Date.now()] gives: the loop visits every room once and
    deletes the codes of the rooms created before the cutoff from both
    maps. *)
Definition cleanupOldRooms (this : GameController) (maxAgeHours now : Z)
  : GameController :=
  let cutoffTime := now - maxAgeHours * 60 * 60 * 1000 in
  mkController
    (filter (λ kv, expired (rooms this) cutoffTime kv.1 = false) (games this))
    (filter (λ kv, expired (rooms this) cutoffTime kv.1 = false) (rooms this)).

(** ** The socket handlers *)

(** The events the handlers emit. A [gameState] field carries what
    [game.getGameState()] returns: the fields of the game at that time. *)
Inductive Event : Type :=
  | ev_error (message : string)
  | ev_player_joined (players : list (string * Player)) (gameState : CheckersGame)
  | ev_game_state (gameState : CheckersGame)
  | ev_show_turn_order_selection (canChoose : bool)
  | ev_move_made (fromRow fromCol toRow toCol : Z) (capturedPiece : Cell)
                 (promoted : bool) (gameState : CheckersGame)
  | ev_game_over (winner : Color) (gameState : CheckersGame)
  | ev_move_error (message : string)
  | ev_turn_order_selected (choice : string) (currentPlayer : Color)
                           (startingPlayerName : option string)
                           (gameState : CheckersGame)
  | ev_game_reset (gameState : CheckersGame) (message : string)
  | ev_new_game_requested (requesterName : string) (gameState : CheckersGame)
  | ev_new_game_request_cancelled (requesterName : string)
                                  (gameState : CheckersGame)
  | ev_possible_moves (moves : list Pos)
  | ev_player_left (players : list (string * Player)) (gameState : CheckersGame).

(** [io.to(roomCode).emit(...)] and [socket.emit(...)] *)
Inductive Emit : Type :=
  | to_room (roomCode : string) (event : Event)
  | to_socket (socketId : string) (event : Event).

(** What the handlers work on: the controller and, for the sockets that
    have joined a room, their property [roomCode]. *)
Record Server : Type := mkServer {
  gameController : GameController;
  socket_roomCode : gmap string string }.

(** A handler leaves the events it has emitted, or raises, and the server
    as it then is. *)
Definition Handler : Type := Server → Outcome (list Emit) * Server.

(** The game found under [code] after a method has changed it. *)
Definition set_game (code : string) (game : CheckersGame) (s : Server)
  : Server :=
  mkServer
    (mkController (<[code := game]> (games (gameController s)))
                  (rooms (gameController s)))
    (socket_roomCode s).

(** [if (!socket.roomCode) return; const game = getGame(socket.roomCode);
    if (!game) return;]: an empty code counts as none. *)
Definition with_game (socketId : string)
    (k : string → CheckersGame → Handler) : Handler :=
  λ s,
    match socket_roomCode s !! socketId with
    | None => (Returned [], s)
    | Some code =>
        if bool_decide (code = "") then (Returned [], s) else
        match getGame code (gameController s) with
        | None => (Returned [], s)
        | Some game => k code game s
        end
    end.

(** [game.players[socket.id]?.name || 'Player'] *)
Definition requesterName (game : CheckersGame) (socketId : string) : string :=
  match players_get (players game) socketId with
  | Some p => if bool_decide (name p = "") then "Player" else name p
  | None => "Player"
  end.

(** The notice to the socket of the turn order selector, if there is such
    a socket: [connected] tells whether [io.sockets.sockets] has it. *)
Definition notify_selector (connected : string → bool) (selector : string)
  : list Emit :=
  if connected selector
  then [to_socket selector (ev_show_turn_order_selection true)]
  else [].

Definition handleJoinRoom (connected : string → bool)
    (socketId code playerName : string) : Handler :=
  λ s,
    match getGame code (gameController s) with
    | None => (Returned [to_socket socketId (ev_error "Room not found")], s)
    | Some game =>
      let '(success, game) := addPlayer socketId playerName game in
      let s := set_game code game s in
      match success with
      | TypeError => (TypeError, s)
      | Returned false =>
          (Returned [to_socket socketId (ev_error "Room is full")], s)
      | Returned true =>
          (Returned
             ([to_room code (ev_player_joined (players game) game);
               to_socket socketId (ev_game_state game)] ++
              if waitingForTurnOrderSelection game then
                (if bool_decide (turnOrderSelector game = Some socketId)
                 then [to_socket socketId (ev_show_turn_order_selection true)]
                 else [to_socket socketId (ev_game_state game)]) ++
                match turnOrderSelector game with
                | Some selector =>
                    if negb (bool_decide (selector = "")) &&
                       negb (bool_decide (selector = socketId))
                    then notify_selector connected selector
                    else []
                | None => []
                end
              else []),
           mkServer (gameController s)
                    (<[socketId := code]> (socket_roomCode s)))
      end
    end.

Definition handleMakeMove (socketId : string) (fromRow fromCol toRow toCol : Z)
  : Handler :=
  with_game socketId (λ code game s,
    let '(result, game) :=
      makeMove fromRow fromCol toRow toCol socketId game in
    let s := set_game code game s in
    match result with
    | TypeError => (TypeError, s)
    | Returned (move_rejected reason) =>
        (Returned [to_socket socketId (ev_move_error reason)], s)
    | Returned (move_accepted capturedPiece promoted _ winner _) =>
        (Returned
           (to_room code
              (ev_move_made fromRow fromCol toRow toCol capturedPiece promoted
                 game)
            :: match winner with
               | Some w => [to_room code (ev_game_over w game)]
               | None => []
               end),
         s)
    end).

Definition handleSelectTurnOrder (socketId choice : string) : Handler :=
  with_game socketId (λ code game s,
    let '(result, game) := selectTurnOrder socketId choice game in
    let s := set_game code game s in
    match result with
    | TypeError => (TypeError, s)
    | Returned (turn_order_rejected reason) =>
        (Returned [to_socket socketId (ev_move_error reason)], s)
    | Returned (turn_order_selected starting startingPlayerName) =>
        (Returned
           [to_room code
              (ev_turn_order_selected choice starting startingPlayerName game)],
         s)
    end).

Definition handleRequestNewGame (connected : string → bool)
    (socketId : string) : Handler :=
  with_game socketId (λ code game s,
    let '(result, game) := requestNewGame socketId game in
    let s := set_game code game s in
    match result with
    | TypeError => (TypeError, s)
    | Returned approved_both_agreed =>
        (Returned
           (to_room code
              (ev_game_reset game "Both players agreed to start a new game!")
            :: if waitingForTurnOrderSelection game then
                 match turnOrderSelector game with
                 | Some selector =>
                     if negb (bool_decide (selector = ""))
                     then notify_selector connected selector
                     else []
                 | None => []
                 end
               else []),
         s)
    | Returned approved_single_player =>
        (Returned [to_room code (ev_game_reset game "New game started!")], s)
    | Returned waiting_for_other =>
        (Returned
           [to_room code
              (ev_new_game_requested (requesterName game socketId) game)],
         s)
    end).

Definition handleCancelNewGameRequest (socketId : string) : Handler :=
  with_game socketId (λ code game s,
    let '(result, game) := cancelNewGameRequest socketId game in
    let s := set_game code game s in
    match result with
    | TypeError => (TypeError, s)
    | Returned _ =>
        (Returned
           [to_room code
              (ev_new_game_request_cancelled (requesterName game socketId)
                 game)],
         s)
    end).

(** The handler of ['get-possible-moves']; [possible_moves] above is
    its part after the game has been found. *)
Definition handleGetPossibleMoves (socketId : string) (row col : Z)
  : Handler :=
  with_game socketId (λ code game s,
    match possible_moves row col socketId game with
    | TypeError => (TypeError, s)
    | Returned moves =>
        (Returned [to_socket socketId (ev_possible_moves moves)], s)
    end).

(** [if (socket.roomCode) { ... }]: the player leaves the game, the room
    hears of it, and the room goes if it is empty. *)
Definition handleDisconnect (socketId : string) : Handler :=
  with_game socketId (λ code game s,
    let '(result, game) := removePlayer socketId game in
    let s := set_game code game s in
    match result with
    | TypeError => (TypeError, s)
    | Returned _ =>
        (Returned [to_room code (ev_player_left (players game) game)],
         mkServer (cleanupRoom code (gameController s)) (socket_roomCode s))
    end).

(** ** Servers *)

(** What happens to a server: rooms are created, sockets send events and
    disconnect, and old rooms are cleaned up. *)
Inductive ServerEvent : Type :=
  | CreateRoom (code : string) (now : Z)
  | JoinRoom (connected : string → bool) (socketId code playerName : string)
  | MakeMoveBy (socketId : string) (fromRow fromCol toRow toCol : Z)
  | SelectTurnOrderBy (socketId choice : string)
  | RequestNewGameBy (connected : string → bool) (socketId : string)
  | CancelNewGameRequestBy (socketId : string)
  | GetPossibleMoves (socketId : string) (row col : Z)
  | Disconnect (socketId : string)
  | CleanupOldRooms (maxAgeHours now : Z).

(** The server after an event, whether the handler returned or raised. *)
Definition server_exec (e : ServerEvent) (s : Server) : Server :=
  match e with
  | CreateRoom code now =>
      mkServer (createRoom code now (gameController s)).2 (socket_roomCode s)
  | JoinRoom connected id code n => (handleJoinRoom connected id code n s).2
  | MakeMoveBy id fr fc tr tc => (handleMakeMove id fr fc tr tc s).2
  | SelectTurnOrderBy id ch => (handleSelectTurnOrder id ch s).2
  | RequestNewGameBy connected id => (handleRequestNewGame connected id s).2
  | CancelNewGameRequestBy id => (handleCancelNewGameRequest id s).2
  | GetPossibleMoves id r c => (handleGetPossibleMoves id r c s).2
  | Disconnect id => (handleDisconnect id s).2
  | CleanupOldRooms h now =>
      mkServer (cleanupOldRooms (gameController s) h now) (socket_roomCode s)
  end.

Definition new_Server : Server := mkServer new_GameController ∅.

Inductive server_reachable : Server → Prop :=
  | server_new : server_reachable new_Server
  | server_step e s : server_reachable s → server_reachable (server_exec e s).

(** * The vocabulary of the properties *)

(** ** Boards *)

(** What a stored square reads as. *)
Definition cell_of (v : option Piece) : Cell :=
  match v with None => null | Some p => occupied p end.

(** Eight rows of eight squares. *)
Definition board_shape (b : Board) : Prop :=
  length b = 8%nat ∧ Forall (λ r, length r = 8%nat) b.

(** Pieces stand on squares with [(row + col) % 2 === 1] only. *)
Definition dark_squares (b : Board) : Prop :=
  ∀ r c p, board_get b r c = Returned (occupied p) → (r + c) `rem` 2 = 1.

(** Eight rows of eight squares, with pieces on dark squares only. *)
Definition board_wf (b : Board) : Prop := board_shape b ∧ dark_squares b.

(** The dark-square condition, decided by a scan of the 64 squares. *)
Definition dark_squares_scan (b : Board) : bool :=
  forallb (λ r,
    forallb (λ c,
      match board_get b r c with
      | Returned (occupied _) => (r + c) `rem` 2 =? 1
      | _ => true
      end) (seqZ 0 8)) (seqZ 0 8).

(** ** Moves *)

(** [cap] is a jump of the piece [p] standing on [(r, c)]: along one of its
    directions, over a piece of the other colour, onto a square inside the
    board that holds no piece. *)
Definition capture_from (b : Board) (p : Piece) (r c : Z) (cap : Capture)
  : Prop :=
  ∃ dr dc q w,
    (dr, dc) ∈ directions p ∧
    cap = mkCapture (mkPos r c) (mkPos (r + 2 * dr) (c + 2 * dc))
                    (mkPos (r + dr) (c + dc)) ∧
    in_bounds (r + 2 * dr) (c + 2 * dc) = true ∧
    board_get b (r + dr) (c + dc) = Returned (occupied q) ∧
    color q ≠ color p ∧
    board_get b (r + 2 * dr) (c + 2 * dc) = Returned w ∧ falsy w = true.

(** [m] is a step of the piece [p] standing on [(r, c)]: along one of its
    directions onto a square inside the board that holds no piece. *)
Definition step_from (b : Board) (p : Piece) (r c : Z) (m : Move) : Prop :=
  ∃ dr dc w,
    (dr, dc) ∈ directions p ∧
    m = mkMove (mkPos r c) (mkPos (r + dr) (c + dc)) type_move None ∧
    in_bounds (r + dr) (c + dc) = true ∧
    board_get b (r + dr) (c + dc) = Returned w ∧ falsy w = true.

(** The record [getValidMovesForPiece] pushes for a jump. *)
Definition capture_move (cap : Capture) : Move :=
  mkMove (from cap) (to cap) type_capture (Some (captured cap)).

(** An accepted validation. *)
Definition is_valid (v : Validation) : bool :=
  match v with invalid _ => false | _ => true end.

(** The board after the piece [p] has gone from [(fr, fc)] to [(tr, tc)]. *)
Definition relocate (b : Board) (fr fc tr tc : Z) (p : Piece) : Board :=
  board_set (board_set b tr tc (Some p)) fr fc None.

(** The condition under which [makeMove] crowns the moved piece. *)
Definition promotes (p : Piece) (tr : Z) : bool :=
  negb (king p) && reaches_far_row p tr.

(** The board after the piece on [(tr, tc)] has been crowned, if it is. *)
Definition crowned (b : Board) (tr tc : Z) (p : Piece) (promoted : bool)
  : Board :=
  if promoted then board_set b tr tc (Some (mkPiece (color p) true)) else b.

(** The receiver after an accepted move that left the board [b], with
    [continues] telling whether the capture sequence goes on and [over] the
    result of [checkGameOver]. *)
Definition moved (this : CheckersGame) (b : Board) (continues : bool)
    (landing : Pos) (over : option Color) : CheckersGame :=
  mkGame (roomCode this) (players this)
    (if continues then currentPlayer this else opponent (currentPlayer this))
    (match over with Some _ => finished | None => gameState this end)
    (match over with Some w => Some w | None => winner this end)
    b continues (if continues then Some landing else None)
    (newGameRequests this) (turnOrderSelector this)
    (waitingForTurnOrderSelection this).

(** The session [resetGame] leaves. *)
Definition reset (this : CheckersGame) : CheckersGame :=
  let both := (length (players this) =? 2)%nat in
  mkGame (roomCode this) (players this) red
    (if both then turn_selection else waiting) None initializeBoard
    false None ∅
    (if both then
       match find_red (players this) with
       | Some (id, _) => Some id
       | None => fst <$> head (players this)
       end
     else None)
    both.

(** ** Reasons *)

(** The reasons [isValidMove] gives, in the order of its checks. *)
Definition move_reasons : list string :=
  ["Not your turn"; "Invalid source position"; "Destination not empty";
   "Can only move to dark squares";
   "Must continue capturing with the same piece";
   "Invalid move direction"; "Must capture when possible";
   "Invalid capture direction"; "No piece to capture";
   "Invalid move distance"].

(** The reasons [selectTurnOrder] gives. *)
Definition turn_order_reasons : list string :=
  ["Not authorized to select turn order"; "Invalid choice"].

(** The ten codes of the taxonomy, each with the text the class uses for
    it: NotYourTurn, InvalidSource, DestinationOccupied, WrongSquareColor,
    MustContinueCapture, MustCapture, NoPieceToCapture, InvalidDistance,
    InvalidTurnOrderChoice, NotAuthorized. *)
Definition listed_reasons : list string :=
  ["Not your turn"; "Invalid source position"; "Destination not empty";
   "Can only move to dark squares";
   "Must continue capturing with the same piece";
   "Must capture when possible"; "No piece to capture";
   "Invalid move distance"; "Invalid choice";
   "Not authorized to select turn order"].

(** ** Sessions used as examples *)

(** Two players join and the first one, [red], chooses to start. *)
Definition opening : list Command :=
  [AddPlayer "A" "Ann"; AddPlayer "B" "Bob"; SelectTurnOrder "A" "self"].

(** The session in which both players have joined and red is to choose who
    starts. *)
Definition choosing : CheckersGame :=
  run [AddPlayer "A" "Ann"; AddPlayer "B" "Bob"] (new_CheckersGame "ROOM").


(** Black has just stepped next to a red man: red can jump from [(3, 2)]
    over [(4, 3)] to [(5, 4)]. *)
Definition capture_offered : CheckersGame :=
  run (opening ++ [MakeMove 2 1 3 2 "A"; MakeMove 5 4 4 3 "B"])
      (new_CheckersGame "ROOM").

(** The session [mid_chain] comes from just before black's jump. *)
Definition before_chain : CheckersGame :=
  run (opening ++
       [MakeMove 2 3 3 4 "A"; MakeMove 5 0 4 1 "B"; MakeMove 1 2 2 3 "A";
        MakeMove 4 1 3 0 "B"; MakeMove 3 4 4 3 "A"])
      (new_CheckersGame "ROOM").

(** Black has jumped from [(5, 2)] to [(3, 4)] and can jump on to [(1, 2)];
    its man on [(3, 0)] could jump to [(1, 2)] as well. *)
Definition mid_chain : CheckersGame :=
  run (opening ++
       [MakeMove 2 3 3 4 "A"; MakeMove 5 0 4 1 "B"; MakeMove 1 2 2 3 "A";
        MakeMove 4 1 3 0 "B"; MakeMove 3 4 4 3 "A"; MakeMove 5 2 3 4 "B"])
      (new_CheckersGame "ROOM").


(** The red man on [(5, 0)] can jump over [(6, 1)] onto the far row at
    [(7, 2)], next to the black man on [(6, 3)] with [(5, 4)] empty. *)
Definition before_crowning : CheckersGame :=
  run (opening ++
       [MakeMove 2 5 3 6 "A"; MakeMove 5 4 4 5 "B"; MakeMove 3 6 5 4 "A";
        MakeMove 6 3 4 5 "B"; MakeMove 2 1 3 2 "A"; MakeMove 5 0 4 1 "B";
        MakeMove 3 2 5 0 "A"; MakeMove 7 2 6 3 "B"])
      (new_CheckersGame "ROOM").

(** A game in which red takes every black piece but one. *)
Definition before_last_capture : CheckersGame :=
  run (opening ++
       [MakeMove 2 1 3 2 "A"; MakeMove 5 0 4 1 "B"; MakeMove 3 2 5 0 "A";
        MakeMove 5 2 4 3 "B"; MakeMove 2 5 3 6 "A"; MakeMove 6 1 5 2 "B";
        MakeMove 1 4 2 5 "A"; MakeMove 7 2 6 1 "B"; MakeMove 5 0 7 2 "A";
        MakeMove 4 3 3 4 "B"; MakeMove 2 5 4 3 "A"; MakeMove 4 3 6 1 "A";
        MakeMove 7 0 5 2 "B"; MakeMove 7 2 6 1 "A"; MakeMove 5 4 4 5 "B";
        MakeMove 3 6 5 4 "A"; MakeMove 5 4 7 2 "A"; MakeMove 6 5 5 4 "B";
        MakeMove 6 1 4 3 "A"; MakeMove 4 3 6 5 "A"; MakeMove 6 5 4 7 "A";
        MakeMove 7 4 6 3 "B"; MakeMove 7 2 5 4 "A"; MakeMove 7 6 6 5 "B";
        MakeMove 5 4 7 6 "A"; MakeMove 6 7 5 6 "B"])
      (new_CheckersGame "ROOM").

(** Red has taken the last black piece. *)
Definition last_capture : CheckersGame :=
  exec (MakeMove 4 7 6 5 "A") before_last_capture.

(** A game in which black keeps a piece that cannot move. *)
Definition before_blockade : CheckersGame :=
  run (opening ++
       [MakeMove 2 1 3 0 "A"; MakeMove 5 4 4 5 "B"; MakeMove 2 3 3 2 "A";
        MakeMove 6 3 5 4 "B"; MakeMove 1 2 2 1 "A"; MakeMove 7 4 6 3 "B";
        MakeMove 0 3 1 2 "A"; MakeMove 5 2 4 1 "B"; MakeMove 3 0 5 2 "A";
        MakeMove 5 2 7 4 "A"; MakeMove 5 0 4 1 "B"; MakeMove 3 2 5 0 "A";
        MakeMove 7 2 6 3 "B"; MakeMove 5 0 7 2 "A"; MakeMove 7 0 6 1 "B";
        MakeMove 7 2 5 0 "A"; MakeMove 5 6 4 7 "B"; MakeMove 7 4 5 2 "A";
        MakeMove 5 4 4 3 "B"; MakeMove 5 2 3 4 "A"; MakeMove 3 4 5 6 "A";
        MakeMove 5 6 7 4 "A"; MakeMove 4 7 3 6 "B"; MakeMove 2 7 4 5 "A";
        MakeMove 7 6 6 5 "B"])
      (new_CheckersGame "ROOM").

(** Red's capture has left black a man that cannot move. *)
Definition blockade : CheckersGame :=
  exec (MakeMove 7 4 5 6 "A") before_blockade.

(** Two connections ask for a new game before anyone has joined; both then
    join. The requester's repeated call finds two entries in the set and
    resets the game. *)
Definition pending_before_joining : CheckersGame :=
  run [RequestNewGame "A"; RequestNewGame "B";
       AddPlayer "A" "Ann"; AddPlayer "B" "Bob"]
      (new_CheckersGame "ROOM").

(** The board that is empty except for a red king and a black man. *)
Definition king_and_man (kingRow kingCol manRow manCol : Z) : Board :=
  board_set
    (board_set (replicate 8 (replicate 8 None))
       kingRow kingCol (Some (mkPiece red true)))
    manRow manCol (Some (mkPiece black false)).

(** A session on the board of the scenario, with red to move. *)
Definition light_square_scenario : CheckersGame :=
  mkGame "ROOM"
    [("A", mkPlayer "Ann" red); ("B", mkPlayer "Bob" black)]
    red playing None (king_and_man 5 5 4 4) false None ∅ None false.

(** The same position one column to the left, on dark squares. *)
Definition dark_square_scenario : CheckersGame :=
  mkGame "ROOM"
    [("A", mkPlayer "Ann" red); ("B", mkPlayer "Bob" black)]
    red playing None (king_and_man 5 4 4 3) false None ∅ None false.

(** ** Choosing the turn order *)

(** [playerId !== this.turnOrderSelector || !this.waitingForTurnOrderSelection]
    is false. *)
Definition may_select (this : CheckersGame) (playerId : string) : bool :=
  bool_decide (turnOrderSelector this = Some playerId)
  && waitingForTurnOrderSelection this.

(** ** Squares and pieces *)

(** [fromRow + Math.sign(rowDiff)], [fromCol + Math.sign(toCol - fromCol)]:
    the square between the two ends of a jump. *)
Definition middle (fr fc tr tc : Z) : Z * Z :=
  (fr + Z.sgn (tr - fr), fc + Z.sgn (tc - fc)).

(** The 64 squares in the order in which the scans of the class visit them. *)
Definition squares : list (Z * Z) := list_prod (seqZ 0 8) (seqZ 0 8).

(** [this.board[row][col] && this.board[row][col].color === c] *)
Definition holds (b : Board) (c : Color) (square : Z * Z) : bool :=
  match board_get b square.1 square.2 with
  | Returned v => belongs_to v c
  | TypeError => false
  end.

(** The number of squares that hold a piece of the colour [c]. *)
Definition count (b : Board) (c : Color) : nat :=
  length (List.filter (holds b c) squares).

(** What a captured piece takes from the count of its colour. *)
Definition taken (capturedPiece : Cell) : nat :=
  match capturedPiece with occupied _ => 1 | _ => 0 end.

(** No man stands on the row where [makeMove] crowns it. *)
Definition men_short_of_far_row (b : Board) : Prop :=
  ∀ r c p, board_get b r c = Returned (occupied p) → king p = false →
           reaches_far_row p r = false.

(** The same condition, decided by a scan of the 64 squares. *)
Definition men_scan (b : Board) : bool :=
  forallb (λ square,
    match board_get b square.1 square.2 with
    | Returned (occupied p) => king p || negb (reaches_far_row p square.1)
    | _ => true
    end) squares.

(** What the starting position has on the square [(r, c)]. *)
Definition starting_square (r c : Z) : Cell :=
  if (r + c) `rem` 2 =? 1 then
    if r <? 3 then occupied (mkPiece red false)
    else if 5 <=? r then occupied (mkPiece black false)
    else null
  else null.

(** ** Well-formed servers *)

(** Every game of the server is a session that a fresh game reaches by
    commands, and the two maps of the controller have the same codes. *)
Definition server_wf (s : Server) : Prop :=
  (∀ code game, games (gameController s) !! code = Some game → reachable game) ∧
  dom (games (gameController s)) = dom (rooms (gameController s)).

(** ** More sessions, and a server, used as examples *)

(** The red player has left a room of two: the black player is alone, and
    the game still waits for the one who left to choose the turn order. *)
Definition red_left : CheckersGame :=
  run [AddPlayer "A" "Ann"; AddPlayer "B" "Bob"; RemovePlayer "A"]
      (new_CheckersGame "ROOM").

(** The two players move before the turn order is chosen; black is in the
    middle of a capture sequence, as in [mid_chain], when red chooses to
    start. *)
Definition chosen_mid_chain : CheckersGame :=
  run [AddPlayer "A" "Ann"; AddPlayer "B" "Bob";
       MakeMove 2 3 3 4 "A"; MakeMove 5 0 4 1 "B"; MakeMove 1 2 2 3 "A";
       MakeMove 4 1 3 0 "B"; MakeMove 3 4 4 3 "A"; MakeMove 5 2 3 4 "B";
       SelectTurnOrder "A" "self"]
      (new_CheckersGame "ROOM").

(** A server of one room, in which Ann and Bob play the session
    [capture_offered]. *)
Definition playing_server : Server :=
  foldl (λ s e, server_exec e s) new_Server
    [CreateRoom "ROOM" 0;
     JoinRoom (λ _, true) "A" "ROOM" "Ann";
     JoinRoom (λ _, true) "B" "ROOM" "Bob";
     SelectTurnOrderBy "A" "self";
     MakeMoveBy "A" 2 1 3 2;
     MakeMoveBy "B" 5 4 4 3].

(** ** Tactics *)

(** Unfolds the statements of a method down to the record operations. *)
Ltac run_method :=
  unfold mbind, Method_bind, mret, Method_ret, read, assign, write_square,
    clear_capture_obligation, throw, set_players, set_currentPlayer,
    set_gameState, set_winner, set_board, set_mustCapture, set_capturingPiece,
    set_newGameRequests, set_turnOrderSelector,
    set_waitingForTurnOrderSelection; simpl.

(** Splits a conjunction into its parts. *)
Ltac split_all := repeat match goal with |- _ ∧ _ => split end.

(** Settles a conjunction of closed facts by evaluation. *)
Ltac by_computation := split_all; vm_compute; reflexivity.

(** Finds a given text in a list of texts. *)
Ltac find_reason :=
  simplify_eq;
  repeat first [apply list_elem_of_here | apply list_elem_of_further].

(** A text is not in a list of other texts. *)
Ltac not_listed :=
  let H := fresh in
  (intros H;
   repeat (apply elem_of_cons in H as [H|H]; [discriminate H|]);
   exact (proj1 (elem_of_nil _) H)).

(** * Properties *)

(** ** Loops *)

Section for_of.
Context {A S : Type}.
Implicit Types (l : list A) (body : A → S → Outcome S).

(** A loop invariant that every returning iteration keeps holds when the
    loop returns. *)
Lemma for_of_invariant (I : S → Prop) l body acc r :
  I acc →
  (∀ a s s', a ∈ l → I s → body a s = Returned s' → I s') →
  for_of l body acc = Returned r → I r.
Proof.
  revert acc. induction l as [|a l IH]; intros acc Hacc Hbody Hrun; simpl in Hrun.
  - by simplify_eq.
  - destruct (body a acc) as [acc'|] eqn:Hstep; [|done].
    apply (IH acc'); [|intros; eapply Hbody; [by right| |]|]; try done.
    eapply Hbody; [by left| |]; done.
Qed.

(** A loop whose iterations all return, returns. *)
Lemma for_of_returns l body acc :
  (∀ a s, a ∈ l → ∃ s', body a s = Returned s') →
  ∃ r, for_of l body acc = Returned r.
Proof.
  revert acc. induction l as [|a l IH]; intros acc Hbody; simpl.
  - by eexists.
  - destruct (Hbody a acc) as [acc' ->]; [by left|].
    apply IH. intros; apply Hbody. by right.
Qed.

End for_of.

(** A loop whose iterations append to the accumulator returns the
    accumulator followed by what the iterations have appended. *)
Lemma for_of_appends {A B} (P : A → B → Prop) (l : list A)
    (body : A → list B → Outcome (list B)) acc r :
  for_of l body acc = Returned r →
  (∀ a s s', a ∈ l → body a s = Returned s' →
     ∃ xs, s' = s ++ xs ∧ ∀ x, x ∈ xs ↔ P a x) →
  ∃ xs, r = acc ++ xs ∧ ∀ x, x ∈ xs ↔ ∃ a, a ∈ l ∧ P a x.
Proof.
  revert acc. induction l as [|a l IH]; intros acc Hrun Hbody; simpl in Hrun.
  - simplify_eq. exists []. split; [by rewrite app_nil_r|]. intros x.
    rewrite elem_of_nil. split; [done|]. intros (a & Ha & _).
    by apply elem_of_nil in Ha.
  - destruct (body a acc) as [acc'|] eqn:Hstep; [|done].
    destruct (Hbody a acc acc') as (xs & -> & Hxs); [by left|done|].
    destruct (IH (acc ++ xs)) as (ys & -> & Hys);
      [done|intros; eapply Hbody; [by right|done]|].
    exists (xs ++ ys). split; [by rewrite app_assoc|]. intros x.
    rewrite elem_of_app, Hxs, Hys. split.
    + intros [?|(a' & Ha' & ?)].
      * exists a. split; [by left|done].
      * exists a'. split; [by right|done].
    + intros (a' & [->|Ha']%elem_of_cons & ?); [by left|].
      right. by exists a'.
Qed.

Lemma for_of_elem_of {A B} (P : A → B → Prop) (l : list A)
    (body : A → list B → Outcome (list B)) r :
  for_of l body [] = Returned r →
  (∀ a s s', a ∈ l → body a s = Returned s' →
     ∃ xs, s' = s ++ xs ∧ ∀ x, x ∈ xs ↔ P a x) →
  ∀ x, x ∈ r ↔ ∃ a, a ∈ l ∧ P a x.
Proof.
  intros Hrun Hbody.
  by destruct (for_of_appends P l body [] r Hrun Hbody) as (xs & -> & Hxs).
Qed.

Lemma index_Some {A} (l : list A) i x :
  index l i = Some x ↔ 0 ≤ i ∧ l !! Z.to_nat i = Some x.
Proof.
  unfold index. destruct (Z.ltb_spec i 0); split.
  - done.
  - intros [? _]. lia.
  - intros. split; [lia|done].
  - by intros [_ ?].
Qed.

Lemma index_lt {A} (l : list A) i x :
  index l i = Some x → 0 ≤ i < Z.of_nat (length l).
Proof.
  intros [? Hl]%index_Some. apply lookup_lt_Some in Hl. lia.
Qed.

Lemma index_is_Some {A} (l : list A) i :
  0 ≤ i < Z.of_nat (length l) → is_Some (index l i).
Proof.
  intros. unfold index. destruct (Z.ltb_spec i 0); [lia|].
  apply lookup_lt_is_Some. lia.
Qed.

Lemma board_get_inside b r c :
  board_shape b → 0 ≤ r < 8 → 0 ≤ c < 8 →
  ∃ v, board_get b r c = Returned (cell_of v).
Proof.
  intros [Hlen Hrows] Hr Hc. unfold board_get.
  destruct (index_is_Some b r) as [rw Hrw]; [lia|]. rewrite Hrw.
  assert (length rw = 8%nat) as Hl.
  { apply index_Some in Hrw as [_ Hrw].
    by eapply (Forall_lookup_1 _ _ _ _ Hrows Hrw). }
  destruct (index_is_Some rw c) as [v Hv]; [lia|]. rewrite Hv.
  exists v. by destruct v.
Qed.

Lemma board_get_row b r c :
  board_shape b → 0 ≤ r < 8 → ∃ v, board_get b r c = Returned v.
Proof.
  intros [Hlen _] Hr. unfold board_get.
  destruct (index_is_Some b r) as [rw ->]; [lia|]. by eexists.
Qed.

Lemma board_get_defined b r c v :
  board_shape b → board_get b r c = Returned v → v ≠ undefined →
  0 ≤ r < 8 ∧ 0 ≤ c < 8.
Proof.
  intros [Hlen Hrows]. unfold board_get.
  destruct (index b r) as [rw|] eqn:Hrw; [|done].
  intros [= <-] Hv. pose proof (index_lt _ _ _ Hrw).
  destruct (index rw c) as [x|] eqn:Hx; [|done].
  apply index_lt in Hx. apply index_Some in Hrw as [_ Hrw].
  pose proof (Forall_lookup_1 _ _ _ _ Hrows Hrw) as Hl; simpl in Hl. lia.
Qed.

Lemma board_get_undefined b r c :
  board_shape b → board_get b r c = Returned undefined → ¬ (0 ≤ c < 8).
Proof.
  intros Hb Hget Hc.
  assert (0 ≤ r < 8) as Hr.
  { unfold board_get in Hget. destruct (index b r) eqn:Hrw; [|done].
    apply index_lt in Hrw. destruct Hb as [Hl _]. lia. }
  destruct (board_get_inside b r c Hb Hr Hc) as [v Hv].
  rewrite Hv in Hget. by destruct v.
Qed.

Lemma board_set_shape b r c v : board_shape b → board_shape (board_set b r c v).
Proof.
  intros [Hlen Hrows]. unfold board_set.
  destruct (index b r) as [rw|] eqn:Hrw; [|done].
  destruct (c <? 0); [done|]. split.
  - by rewrite length_insert.
  - apply Forall_insert; [done|]. rewrite length_insert.
    apply index_Some in Hrw as [_ Hrw].
    by eapply (Forall_lookup_1 _ _ _ _ Hrows Hrw).
Qed.

(** A write to a square that reads as [null] or a piece is read back. *)
Lemma board_get_set_eq b r c v x :
  board_get b r c = Returned x → x ≠ undefined →
  board_get (board_set b r c v) r c = Returned (cell_of v).
Proof.
  unfold board_get, board_set.
  destruct (index b r) as [rw|] eqn:Hrw; [|done]. intros [= <-] Hx.
  destruct (index rw c) as [y|] eqn:Hy; [|done].
  pose proof (index_lt _ _ _ Hrw). pose proof (index_lt _ _ _ Hy).
  destruct (Z.ltb_spec c 0); [lia|].
  unfold index. destruct (Z.ltb_spec r 0); [lia|].
  rewrite list_lookup_insert_eq by lia.
  destruct (Z.ltb_spec c 0); [lia|].
  rewrite list_lookup_insert_eq by lia. by destruct v.
Qed.

(** A write leaves the other squares as they were. *)
Lemma board_get_set_ne b r c v r' c' :
  (r, c) ≠ (r', c') →
  board_get (board_set b r c v) r' c' = board_get b r' c'.
Proof.
  intros Hne. unfold board_set.
  destruct (index b r) as [rw|] eqn:Hrw; [|done].
  destruct (Z.ltb_spec c 0); [done|].
  pose proof (index_lt _ _ _ Hrw) as Hr.
  apply index_Some in Hrw as [_ Hrw].
  unfold board_get, index. destruct (Z.ltb_spec r' 0); [done|].
  destruct (decide (r = r')) as [<-|Hrr].
  - rewrite list_lookup_insert_eq by lia. rewrite Hrw.
    destruct (Z.ltb_spec c' 0); [done|].
    rewrite list_lookup_insert_ne; [done|]. intros ?.
    apply Hne. f_equal. lia.
  - rewrite list_lookup_insert_ne; [done|]. lia.
Qed.

Lemma foldl_board_shape {A} (f : Board → A → Board) l b :
  (∀ b a, board_shape b → board_shape (f b a)) →
  board_shape b → board_shape (foldl f b l).
Proof.
  intros Hf. revert b. induction l as [|a l IH]; intros b Hb; simpl; auto.
Qed.

Lemma place_rows_shape c rows b :
  board_shape b → board_shape (place_rows c rows b).
Proof.
  apply foldl_board_shape. intros b' r. apply foldl_board_shape.
  intros b'' c' Hb. case_match; [by apply board_set_shape|done].
Qed.

Lemma initializeBoard_shape : board_shape initializeBoard.
Proof.
  unfold initializeBoard. do 2 apply place_rows_shape.
  split; [done|]. apply Forall_replicate. done.
Qed.

Lemma dark_squares_scan_sound b :
  board_shape b → dark_squares_scan b = true → dark_squares b.
Proof.
  intros Hb Hscan r c p Hget.
  destruct (board_get_defined _ _ _ _ Hb Hget) as [Hr Hc]; [done|].
  unfold dark_squares_scan in Hscan. rewrite forallb_forall in Hscan.
  specialize (Hscan r). rewrite forallb_forall in Hscan.
  specialize (Hscan ltac:(apply list_elem_of_In, elem_of_seqZ; lia) c
                    ltac:(apply list_elem_of_In, elem_of_seqZ; lia)).
  rewrite Hget in Hscan. lia.
Qed.

Lemma initializeBoard_dark : dark_squares initializeBoard.
Proof.
  apply dark_squares_scan_sound; [apply initializeBoard_shape|].
  by vm_compute.
Qed.

(** ** The readers return on a well-shaped board *)

Lemma directions_unit p dr dc :
  (dr, dc) ∈ directions p → (dr = 1 ∨ dr = -1) ∧ (dc = 1 ∨ dc = -1).
Proof.
  unfold directions. intros Hd. destruct (king p), (color p);
    repeat (apply elem_of_cons in Hd as [[= -> ->]|Hd]; [lia|]);
    by apply elem_of_nil in Hd.
Qed.

Lemma directions_forward p dr dc :
  king p = false → (dr, dc) ∈ directions p → dr = expectedDirection p.
Proof.
  unfold directions, expectedDirection. intros -> Hd. destruct (color p);
    repeat (apply elem_of_cons in Hd as [[= -> ->]|Hd]; [lia|]);
    by apply elem_of_nil in Hd.
Qed.

Lemma in_bounds_spec r c : in_bounds r c = true ↔ 0 ≤ r < 8 ∧ 0 ≤ c < 8.
Proof. unfold in_bounds. rewrite !andb_true_iff. lia. Qed.

Lemma getPieceCaptues_returns b r c p :
  board_shape b → board_get b r c = Returned (occupied p) →
  ∃ cs, getPieceCaptues b r c = Returned cs.
Proof.
  intros Hb Hget. unfold getPieceCaptues. rewrite Hget. simpl.
  destruct (board_get_defined _ _ _ _ Hb Hget) as [Hr Hc]; [done|].
  apply for_of_returns. intros [dr dc] cs Hd.
  apply directions_unit in Hd.
  destruct (in_bounds (r + 2 * dr) (c + 2 * dc)) eqn:Hin; [|by eexists].
  apply in_bounds_spec in Hin.
  destruct (board_get_row b (r + dr) (c + dc) Hb) as [v ->]; [lia|].
  destruct (board_get_row b (r + 2 * dr) (c + 2 * dc) Hb) as [w ->]; [lia|].
  simpl. case_match; by eexists.
Qed.

(** The same double loop scans the board in [getAvailableCaptures],
    [countPieces] and [getValidMovesForPlayer]. *)
Lemma scan_returns {S} b (visit : Z → Z → Cell → S → Outcome S) acc :
  board_shape b →
  (∀ r c p s, board_get b r c = Returned (occupied p) →
     ∃ s', visit r c (occupied p) s = Returned s') →
  (∀ r c s, ∃ s', visit r c null s = Returned s') →
  ∃ res,
    for_of (seqZ 0 8) (λ row acc,
      for_of (seqZ 0 8) (λ col acc,
        v ← board_get b row col; visit row col v acc) acc) acc
    = Returned res.
Proof.
  intros Hb Hocc Hnull. apply for_of_returns. intros r s Hr.
  apply for_of_returns. intros c s' Hc.
  apply elem_of_seqZ in Hr. apply elem_of_seqZ in Hc.
  destruct (board_get_inside b r c Hb) as [v Hv]; [lia..|].
  rewrite Hv. simpl. destruct v; simpl; eauto.
Qed.

Lemma getAvailableCaptures_returns b c :
  board_shape b → ∃ cs, getAvailableCaptures b c = Returned cs.
Proof.
  intros Hb. unfold getAvailableCaptures.
  apply (scan_returns b (λ row col piece captures,
    if belongs_to piece c then
      pieceCaptues ← getPieceCaptues b row col;
      Returned (captures ++ pieceCaptues)
    else Returned captures)); [done| |by eexists].
  intros r c' p s Hget. simpl. case_bool_decide; [|by eexists].
  destruct (getPieceCaptues_returns b r c' p Hb Hget) as [cs ->].
  by eexists.
Qed.

Lemma countPieces_returns b c :
  board_shape b → ∃ n, countPieces b c = Returned n.
Proof.
  intros Hb. unfold countPieces.
  apply (scan_returns b (λ row col v count,
    if belongs_to v c then Returned (S count) else Returned count));
    [done|intros; case_match|]; by eexists.
Qed.

Lemma getValidMovesForPiece_returns b r c p :
  board_shape b → board_get b r c = Returned (occupied p) →
  ∃ ms, getValidMovesForPiece b r c = Returned ms.
Proof.
  intros Hb Hget. unfold getValidMovesForPiece. rewrite Hget. simpl.
  destruct (board_get_defined _ _ _ _ Hb Hget) as [Hr Hc]; [done|].
  apply for_of_returns. intros [dr dc] ms Hd.
  apply directions_unit in Hd.
  assert (∃ ms', (if in_bounds (r + dr) (c + dc) then
           target ← board_get b (r + dr) (c + dc);
           if falsy target
           then Returned (ms ++
                  [mkMove (mkPos r c) (mkPos (r + dr) (c + dc)) type_move None])
           else Returned ms
         else Returned ms) = Returned ms') as [ms' ->].
  { destruct (in_bounds (r + dr) (c + dc)) eqn:Hin; [|by eexists].
    apply in_bounds_spec in Hin.
    destruct (board_get_row b (r + dr) (c + dc) Hb) as [v ->]; [lia|].
    simpl. case_match; by eexists. }
  simpl.
  destruct (in_bounds (r + 2 * dr) (c + 2 * dc)) eqn:Hin; [|by eexists].
  apply in_bounds_spec in Hin.
  destruct (board_get_row b (r + dr) (c + dc) Hb) as [v ->]; [lia|].
  destruct (board_get_row b (r + 2 * dr) (c + 2 * dc) Hb) as [w ->]; [lia|].
  simpl. case_match; by eexists.
Qed.

Lemma getValidMovesForPlayer_returns b c :
  board_shape b → ∃ ms, getValidMovesForPlayer b c = Returned ms.
Proof.
  intros Hb. unfold getValidMovesForPlayer.
  apply (scan_returns b (λ row col piece moves,
    if belongs_to piece c then
      pieceMoves ← getValidMovesForPiece b row col;
      Returned (moves ++ pieceMoves)
    else Returned moves)); [done| |by eexists].
  intros r c' p s Hget. simpl. case_bool_decide; [|by eexists].
  destruct (getValidMovesForPiece_returns b r c' p Hb Hget) as [ms ->].
  by eexists.
Qed.

Lemma checkGameOver_returns this :
  board_shape (board this) → ∃ w, checkGameOver this = Returned w.
Proof.
  intros Hb. unfold checkGameOver.
  destruct (countPieces_returns (board this) red Hb) as [nr ->].
  destruct (countPieces_returns (board this) black Hb) as [nb ->].
  destruct (getValidMovesForPlayer_returns (board this) (currentPlayer this) Hb)
    as [ms ->].
  simpl. repeat case_match; by eexists.
Qed.

(** ** What the capture enumeration returns *)

Lemma opposing_spec v c :
  opposing v c = true ↔ ∃ q, v = occupied q ∧ color q ≠ c.
Proof.
  destruct v as [| |q]; simpl.
  - split; [done|]. by intros (? & ? & _).
  - split; [done|]. by intros (? & ? & _).
  - rewrite negb_true_iff, bool_decide_eq_false. split; [by exists q|].
    by intros (? & [= <-] & ?).
Qed.

Lemma belongs_to_spec v c :
  belongs_to v c = true ↔ ∃ q, v = occupied q ∧ color q = c.
Proof.
  destruct v as [| |q]; simpl.
  - split; [done|]. by intros (? & ? & _).
  - split; [done|]. by intros (? & ? & _).
  - rewrite bool_decide_eq_true. split; [by exists q|].
    by intros (? & [= <-] & ?).
Qed.

(** The captures of a piece are its jumps. *)
Lemma getPieceCaptues_spec b r c p cs :
  board_get b r c = Returned (occupied p) →
  getPieceCaptues b r c = Returned cs →
  ∀ cap, cap ∈ cs ↔ capture_from b p r c cap.
Proof.
  intros Hget. unfold getPieceCaptues. rewrite Hget. simpl. intros Hrun cap.
  rewrite (for_of_elem_of
    (λ '(dr, dc) cap, ∃ q w,
       cap = mkCapture (mkPos r c) (mkPos (r + 2 * dr) (c + 2 * dc))
                       (mkPos (r + dr) (c + dc)) ∧
       in_bounds (r + 2 * dr) (c + 2 * dc) = true ∧
       board_get b (r + dr) (c + dc) = Returned (occupied q) ∧
       color q ≠ color p ∧
       board_get b (r + 2 * dr) (c + 2 * dc) = Returned w ∧
       falsy w = true) _ _ _ Hrun).
  - split.
    + intros ([dr dc] & Hd & q & w & ?). by exists dr, dc, q, w.
    + intros (dr & dc & q & w & Hd & ?). exists (dr, dc).
      split; [done|]. by exists q, w.
  - clear Hrun cap. intros [dr dc] s s' _ Hbody.
    destruct (in_bounds (r + 2 * dr) (c + 2 * dc)) eqn:Hin.
    + destruct (board_get b (r + dr) (c + dc)) as [v|] eqn:Hv; [|done].
      destruct (board_get b (r + 2 * dr) (c + 2 * dc)) as [w|] eqn:Hw;
        [|done].
      simpl in Hbody.
      destruct (opposing v (color p) && falsy w) eqn:Hcond; simplify_eq.
      * apply andb_true_iff in Hcond as [(q & -> & Hq)%opposing_spec Hf].
        eexists. split; [done|]. intros x.
        rewrite list_elem_of_singleton. split; [by exists q, w|].
        by intros (? & ? & ? & _).
      * exists []. split; [by rewrite app_nil_r|]. intros x.
        rewrite elem_of_nil. split; [done|].
        intros (q & w' & _ & _ & ? & Hq & ? & Hf). simplify_eq.
        apply andb_false_iff in Hcond as [Hcond|Hcond]; [|congruence].
        assert (opposing (occupied q) (color p) = true); [|congruence].
        apply opposing_spec. by exists q.
    + simplify_eq. exists []. split; [by rewrite app_nil_r|]. intros x.
      rewrite elem_of_nil. split; [done|]. by intros (? & ? & _ & ? & _).
Qed.

Lemma getPieceCaptues_sound b r c p cs :
  board_get b r c = Returned (occupied p) →
  getPieceCaptues b r c = Returned cs →
  ∀ cap, cap ∈ cs → capture_from b p r c cap.
Proof.
  intros Hget Hcs cap. by apply getPieceCaptues_spec.
Qed.

(** The captures of a colour are the jumps of its pieces. *)
Lemma getAvailableCaptures_spec b c cs :
  getAvailableCaptures b c = Returned cs →
  ∀ cap, cap ∈ cs ↔
         ∃ r col p,
           0 ≤ r < 8 ∧ 0 ≤ col < 8 ∧
           board_get b r col = Returned (occupied p) ∧ color p = c ∧
           capture_from b p r col cap.
Proof.
  unfold getAvailableCaptures. intros Hrun cap.
  rewrite (for_of_elem_of
    (λ r cap, ∃ col, col ∈ seqZ 0 8 ∧ ∃ p,
       board_get b r col = Returned (occupied p) ∧ color p = c ∧
       capture_from b p r col cap) _ _ _ Hrun).
  - split.
    + intros (r & Hr%elem_of_seqZ & col & Hcol%elem_of_seqZ & p & ? & ? & ?).
      exists r, col, p. split_all; (lia || done).
    + intros (r & col & p & ? & ? & ? & ? & ?).
      exists r. split; [apply elem_of_seqZ; lia|].
      exists col. split; [apply elem_of_seqZ; lia|]. by exists p.
  - clear Hrun cap. intros r s s' _ Hrow.
    apply (for_of_appends _ _ _ _ _ Hrow).
    intros col s1 s2 _ Hbody.
    destruct (board_get b r col) as [v|] eqn:Hv; [|done]. simpl in Hbody.
    destruct (belongs_to v c) eqn:Hmine.
    + apply belongs_to_spec in Hmine as (p & -> & Hp).
      destruct (getPieceCaptues b r col) as [pcs|] eqn:Hpcs; [|done].
      simpl in Hbody. simplify_eq. exists pcs. split; [done|]. intros x.
      rewrite (getPieceCaptues_spec _ _ _ _ _ Hv Hpcs). split; [by exists p|].
      intros (p' & ? & _ & ?). by simplify_eq.
    + simplify_eq. exists []. split; [by rewrite app_nil_r|]. intros x.
      rewrite elem_of_nil. split; [done|].
      intros (p' & ? & ? & _). simplify_eq.
      assert (belongs_to (occupied p') (color p') = true); [|congruence].
      apply belongs_to_spec. by exists p'.
Qed.


(** A man on the row it is crowned on has nothing to jump over. *)
Lemma getPieceCaptues_far_row b r c p cs :
  board_get b r c = Returned (occupied p) →
  king p = false → reaches_far_row p r = true →
  getPieceCaptues b r c = Returned cs → cs = [].
Proof.
  intros Hget Hman Hfar Hcs. destruct cs as [|cap cs]; [done|].
  destruct (getPieceCaptues_sound _ _ _ _ _ Hget Hcs cap) as
    (dr & dc & q & w & Hd & _ & Hin & _); [by left|].
  apply directions_forward in Hd; [|done]. apply in_bounds_spec in Hin.
  unfold reaches_far_row, expectedDirection in *.
  destruct (color p); lia.
Qed.

(** ** What an accepted validation says *)

Lemma isValidMove_valid_inv fr fc tr tc id this v :
  isValidMove fr fc tr tc id this = Returned v →
  is_valid v = true →
  ∃ player piece,
    players_get (players this) id = Some player ∧
    player_color player = currentPlayer this ∧
    board_get (board this) fr fc = Returned (occupied piece) ∧
    color piece = currentPlayer this ∧
    board_get (board this) tr tc = Returned null ∧
    (tr + tc) `rem` 2 ≠ 0 ∧
    bound_to_other_piece this fr fc = false ∧
    ((v = valid_move ∧ Z.abs (tr - fr) = 1 ∧ Z.abs (tc - fc) = 1 ∧
      (king piece = false → tr - fr = expectedDirection piece) ∧
      getAvailableCaptures (board this) (currentPlayer this) = Returned [])
     ∨
     (∃ q,
      v = valid_capture (fr + Z.sgn (tr - fr)) (fc + Z.sgn (tc - fc)) ∧
      Z.abs (tr - fr) = 2 ∧ Z.abs (tc - fc) = 2 ∧
      (king piece = false → Z.sgn (tr - fr) = expectedDirection piece) ∧
      board_get (board this) (fr + Z.sgn (tr - fr)) (fc + Z.sgn (tc - fc))
        = Returned (occupied q) ∧
      color q ≠ currentPlayer this)).
Proof.
  unfold isValidMove. intros Hrun Hv.
  destruct (players_get (players this) id) as [player|]; [|done].
  case_bool_decide as Hturn; simpl in Hrun; [|by simplify_eq].
  destruct (board_get (board this) fr fc) as [[| |piece]|] eqn:Hsrc;
    simpl in Hrun; try by simplify_eq.
  case_bool_decide as Hown; simpl in Hrun; [|by simplify_eq].
  destruct (board_get (board this) tr tc) as [[| |?]|] eqn:Hdst;
    simpl in Hrun; try by simplify_eq.
  destruct (Z.eqb_spec ((tr + tc) `rem` 2) 0) as [|Hdark]; [by simplify_eq|].
  destruct (bound_to_other_piece this fr fc) eqn:Hbound; [by simplify_eq|].
  exists player, piece. do 7 (split; [done|]).
  destruct ((Z.abs (tr - fr) =? 1) && (Z.abs (tc - fc) =? 1)) eqn:Hstep.
  - apply andb_true_iff in Hstep as [Hr%Z.eqb_eq Hc%Z.eqb_eq].
    destruct (negb (king piece) && negb (tr - fr =? expectedDirection piece))
      eqn:Hdir; [by simplify_eq|].
    destruct (getAvailableCaptures (board this) (currentPlayer this))
      as [caps|]; [|done]. simpl in Hrun.
    destruct caps as [|cap caps]; simpl in Hrun; [|by simplify_eq].
    simplify_eq. left. do 3 (split; [done|]). split; [|done].
    intros Hman. rewrite Hman in Hdir. simpl in Hdir.
    apply negb_false_iff, Z.eqb_eq in Hdir. done.
  - destruct ((Z.abs (tr - fr) =? 2) && (Z.abs (tc - fc) =? 2)) eqn:Hjump;
      [|by simplify_eq].
    apply andb_true_iff in Hjump as [Hr%Z.eqb_eq Hc%Z.eqb_eq].
    destruct (negb (king piece) &&
              negb (Z.sgn (tr - fr) =? expectedDirection piece))
      eqn:Hdir; [by simplify_eq|].
    destruct (board_get (board this) (fr + Z.sgn (tr - fr))
                (fc + Z.sgn (tc - fc))) as [mid|] eqn:Hmid; [|done].
    simpl in Hrun.
    destruct (opposing mid (currentPlayer this)) eqn:Hopp;
      simpl in Hrun; [|by simplify_eq].
    apply opposing_spec in Hopp as (q & -> & Hq).
    simplify_eq. right. exists q. do 3 (split; [done|]). split; [|done].
    intros Hman. rewrite Hman in Hdir. simpl in Hdir.
    apply negb_false_iff, Z.eqb_eq in Hdir. done.
Qed.

(** The square a validated move starts from holds a piece. *)
Lemma isValidMove_accepts_source fr fc tr tc id this v :
  isValidMove fr fc tr tc id this = Returned v → is_valid v = true →
  ∃ piece, board_get (board this) fr fc = Returned (occupied piece).
Proof.
  intros Hrun Hv.
  destruct (isValidMove_valid_inv _ _ _ _ _ _ _ Hrun Hv)
    as (? & piece & _ & _ & ? & _). by exists piece.
Qed.

(** ** Stepping through a method *)

Lemma bind_returned_inv {A B} (m : Method A) (k : A → Method B) this b this' :
  (m ≫= k) this = (Returned b, this') →
  ∃ a this1, m this = (Returned a, this1) ∧ k a this1 = (Returned b, this').
Proof.
  unfold mbind, Method_bind. destruct (m this) as [[a|] this1]; [|done].
  intros. by exists a, this1.
Qed.

Lemma bind_run {A B} (m : Method A) (k : A → Method B) this a this1 :
  m this = (Returned a, this1) → (m ≫= k) this = k a this1.
Proof. unfold mbind, Method_bind. by intros ->. Qed.

Lemma bind_assign {B} f (k : () → Method B) this :
  (assign f ≫= k) this = k () (f this).
Proof. done. Qed.

Lemma bind_read_pure {A B} (g : CheckersGame → A) (k : A → Method B) this :
  (read (λ this, Returned (g this)) ≫= k) this = k (g this) this.
Proof. done. Qed.

(** ** What an accepted move does *)

Lemma relocate_shape b fr fc tr tc p :
  board_shape b → board_shape (relocate b fr fc tr tc p).
Proof. intros. by do 2 apply board_set_shape. Qed.

Lemma crowned_shape b tr tc p pr :
  board_shape b → board_shape (crowned b tr tc p pr).
Proof. intros. destruct pr; simpl; [by apply board_set_shape|done]. Qed.

Lemma relocate_landing b fr fc tr tc p q :
  board_get b fr fc = Returned (occupied q) →
  board_get b tr tc = Returned null →
  board_get (relocate b fr fc tr tc p) tr tc = Returned (occupied p).
Proof.
  intros Hsrc Hdst. unfold relocate.
  rewrite board_get_set_ne by (intros [= -> ->]; congruence).
  by rewrite (board_get_set_eq _ _ _ _ null).
Qed.

Lemma relocate_other b fr fc tr tc p r c :
  (r, c) ≠ (fr, fc) → (r, c) ≠ (tr, tc) →
  board_get (relocate b fr fc tr tc p) r c = board_get b r c.
Proof.
  intros. unfold relocate. by rewrite !board_get_set_ne.
Qed.

Lemma makeMove_invalid fr fc tr tc id this reason :
  isValidMove fr fc tr tc id this = Returned (invalid reason) →
  makeMove fr fc tr tc id this = (Returned (move_rejected reason), this).
Proof.
  intros Hv. unfold makeMove, mbind, Method_bind, read. by rewrite Hv.
Qed.

Lemma makeMove_throws fr fc tr tc id this :
  isValidMove fr fc tr tc id this = TypeError →
  makeMove fr fc tr tc id this = (TypeError, this).
Proof.
  intros Hv. unfold makeMove, mbind, Method_bind, read. by rewrite Hv.
Qed.

Lemma makeMove_valid_move fr fc tr tc id this p :
  board_shape (board this) →
  isValidMove fr fc tr tc id this = Returned valid_move →
  board_get (board this) fr fc = Returned (occupied p) →
  let b := crowned (relocate (board this) fr fc tr tc p) tr tc p
             (promotes p tr) in
  ∃ over,
    checkGameOver (moved this b false (mkPos tr tc) None) = Returned over ∧
    makeMove fr fc tr tc id this =
      (Returned (move_accepted null (promotes p tr) false
         (winner (moved this b false (mkPos tr tc) over))
         (gameState (moved this b false (mkPos tr tc) over))),
       moved this b false (mkPos tr tc) over).
Proof.
  intros Hb Hv Hsrc b.
  destruct (isValidMove_valid_inv _ _ _ _ _ _ _ Hv eq_refl)
    as (_ & p' & _ & _ & Hsrc' & _ & Hdst & _).
  assert (p' = p) as -> by congruence.
  destruct (checkGameOver_returns (moved this b false (mkPos tr tc) None))
    as [over Hover].
  { by apply crowned_shape, relocate_shape. }
  exists over. split; [done|].
  unfold makeMove, mbind, Method_bind, read. rewrite Hv, Hsrc. simpl.
  pose proof (relocate_landing _ _ _ _ _ p _ Hsrc Hdst) as Hland.
  clear Hv Hsrc Hsrc' Hdst Hb.
  unfold relocate in *. subst b. unfold promotes, crowned, moved in *.
  destruct (king p); simpl in Hover |- *.
  - run_method. rewrite Hover. by destruct over.
  - destruct (reaches_far_row p tr); simpl in Hover |- *.
    + unfold crown. run_method. rewrite Hland. simpl.
      rewrite Hover. by destruct over.
    + run_method. rewrite Hover. by destruct over.
Qed.

Lemma makeMove_valid_capture fr fc tr tc id this p mr mc :
  board_shape (board this) →
  isValidMove fr fc tr tc id this = Returned (valid_capture mr mc) →
  board_get (board this) fr fc = Returned (occupied p) →
  let b1 := board_set (relocate (board this) fr fc tr tc p) mr mc None in
  ∃ q more over,
    board_get (board this) mr mc = Returned (occupied q) ∧
    color q ≠ color p ∧
    board_get b1 tr tc = Returned (occupied p) ∧
    getPieceCaptues b1 tr tc = Returned more ∧
    let pr := promotes p tr in
    let ct := (0 <? length more)%nat && negb pr in
    let b := crowned b1 tr tc p pr in
    checkGameOver (moved this b ct (mkPos tr tc) None) = Returned over ∧
    makeMove fr fc tr tc id this =
      (Returned (move_accepted (occupied q) pr ct
         (winner (moved this b ct (mkPos tr tc) over))
         (gameState (moved this b ct (mkPos tr tc) over))),
       moved this b ct (mkPos tr tc) over).
Proof.
  intros Hb Hv Hsrc b1.
  destruct (isValidMove_valid_inv _ _ _ _ _ _ _ Hv eq_refl)
    as (_ & p' & _ & _ & Hsrc' & Hown & Hdst & _ & _ & [[? _]|Hjump]);
    [done|].
  assert (p' = p) as -> by congruence. clear Hsrc'.
  destruct Hjump as (q & [= -> ->] & Hr & Hc & _ & Hmid & Hq).
  set (mr := fr + Z.sgn (tr - fr)) in *.
  set (mc := fc + Z.sgn (tc - fc)) in *.
  assert ((mr, mc) ≠ (fr, fc)) as Hmf by (intros [= ? ?]; lia).
  assert ((mr, mc) ≠ (tr, tc)) as Hmt by (intros [= ? ?]; lia).
  assert (board_get (relocate (board this) fr fc tr tc p) mr mc
          = Returned (occupied q)) as Hmid'.
  { by rewrite relocate_other. }
  assert (board_get b1 tr tc = Returned (occupied p)) as Hland.
  { unfold b1. rewrite board_get_set_ne by done.
    by eapply relocate_landing. }
  assert (board_shape b1) as Hb1.
  { by apply board_set_shape, relocate_shape. }
  destruct (getPieceCaptues_returns b1 tr tc p Hb1 Hland) as [more Hmore].
  set (pr := promotes p tr). set (ct := (0 <? length more)%nat && negb pr).
  destruct (checkGameOver_returns
              (moved this (crowned b1 tr tc p pr) ct (mkPos tr tc) None))
    as [over Hover].
  { by apply crowned_shape. }
  exists q, more, over. do 2 (split; [congruence|]).
  do 3 (split; [done|]).
  unfold makeMove, mbind, Method_bind, read. rewrite Hv, Hsrc. simpl.
  clear Hv Hsrc Hdst Hb Hb1 Hmid.
  unfold relocate, moved in *. run_method. rewrite Hmid'. fold b1.
  rewrite Hmore. subst pr ct. unfold promotes, crowned in *.
  destruct (0 <? length more)%nat, (king p); simpl in Hover |- *.
  - run_method. rewrite Hover. by destruct over.
  - destruct (reaches_far_row p tr); simpl in Hover |- *.
    + unfold crown. run_method. rewrite Hland. simpl.
      rewrite Hover. by destruct over.
    + run_method. rewrite Hover. by destruct over.
  - run_method. rewrite Hover. by destruct over.
  - destruct (reaches_far_row p tr); simpl in Hover |- *.
    + unfold crown. run_method. rewrite Hland. simpl.
      rewrite Hover. by destruct over.
    + run_method. rewrite Hover. by destruct over.
Qed.

(** ** The board invariant *)

Lemma board_set_dark b r c v x :
  dark_squares b →
  board_get b r c = Returned x → x ≠ undefined →
  (∀ p, v = Some p → (r + c) `rem` 2 = 1) →
  dark_squares (board_set b r c v).
Proof.
  intros Hdark Hget Hx Hv r' c' p' Hget'.
  destruct (decide ((r, c) = (r', c'))) as [[= <- <-]|Hne].
  - rewrite (board_get_set_eq _ _ _ _ x) in Hget' by done.
    destruct v as [p|]; simplify_eq/=. by apply (Hv p').
  - rewrite board_get_set_ne in Hget' by done. by eapply Hdark.
Qed.

Lemma board_set_wf b r c v x :
  board_wf b →
  board_get b r c = Returned x → x ≠ undefined →
  (∀ p, v = Some p → (r + c) `rem` 2 = 1) →
  board_wf (board_set b r c v).
Proof.
  intros [Hs Hd] ???. split; [by apply board_set_shape|].
  by eapply board_set_dark.
Qed.

Lemma dark_parity r c :
  0 ≤ r < 8 → 0 ≤ c < 8 → (r + c) `rem` 2 ≠ 0 → (r + c) `rem` 2 = 1.
Proof.
  intros. pose proof (Z.rem_bound_pos (r + c) 2). lia.
Qed.

Lemma relocate_wf b fr fc tr tc p q :
  board_wf b →
  board_get b fr fc = Returned (occupied q) →
  board_get b tr tc = Returned null →
  (tr + tc) `rem` 2 ≠ 0 →
  board_wf (relocate b fr fc tr tc p).
Proof.
  intros Hwf Hsrc Hdst Hdark. unfold relocate.
  destruct (board_get_defined _ _ _ _ (proj1 Hwf) Hdst) as [? ?]; [done|].
  apply (board_set_wf _ _ _ _ (occupied q)); [|by rewrite board_get_set_ne
    by (intros [= -> ->]; congruence)|done..].
  apply (board_set_wf _ _ _ _ null); [done..|].
  intros _ _. by apply dark_parity.
Qed.

Lemma crowned_wf b tr tc p pr :
  board_wf b → board_get b tr tc = Returned (occupied p) →
  board_wf (crowned b tr tc p pr).
Proof.
  intros Hwf Hland. destruct pr; simpl; [|done].
  apply (board_set_wf _ _ _ _ (occupied p)); [done..|].
  intros _ _. exact (proj2 Hwf _ _ _ Hland).
Qed.

Lemma makeMove_board_wf fr fc tr tc id this :
  board_wf (board this) →
  board_wf (board (makeMove fr fc tr tc id this).2).
Proof.
  intros Hwf.
  destruct (isValidMove fr fc tr tc id this) as [[reason| |mr mc]|] eqn:Hv.
  - by rewrite (makeMove_invalid _ _ _ _ _ _ _ Hv).
  - destruct (isValidMove_valid_inv _ _ _ _ _ _ _ Hv eq_refl)
      as (_ & p & _ & _ & Hsrc & _ & Hdst & Hdark & _).
    destruct (makeMove_valid_move _ _ _ _ _ _ _ (proj1 Hwf) Hv Hsrc)
      as (over & _ & ->). simpl.
    apply crowned_wf; [by eapply relocate_wf|by eapply relocate_landing].
  - destruct (isValidMove_valid_inv _ _ _ _ _ _ _ Hv eq_refl)
      as (_ & p & _ & _ & Hsrc & _ & Hdst & Hdark & _).
    destruct (makeMove_valid_capture _ _ _ _ _ _ _ _ _ (proj1 Hwf) Hv Hsrc)
      as (q & more & over & Hmid & Hq & Hland & _ & _ & ->). simpl.
    apply crowned_wf; [|done].
    assert ((mr, mc) ≠ (fr, fc)) by (intros [= -> ->]; congruence).
    assert ((mr, mc) ≠ (tr, tc)) by (intros [= -> ->]; congruence).
    apply (board_set_wf _ _ _ _ (occupied q));
      [by eapply relocate_wf|by rewrite relocate_other|done..].
  - by rewrite (makeMove_throws _ _ _ _ _ _ Hv).
Qed.

Lemma initializeBoard_wf : board_wf initializeBoard.
Proof. split; [apply initializeBoard_shape|apply initializeBoard_dark]. Qed.

Opaque initializeBoard.

Lemma addPlayer_board id n this : board (addPlayer id n this).2 = board this.
Proof. unfold addPlayer. run_method. by repeat (case_match; simplify_eq/=). Qed.

Lemma removePlayer_board id this : board (removePlayer id this).2 = board this.
Proof. unfold removePlayer. run_method. by repeat (case_match; simplify_eq/=). Qed.

Lemma selectTurnOrder_board id ch this :
  board (selectTurnOrder id ch this).2 = board this.
Proof. unfold selectTurnOrder. run_method. by repeat (case_match; simplify_eq/=). Qed.

Lemma resetGame_returns this : ∃ this', resetGame this = (Returned (), this').
Proof.
  unfold resetGame. rewrite bind_assign, bind_read_pure.
  case_match; [rewrite bind_assign|]; by eexists.
Qed.

Lemma resetGame_board this : board (resetGame this).2 = initializeBoard.
Proof.
  unfold resetGame. rewrite bind_assign, bind_read_pure.
  case_match; [rewrite bind_assign|]; done.
Qed.

Lemma reset_then {A} (a : A) this :
  (resetGame;; mret a) this = (Returned a, (resetGame this).2).
Proof.
  destruct (resetGame_returns this) as [g' Hg].
  rewrite (bind_run _ _ _ _ _ Hg). by rewrite Hg.
Qed.

(** A request waits, or resets the game once it has been recorded. *)
Lemma requestNewGame_cases id this :
  let this1 :=
    set_newGameRequests (newGameRequests this ∪ {[id]}) this in
  requestNewGame id this = (Returned waiting_for_other, this1) ∨
  ∃ r this',
    requestNewGame id this = (Returned r, this') ∧
    this' = (resetGame this1).2.
Proof.
  intros this1. unfold requestNewGame.
  rewrite bind_assign, !bind_read_pure. fold this1.
  destruct (_ && _); [right; eexists _, _; split; [apply reset_then|done]|].
  destruct (_ =? 1)%nat;
    [right; eexists _, _; split; [apply reset_then|done]|].
  by left.
Qed.

Lemma requestNewGame_board id this :
  board (requestNewGame id this).2 = board this ∨
  board (requestNewGame id this).2 = initializeBoard.
Proof.
  destruct (requestNewGame_cases id this) as [-> | (r & this' & -> & Hreset)].
  - by left.
  - right. simpl. rewrite Hreset. apply resetGame_board.
Qed.

Lemma exec_board_wf c this :
  board_wf (board this) → board_wf (board (exec c this)).
Proof.
  intros Hwf. destruct c; simpl.
  - by rewrite addPlayer_board.
  - by rewrite removePlayer_board.
  - by apply makeMove_board_wf.
  - by rewrite selectTurnOrder_board.
  - destruct (requestNewGame_board playerId this) as [-> | ->];
      [done|apply initializeBoard_wf].
  - done.
Qed.

Lemma reachable_board_wf this : reachable this → board_wf (board this).
Proof.
  induction 1 as [code|c this _ IH]; [apply initializeBoard_wf|].
  by apply exec_board_wf.
Qed.

Lemma reachable_run cs this : reachable this → reachable (run cs this).
Proof.
  revert this. induction cs as [|c cs IH]; intros this Hr; simpl; [done|].
  apply IH. by constructor.
Qed.

(** ** The three outcomes of [makeMove] *)

(** On a well-shaped board [makeMove] raises exactly when the validation
    raises, rejects exactly when the validation rejects, and leaves the
    session as it was in both cases; a validated move is carried out. *)
Lemma makeMove_cases fr fc tr tc id this :
  board_shape (board this) →
  (isValidMove fr fc tr tc id this = TypeError ∧
   makeMove fr fc tr tc id this = (TypeError, this)) ∨
  (∃ reason,
     isValidMove fr fc tr tc id this = Returned (invalid reason) ∧
     makeMove fr fc tr tc id this = (Returned (move_rejected reason), this)) ∨
  (∃ v cp pr ct w gs this',
     isValidMove fr fc tr tc id this = Returned v ∧ is_valid v = true ∧
     makeMove fr fc tr tc id this =
       (Returned (move_accepted cp pr ct w gs), this')).
Proof.
  intros Hb.
  destruct (isValidMove fr fc tr tc id this) as [[reason| |mr mc]|] eqn:Hv.
  - right; left. exists reason. split; [done|]. by apply makeMove_invalid.
  - right; right.
    destruct (isValidMove_accepts_source _ _ _ _ _ _ _ Hv eq_refl) as [p Hsrc].
    destruct (makeMove_valid_move _ _ _ _ _ _ _ Hb Hv Hsrc) as (over & _ & Heq).
    by repeat eexists.
  - right; right.
    destruct (isValidMove_accepts_source _ _ _ _ _ _ _ Hv eq_refl) as [p Hsrc].
    destruct (makeMove_valid_capture _ _ _ _ _ _ _ _ _ Hb Hv Hsrc)
      as (q & more & over & _ & _ & _ & _ & _ & Heq).
    by repeat eexists.
  - left. split; [done|]. by apply makeMove_throws.
Qed.

(** A call that is not accepted leaves the session as it was. *)
Lemma makeMove_unaccepted_unchanged fr fc tr tc id this :
  board_shape (board this) →
  (∀ r, (makeMove fr fc tr tc id this).1 = Returned r → success r = false) →
  (makeMove fr fc tr tc id this).2 = this.
Proof.
  intros Hb Hno.
  destruct (makeMove_cases fr fc tr tc id this Hb)
    as [[_ Heq]|[(reason & _ & Heq)|(v & cp & pr & ct & w & gs & this' & _ & _ & Heq)]];
    rewrite Heq in *; try done.
  by specialize (Hno _ eq_refl).
Qed.

Lemma makeMove_accepted_valid fr fc tr tc id this r this' :
  makeMove fr fc tr tc id this = (Returned r, this') → success r = true →
  ∃ v, isValidMove fr fc tr tc id this = Returned v ∧ is_valid v = true.
Proof.
  intros Heq Hr.
  destruct (isValidMove fr fc tr tc id this) as [[reason| |mr mc]|] eqn:Hv.
  - rewrite (makeMove_invalid _ _ _ _ _ _ _ Hv) in Heq. by simplify_eq.
  - by eexists.
  - by eexists.
  - by rewrite (makeMove_throws _ _ _ _ _ _ Hv) in Heq.
Qed.

(** The validation reads the requester, the source row and the destination
    row; with these in place it returns. *)
Lemma isValidMove_returns fr fc tr tc id this :
  board_shape (board this) →
  is_Some (players_get (players this) id) →
  0 ≤ fr < 8 → 0 ≤ tr < 8 →
  ∃ v, isValidMove fr fc tr tc id this = Returned v.
Proof.
  intros Hb [player Hplayer] Hfr Htr. unfold isValidMove. rewrite Hplayer.
  case_bool_decide; simpl; [|by eexists].
  destruct (board_get_row (board this) fr fc Hb Hfr) as [src Hsrc].
  rewrite Hsrc. simpl. destruct src as [| |piece]; [by eexists..|].
  case_bool_decide; simpl; [|by eexists].
  destruct (board_get_row (board this) tr tc Hb Htr) as [dst Hdst].
  rewrite Hdst. simpl. destruct dst as [| |?]; [by eexists| |by eexists].
  destruct (board_get_defined _ _ _ _ Hb Hdst) as [_ Htc]; [done|].
  destruct (board_get_defined _ _ _ _ Hb Hsrc) as [_ Hfc]; [done|].
  destruct ((tr + tc) `rem` 2 =? 0); [by eexists|].
  destruct (bound_to_other_piece this fr fc); [by eexists|].
  destruct ((Z.abs (tr - fr) =? 1) && (Z.abs (tc - fc) =? 1)).
  - destruct (negb (king piece) && _); [by eexists|].
    destruct (getAvailableCaptures_returns (board this) (currentPlayer this) Hb)
      as [caps ->].
    simpl. destruct (_ <? _)%nat; by eexists.
  - destruct ((Z.abs (tr - fr) =? 2) && (Z.abs (tc - fc) =? 2)) eqn:Hjump;
      [|by eexists].
    destruct (negb (king piece) && _); [by eexists|].
    apply andb_true_iff in Hjump as [Hr%Z.eqb_eq Hc%Z.eqb_eq].
    destruct (board_get_row (board this) (fr + Z.sgn (tr - fr))
                (fc + Z.sgn (tc - fc)) Hb) as [mid ->]; [lia|].
    simpl. destruct (negb _); by eexists.
Qed.

(** *** C3: promotion ends the capture sequence *)

(** C3. Every capture that lands a man on the farthest row for its colour
    (row 7 for red, row 0 for black) is carried out with [promoted = true]
    and [continueCapturing = false]: the piece on the landing square is a
    king, [mustCapture] is [false], [capturingPiece] is [null] and the turn
    goes to the opponent, whatever the new king could jump over from
    there. *)
Theorem promotion_halts_capture_chain this fr fc tr tc id p mr mc :
  reachable this →
  isValidMove fr fc tr tc id this = Returned (valid_capture mr mc) →
  board_get (board this) fr fc = Returned (occupied p) →
  king p = false →
  tr = match color p with red => 7 | black => 0 end →
  ∃ q w gs this',
    makeMove fr fc tr tc id this =
      (Returned (move_accepted (occupied q) true false w gs), this') ∧
    board_get (board this') tr tc
      = Returned (occupied (mkPiece (color p) true)) ∧
    mustCapture this' = false ∧
    capturingPiece this' = None ∧
    currentPlayer this' = opponent (currentPlayer this).
Proof.
  intros Hreach Hv Hsrc Hman Hrow.
  destruct (reachable_board_wf _ Hreach) as [Hb _].
  destruct (makeMove_valid_capture _ _ _ _ _ _ _ _ _ Hb Hv Hsrc)
    as (q & more & over & _ & _ & Hland & _ & _ & Heq).
  assert (promotes p tr = true) as Hpr.
  { unfold promotes, reaches_far_row. rewrite Hman, Hrow.
    by destruct (color p). }
  rewrite Hpr, andb_false_r in Heq.
  eexists q, _, _, _. split; [exact Heq|]. simpl.
  split; [|done].
  by apply (board_get_set_eq _ tr tc (Some (mkPiece (color p) true))
              (occupied p)).
Qed.

(** In [before_crowning] the jump onto [(7, 2)] crowns the red man and ends
    the turn although the king could go on over [(6, 3)]. *)
Lemma promotion_halts_capture_chain_witness :
  reachable before_crowning ∧
  isValidMove 5 0 7 2 "A" before_crowning = Returned (valid_capture 6 1) ∧
  board_get (board before_crowning) 5 0
    = Returned (occupied (mkPiece red false)) ∧
  (∃ q w gs this',
    makeMove 5 0 7 2 "A" before_crowning =
      (Returned (move_accepted (occupied q) true false w gs), this') ∧
    board_get (board this') 7 2 = Returned (occupied (mkPiece red true)) ∧
    mustCapture this' = false ∧
    capturingPiece this' = None ∧
    currentPlayer this' = opponent (currentPlayer before_crowning)).
Proof.
  assert (reachable before_crowning) as Hreach.
  { apply reachable_run, reachable_new. }
  split; [exact Hreach|]. split; [vm_compute; reflexivity|].
  split; [vm_compute; reflexivity|].
  apply (promotion_halts_capture_chain before_crowning 5 0 7 2 "A"
           (mkPiece red false) 6 1 Hreach);
    vm_compute; reflexivity.
Defined.

(** The king crowned there has a jump in front of it. *)
Example crowned_king_could_jump :
  getPieceCaptues (board (makeMove 5 0 7 2 "A" before_crowning).2) 7 2
  = Returned [mkCapture (mkPos 7 2) (mkPos 5 4) (mkPos 6 3)].
Proof. vm_compute. reflexivity. Qed.

(** *** C7: pieces stand on dark squares *)

(** C7. In every session that a fresh game reaches by [addPlayer],
    [removePlayer], [makeMove], [selectTurnOrder], [requestNewGame] and
    [cancelNewGameRequest] commands the board is eight rows of eight
    squares, each square is [null] or holds one piece, and every occupied
    square [(row, col)] has [(row + col) % 2 === 1]. *)
Theorem dark_square_invariant this :
  reachable this →
  length (board this) = 8%nat ∧
  Forall (λ squares : list (option Piece), length squares = 8%nat)
         (board this) ∧
  (∀ r c, 0 ≤ r < 8 → 0 ≤ c < 8 →
     ∃ square : option Piece,
       board_get (board this) r c = Returned (cell_of square)) ∧
  (∀ r c p, board_get (board this) r c = Returned (occupied p) →
     (r + c) `rem` 2 = 1).
Proof.
  intros Hreach. destruct (reachable_board_wf _ Hreach) as [Hshape Hdark].
  destruct Hshape as [Hlen Hrows]. do 2 (split; [done|]).
  split; [|done]. intros r c Hr Hc. by apply board_get_inside.
Qed.

Lemma dark_square_invariant_witness :
  reachable mid_chain ∧
  length (board mid_chain) = 8%nat ∧
  Forall (λ squares : list (option Piece), length squares = 8%nat)
         (board mid_chain) ∧
  (∀ r c, 0 ≤ r < 8 → 0 ≤ c < 8 →
     ∃ square : option Piece,
       board_get (board mid_chain) r c = Returned (cell_of square)) ∧
  (∀ r c p, board_get (board mid_chain) r c = Returned (occupied p) →
     (r + c) `rem` 2 = 1).
Proof.
  assert (reachable mid_chain) as Hreach.
  { apply reachable_run, reachable_new. }
  split; [exact Hreach|]. exact (dark_square_invariant mid_chain Hreach).
Defined.

(** *** C8: calls that are not accepted *)

(** A request from a connection that is not among the players raises, and
    so does a request whose source row is outside the board. *)
Lemma protocol_misuse_counterexample :
  reachable capture_offered ∧
  players_get (players capture_offered) "Z" = None ∧
  makeMove 3 2 5 4 "Z" capture_offered = (TypeError, capture_offered) ∧
  players_get (players capture_offered) "A" = Some (mkPlayer "Ann" red) ∧
  makeMove 8 1 7 2 "A" capture_offered = (TypeError, capture_offered).
Proof.
  split; [apply reachable_run, reachable_new|].
  by_computation.
Qed.

(** C8, amended. A [makeMove] call that is not accepted, whether it returns
    a rejection or raises, leaves the whole session as it was; and the call
    returns a result, accepted or rejected, whenever the requester is a key
    of [players] and the two row coordinates are within 0..7, for any
    integer column coordinates. *)
Theorem protocol_misuse this fr fc tr tc id :
  reachable this →
  ((∀ r, (makeMove fr fc tr tc id this).1 = Returned r → success r = false) →
   (makeMove fr fc tr tc id this).2 = this) ∧
  (is_Some (players_get (players this) id) → 0 ≤ fr < 8 → 0 ≤ tr < 8 →
   ∃ r this',
     makeMove fr fc tr tc id this = (Returned r, this') ∧
     (success r = false → this' = this)).
Proof.
  intros Hreach. destruct (reachable_board_wf _ Hreach) as [Hb _].
  split; [by apply makeMove_unaccepted_unchanged|].
  intros Hplayer Hfr Htr.
  destruct (isValidMove_returns fr fc tr tc id this Hb Hplayer Hfr Htr)
    as [v Hv].
  destruct (makeMove_cases fr fc tr tc id this Hb)
    as [[Hthrow _]|[(reason & _ & Heq)|(v' & cp & pr & ct & w & gs & this' & _ & _ & Heq)]].
  - congruence.
  - by exists (move_rejected reason), this.
  - by exists (move_accepted cp pr ct w gs), this'.
Qed.

(** In [capture_offered] the forward step of the red man on [(3, 2)], with
    a column far outside the board as its destination, is rejected and
    changes nothing. *)
Lemma protocol_misuse_witness :
  reachable capture_offered ∧
  is_Some (players_get (players capture_offered) "A") ∧
  (∀ r, (makeMove 3 2 4 99 "A" capture_offered).1 = Returned r →
        success r = false) ∧
  (makeMove 3 2 4 99 "A" capture_offered).2 = capture_offered ∧
  (∃ r this',
     makeMove 3 2 4 99 "A" capture_offered = (Returned r, this') ∧
     (success r = false → this' = capture_offered)).
Proof.
  assert (reachable capture_offered) as Hreach.
  { apply reachable_run, reachable_new. }
  assert (is_Some (players_get (players capture_offered) "A")) as Hplayer.
  { vm_compute. by eexists. }
  assert (∀ r, (makeMove 3 2 4 99 "A" capture_offered).1 = Returned r →
               success r = false) as Hrejected.
  { intros r. vm_compute. by intros [= <-]. }
  destruct (protocol_misuse capture_offered 3 2 4 99 "A" Hreach)
    as [Hunchanged Hreturns].
  split; [exact Hreach|]. split; [exact Hplayer|].
  split; [exact Hrejected|]. split; [exact (Hunchanged Hrejected)|].
  apply (Hreturns Hplayer); lia.
Defined.

(** *** C1: mandatory capture *)

Lemma rem_shift a k :
  0 ≤ a → 0 ≤ a + 2 * k → a `rem` 2 = 1 → (a + 2 * k) `rem` 2 ≠ 0.
Proof.
  intros. replace (a + 2 * k) with (a + k * 2) by lia.
  rewrite Z.rem_add by nia. lia.
Qed.

Lemma step_parity fr fc tr tc :
  0 ≤ fr → 0 ≤ fc → 0 ≤ tr → 0 ≤ tc →
  Z.abs (tr - fr) = 1 → Z.abs (tc - fc) = 1 →
  (fr + fc) `rem` 2 = 1 → (tr + tc) `rem` 2 ≠ 0.
Proof.
  intros ???? Hr Hc Hodd.
  assert (∃ k, tr + tc = fr + fc + 2 * k) as [k Hk].
  { assert (tr = fr + 1 ∨ tr = fr - 1) as [-> | ->] by lia;
      assert (tc = fc + 1 ∨ tc = fc - 1) as [-> | ->] by lia;
      [exists 1|exists 0|exists 0|exists (-1)]; lia. }
  rewrite Hk. apply rem_shift; lia.
Qed.

(** A jump that the enumeration lists passes the validation, unless the
    player is bound to continue with another piece. *)
Lemma isValidMove_capture this id player p r c cap :
  board_wf (board this) →
  players_get (players this) id = Some player →
  player_color player = currentPlayer this →
  board_get (board this) r c = Returned (occupied p) →
  color p = currentPlayer this →
  capture_from (board this) p r c cap →
  bound_to_other_piece this r c = false →
  isValidMove r c (row (to cap)) (col (to cap)) id this
  = Returned (valid_capture (row (captured cap)) (col (captured cap))).
Proof.
  intros [Hb Hdark] Hplayer Hturn Hsrc Hown
    (dr & dc & q & w & Hd & -> & Hin & Hmid & Hq & Hland & Hw) Hbound.
  simpl. apply in_bounds_spec in Hin.
  destruct (board_get_defined _ _ _ _ Hb Hsrc) as [Hr Hc]; [done|].
  assert (w = null) as ->.
  { destruct w as [| |?]; [|done..].
    exfalso. apply (board_get_undefined _ _ _ Hb Hland). lia. }
  pose proof (Hdark _ _ _ Hsrc) as Hodd.
  assert ((r + 2 * dr + (c + 2 * dc)) `rem` 2 ≠ 0) as Hodd'.
  { replace (r + 2 * dr + (c + 2 * dc)) with (r + c + 2 * (dr + dc)) by lia.
    apply rem_shift; lia. }
  pose proof (directions_unit _ _ _ Hd) as [Hdr Hdc].
  assert (king p = false → Z.sgn (r + 2 * dr - r) = expectedDirection p).
  { intros Hman. rewrite <- (directions_forward _ _ _ Hman Hd). lia. }
  unfold isValidMove. rewrite Hplayer, Hturn, bool_decide_eq_true_2 by done.
  simpl. rewrite Hsrc. simpl. rewrite bool_decide_eq_true_2 by done.
  simpl. rewrite Hland. simpl.
  destruct (Z.eqb_spec ((r + 2 * dr + (c + 2 * dc)) `rem` 2) 0); [done|].
  rewrite Hbound.
  replace (Z.abs (r + 2 * dr - r)) with 2 by lia.
  replace (Z.abs (c + 2 * dc - c)) with 2 by lia. simpl.
  replace (Z.sgn (c + 2 * dc - c)) with dc by lia.
  destruct (king p) eqn:Hking; simpl.
  - replace (Z.sgn (r + 2 * dr - r)) with dr by lia.
    rewrite Hmid. simpl. rewrite <- Hown, bool_decide_eq_false_2 by done.
    done.
  - rewrite (proj2 (Z.eqb_eq _ _)) by auto. simpl.
    replace (Z.sgn (r + 2 * dr - r)) with dr by lia.
    rewrite Hmid. simpl. rewrite <- Hown, bool_decide_eq_false_2 by done.
    done.
Qed.


(** A step that passes the checks made before the capture check is refused
    for the capture that is available. *)
Lemma isValidMove_must_capture this id player piece fr fc tr tc cs :
  players_get (players this) id = Some player →
  player_color player = currentPlayer this →
  board_get (board this) fr fc = Returned (occupied piece) →
  color piece = currentPlayer this →
  board_get (board this) tr tc = Returned null →
  (tr + tc) `rem` 2 ≠ 0 →
  bound_to_other_piece this fr fc = false →
  Z.abs (tr - fr) = 1 → Z.abs (tc - fc) = 1 →
  (king piece = false → tr - fr = expectedDirection piece) →
  getAvailableCaptures (board this) (currentPlayer this) = Returned cs →
  cs ≠ [] →
  isValidMove fr fc tr tc id this
  = Returned (invalid "Must capture when possible").
Proof.
  intros Hplayer Hturn Hsrc Hown Hdst Hodd Hbound Hr Hc Hdir Hcs Hne.
  unfold isValidMove. rewrite Hplayer, Hturn, bool_decide_eq_true_2 by done.
  simpl. rewrite Hsrc. simpl. rewrite bool_decide_eq_true_2 by done.
  simpl. rewrite Hdst. simpl.
  destruct (Z.eqb_spec ((tr + tc) `rem` 2) 0); [done|].
  rewrite Hbound, Hr, Hc. simpl.
  assert (negb (king piece) && negb (tr - fr =? expectedDirection piece)
          = false) as ->.
  { destruct (king piece); [done|]. simpl.
    by rewrite (proj2 (Z.eqb_eq _ _)) by auto. }
  rewrite Hcs. simpl. by destruct cs.
Qed.




(** *** C2: a capture sequence binds the player to one piece *)

(** What an accepted call has done. *)
Lemma makeMove_accepted_inv fr fc tr tc id this cp pr ct w gs this' :
  board_shape (board this) →
  makeMove fr fc tr tc id this
    = (Returned (move_accepted cp pr ct w gs), this') →
  ∃ p b over,
    board_get (board this) fr fc = Returned (occupied p) ∧
    color p = currentPlayer this ∧
    pr = promotes p tr ∧
    checkGameOver (moved this (crowned b tr tc p pr) ct (mkPos tr tc) None)
      = Returned over ∧
    this' = moved this (crowned b tr tc p pr) ct (mkPos tr tc) over ∧
    w = winner this' ∧ gs = gameState this' ∧
    board_get b tr tc = Returned (occupied p) ∧
    board_shape b ∧
    ((isValidMove fr fc tr tc id this = Returned valid_move ∧
      cp = null ∧ ct = false ∧ b = relocate (board this) fr fc tr tc p)
     ∨
     (∃ mr mc q more,
        isValidMove fr fc tr tc id this = Returned (valid_capture mr mc) ∧
        cp = occupied q ∧
        b = board_set (relocate (board this) fr fc tr tc p) mr mc None ∧
        getPieceCaptues b tr tc = Returned more ∧
        ct = (0 <? length more)%nat && negb pr)).
Proof.
  intros Hb Heq.
  destruct (makeMove_accepted_valid _ _ _ _ _ _ _ _ Heq eq_refl)
    as (v & Hv & Hvalid).
  destruct (isValidMove_valid_inv _ _ _ _ _ _ _ Hv Hvalid)
    as (player & p & _ & _ & Hsrc & Hown & Hdst & _).
  destruct v as [?| |mr mc]; [done| |].
  - destruct (makeMove_valid_move _ _ _ _ _ _ _ Hb Hv Hsrc)
      as (over & Hover & Heq').
    rewrite Heq' in Heq. simplify_eq.
    exists p, (relocate (board this) fr fc tr tc p), over.
    do 7 (split; [done|]).
    split; [by eapply relocate_landing|].
    split; [by apply relocate_shape|]. by left.
  - destruct (makeMove_valid_capture _ _ _ _ _ _ _ _ _ Hb Hv Hsrc)
      as (q & more & over & _ & _ & Hland & Hmore & Hover & Heq').
    rewrite Heq' in Heq. simplify_eq.
    exists p, (board_set (relocate (board this) fr fc tr tc p) mr mc None),
      over.
    do 7 (split; [done|]). split; [done|].
    split; [by apply board_set_shape, relocate_shape|].
    right. by exists mr, mc, q, more.
Qed.





(** ** What the move enumeration returns *)

Lemma getValidMovesForPiece_spec b r c p ms :
  board_get b r c = Returned (occupied p) →
  getValidMovesForPiece b r c = Returned ms →
  ∀ m, m ∈ ms ↔
       step_from b p r c m ∨
       ∃ cap, capture_from b p r c cap ∧ m = capture_move cap.
Proof.
  intros Hget. unfold getValidMovesForPiece. rewrite Hget. simpl.
  intros Hrun m.
  rewrite (for_of_elem_of
    (λ '(dr, dc) m,
       (∃ w, m = mkMove (mkPos r c) (mkPos (r + dr) (c + dc)) type_move None ∧
             in_bounds (r + dr) (c + dc) = true ∧
             board_get b (r + dr) (c + dc) = Returned w ∧ falsy w = true) ∨
       (∃ q w, m = capture_move
                     (mkCapture (mkPos r c) (mkPos (r + 2 * dr) (c + 2 * dc))
                                (mkPos (r + dr) (c + dc))) ∧
               in_bounds (r + 2 * dr) (c + 2 * dc) = true ∧
               board_get b (r + dr) (c + dc) = Returned (occupied q) ∧
               color q ≠ color p ∧
               board_get b (r + 2 * dr) (c + 2 * dc) = Returned w ∧
               falsy w = true)) _ _ _ Hrun).
  - split.
    + intros ([dr dc] & Hd & [(w & ? & ? & ? & ?)|(q & w & ? & ? & ? & ? & ? & ?)]).
      * left. by exists dr, dc, w.
      * right. eexists. split; [|done]. by exists dr, dc, q, w.
    + intros [(dr & dc & w & Hd & ? & ? & ? & ?)|(cap & (dr & dc & q & w & Hd & ? & ? & ? & ? & ? & ?) & ?)];
        exists (dr, dc); (split; [done|]).
      * left. by exists w.
      * right. exists q, w. by simplify_eq.
  - clear Hrun m. intros [dr dc] s s' _ Hbody.
    set (stepped := if in_bounds (r + dr) (c + dc) then
           target ← board_get b (r + dr) (c + dc);
           if falsy target
           then Returned (s ++
                  [mkMove (mkPos r c) (mkPos (r + dr) (c + dc)) type_move None])
           else Returned s
         else Returned s) in Hbody.
    destruct stepped as [s1|] eqn:Hstep; [|done]. simpl in Hbody.
    assert (∃ xs, s1 = s ++ xs ∧ ∀ x, x ∈ xs ↔
      ∃ w, x = mkMove (mkPos r c) (mkPos (r + dr) (c + dc)) type_move None ∧
           in_bounds (r + dr) (c + dc) = true ∧
           board_get b (r + dr) (c + dc) = Returned w ∧ falsy w = true)
      as (xs & -> & Hxs).
    { subst stepped.
      destruct (in_bounds (r + dr) (c + dc)) eqn:Hin.
      - destruct (board_get b (r + dr) (c + dc)) as [w|] eqn:Hw; [|done].
        simpl in Hstep. destruct (falsy w) eqn:Hf; simplify_eq.
        + eexists. split; [done|]. intros x.
          rewrite list_elem_of_singleton. split; [by exists w|].
          by intros (? & ? & _).
        + exists []. split; [by rewrite app_nil_r|]. intros x.
          rewrite elem_of_nil. split; [done|].
          intros (w' & _ & _ & ? & ?). congruence.
      - simplify_eq. exists []. split; [by rewrite app_nil_r|]. intros x.
        rewrite elem_of_nil. split; [done|]. by intros (? & _ & ? & _). }
    assert (∃ ys, s' = (s ++ xs) ++ ys ∧ ∀ x, x ∈ ys ↔
      ∃ q w, x = capture_move
                   (mkCapture (mkPos r c) (mkPos (r + 2 * dr) (c + 2 * dc))
                              (mkPos (r + dr) (c + dc))) ∧
             in_bounds (r + 2 * dr) (c + 2 * dc) = true ∧
             board_get b (r + dr) (c + dc) = Returned (occupied q) ∧
             color q ≠ color p ∧
             board_get b (r + 2 * dr) (c + 2 * dc) = Returned w ∧
             falsy w = true)
      as (ys & -> & Hys).
    { destruct (in_bounds (r + 2 * dr) (c + 2 * dc)) eqn:Hin.
      - destruct (board_get b (r + dr) (c + dc)) as [v|] eqn:Hv; [|done].
        destruct (board_get b (r + 2 * dr) (c + 2 * dc)) as [w|] eqn:Hw;
          [|done].
        simpl in Hbody.
        destruct (opposing v (color p) && falsy w) eqn:Hcond; simplify_eq.
        + apply andb_true_iff in Hcond as [(q & -> & Hq)%opposing_spec Hf].
          eexists. split; [done|]. intros x.
          rewrite list_elem_of_singleton. split; [by exists q, w|].
          by intros (? & ? & ? & _).
        + exists []. split; [by rewrite app_nil_r|]. intros x.
          rewrite elem_of_nil. split; [done|].
          intros (q & w' & _ & _ & ? & Hq & ? & Hf). simplify_eq.
          apply andb_false_iff in Hcond as [Hcond|Hcond]; [|congruence].
          assert (opposing (occupied q) (color p) = true); [|congruence].
          apply opposing_spec. by exists q.
      - simplify_eq. exists []. split; [by rewrite app_nil_r|]. intros x.
        rewrite elem_of_nil. split; [done|].
        by intros (? & ? & _ & ? & _). }
    exists (xs ++ ys). split; [by rewrite app_assoc|]. intros x.
    rewrite elem_of_app, Hxs, Hys. done.
Qed.

(** The moves of a colour are the moves of its pieces. *)
Lemma getValidMovesForPlayer_spec b c ms :
  getValidMovesForPlayer b c = Returned ms →
  ∀ m, m ∈ ms ↔
       ∃ r col p pieceMoves,
         0 ≤ r < 8 ∧ 0 ≤ col < 8 ∧
         board_get b r col = Returned (occupied p) ∧ color p = c ∧
         getValidMovesForPiece b r col = Returned pieceMoves ∧
         m ∈ pieceMoves.
Proof.
  unfold getValidMovesForPlayer. intros Hrun m.
  rewrite (for_of_elem_of
    (λ r m, ∃ col, col ∈ seqZ 0 8 ∧ ∃ p pieceMoves,
       board_get b r col = Returned (occupied p) ∧
       color p = c ∧ getValidMovesForPiece b r col = Returned pieceMoves ∧
       m ∈ pieceMoves) _ _ _ Hrun).
  - split.
    + intros (r & Hr%elem_of_seqZ & col & Hcol%elem_of_seqZ & p & pm &
              ? & ? & ? & ?).
      exists r, col, p, pm. split_all; (lia || done).
    + intros (r & col & p & pm & ? & ? & ? & ? & ? & ?).
      exists r. split; [apply elem_of_seqZ; lia|].
      exists col. split; [apply elem_of_seqZ; lia|]. by exists p, pm.
  - clear Hrun m. intros r s s' _ Hrow.
    apply (for_of_appends _ _ _ _ _ Hrow).
    intros col s1 s2 _ Hbody.
    destruct (board_get b r col) as [v|] eqn:Hv; [|done]. simpl in Hbody.
    destruct (belongs_to v c) eqn:Hmine.
    + apply belongs_to_spec in Hmine as (p & -> & Hp).
      destruct (getValidMovesForPiece b r col) as [pm|] eqn:Hpm; [|done].
      simpl in Hbody. simplify_eq. exists pm. split; [done|]. intros x.
      split; [by exists p, pm|]. intros (p' & pm' & ? & ? & ? & ?).
      by simplify_eq.
    + simplify_eq. exists []. split; [by rewrite app_nil_r|]. intros x.
      rewrite elem_of_nil. split; [done|].
      intros (p' & pm' & ? & ? & ? & ?). simplify_eq.
      assert (belongs_to (occupied p') (color p') = true); [|congruence].
      apply belongs_to_spec. by exists p'.
Qed.

(** A colour has no move exactly when none of its pieces can step or
    jump. *)
Lemma getValidMovesForPlayer_nil b c ms :
  board_shape b →
  getValidMovesForPlayer b c = Returned ms →
  ms = [] ↔
  ∀ r col p, board_get b r col = Returned (occupied p) → color p = c →
    (∀ m, ¬ step_from b p r col m) ∧ (∀ cap, ¬ capture_from b p r col cap).
Proof.
  intros Hb Hms. pose proof (getValidMovesForPlayer_spec _ _ _ Hms) as Hspec.
  split.
  - intros -> r col p Hget Hp.
    destruct (board_get_defined _ _ _ _ Hb Hget) as [Hr Hc]; [done|].
    destruct (getValidMovesForPiece_returns _ _ _ _ Hb Hget) as [pm Hpm].
    pose proof (getValidMovesForPiece_spec _ _ _ _ _ Hget Hpm) as Hpiece.
    assert (∀ m, m ∉ pm) as Hnone.
    { intros m Hm. apply (elem_of_nil m), Hspec. by exists r, col, p, pm. }
    split.
    + intros m Hm. apply (Hnone m), Hpiece. by left.
    + intros cap Hcap. apply (Hnone (capture_move cap)), Hpiece.
      right. by exists cap.
  - intros Hnone. destruct ms as [|m ms]; [done|]. exfalso.
    destruct (proj1 (Hspec m)) as (r & col & p & pm & _ & _ & Hget & Hp & Hpm & Hm);
      [by left|].
    destruct (Hnone r col p Hget Hp) as [Hstep Hjump].
    destruct (proj1 (getValidMovesForPiece_spec _ _ _ _ _ Hget Hpm m) Hm)
      as [?|(cap & ? & _)]; [by eapply Hstep|by eapply Hjump].
Qed.

(** *** C4: win detection *)

(** A loop that never lowers a measure of its accumulator and raises it in
    one iteration raises it overall. *)
Lemma for_of_grows {A S} (m : S → nat) (l : list A)
    (body : A → S → Outcome S) acc r a0 :
  (∀ a s s', a ∈ l → body a s = Returned s' → (m s ≤ m s')%nat) →
  a0 ∈ l →
  (∀ s s', body a0 s = Returned s' → (m s < m s')%nat) →
  for_of l body acc = Returned r → (m acc < m r)%nat.
Proof.
  intros Hmono Hin Hhit. revert acc.
  induction l as [|a l IH]; intros acc Hrun; [by apply elem_of_nil in Hin|].
  simpl in Hrun. destruct (body a acc) as [acc'|] eqn:Hstep; [|done].
  assert (m acc ≤ m acc')%nat by (eapply Hmono; [by left|done]).
  apply elem_of_cons in Hin as [->|Hin].
  - apply Hhit in Hstep.
    assert (m acc' ≤ m r)%nat; [|lia].
    revert Hrun. apply (for_of_invariant (λ s, m acc' ≤ m s)%nat); [done|].
    intros a' s s' Ha' Hs Hbody.
    etrans; [exact Hs|]. eapply Hmono; [by right|done].
  - assert (m acc' < m r)%nat; [|lia].
    apply IH; [|done..]. intros a' s s' Ha'. apply Hmono. by right.
Qed.

Lemma for_of_monotone {A S} (m : S → nat) (l : list A)
    (body : A → S → Outcome S) acc r :
  (∀ a s s', a ∈ l → body a s = Returned s' → (m s ≤ m s')%nat) →
  for_of l body acc = Returned r → (m acc ≤ m r)%nat.
Proof.
  intros Hmono. apply (for_of_invariant (λ s, m acc ≤ m s)%nat); [done|].
  intros a s s' Ha Hs Hbody. etrans; [exact Hs|]. by eapply Hmono.
Qed.

(** A colour with a piece on the board counts at least one piece. *)
Lemma countPieces_positive b c r col p n :
  0 ≤ r < 8 → 0 ≤ col < 8 →
  board_get b r col = Returned (occupied p) → color p = c →
  countPieces b c = Returned n → (0 < n)%nat.
Proof.
  intros Hr Hc Hget Hp. unfold countPieces.
  assert (∀ row s s',
    for_of (seqZ 0 8) (λ col count,
      v ← board_get b row col;
      if belongs_to v c then Returned (S count) else Returned count) s
    = Returned s' → (s ≤ s')%nat) as Hrow.
  { intros row s s'. apply (for_of_monotone id).
    intros col' s1 s2 _. destruct (board_get b row col'); [|done]. simpl.
    destruct (belongs_to _ _); intros [= <-]; unfold id; lia. }
  apply (for_of_grows id _ _ 0%nat n r).
  - intros row s s' _. by apply (Hrow row).
  - apply elem_of_seqZ. lia.
  - intros s s'. apply (for_of_grows id _ _ s s' col).
    + intros col' s1 s2 _. destruct (board_get b r col'); [|done]. simpl.
      destruct (belongs_to _ _); intros [= <-]; unfold id; lia.
    + apply elem_of_seqZ. lia.
    + intros s1 s2. rewrite Hget. simpl.
      rewrite bool_decide_eq_true_2 by done. intros [= <-]. unfold id. lia.
Qed.

(** C4. After every accepted move, with the pieces counted on the board the
    move leaves and the moves of [getValidMovesForPlayer] taken for the
    colour that is then to move, which are empty exactly when no piece of
    that colour has a step or a capture: if red has no piece, black is the
    winner; if black has no piece, red is the winner; otherwise, if the
    colour to move has no move, the other colour is the winner; in these
    cases [gameState] is ['finished'] and [winner] is recorded; otherwise
    [makeMove] sets neither [winner] nor [gameState]. The result carries the
    session's [winner] and [gameState]; a winner is a colour, there is no
    draw. *)
Theorem win_detection this fr fc tr tc id cp pr ct w gs this' :
  reachable this →
  makeMove fr fc tr tc id this
    = (Returned (move_accepted cp pr ct w gs), this') →
  ∃ redPieces blackPieces validMoves,
    countPieces (board this') red = Returned redPieces ∧
    countPieces (board this') black = Returned blackPieces ∧
    getValidMovesForPlayer (board this') (currentPlayer this')
      = Returned validMoves ∧
    (validMoves = [] ↔
     ∀ r c p,
       board_get (board this') r c = Returned (occupied p) →
       color p = currentPlayer this' →
       (∀ m, ¬ step_from (board this') p r c m) ∧
       (∀ cap, ¬ capture_from (board this') p r c cap)) ∧
    (redPieces = 0%nat →
     winner this' = Some black ∧ gameState this' = finished) ∧
    (blackPieces = 0%nat →
     winner this' = Some red ∧ gameState this' = finished) ∧
    (redPieces ≠ 0%nat → blackPieces ≠ 0%nat → validMoves = [] →
     winner this' = Some (opponent (currentPlayer this')) ∧
     gameState this' = finished) ∧
    (redPieces ≠ 0%nat → blackPieces ≠ 0%nat → validMoves ≠ [] →
     winner this' = winner this ∧ gameState this' = gameState this) ∧
    w = winner this' ∧ gs = gameState this'.
Proof.
  intros Hreach Heq.
  destruct (reachable_board_wf _ Hreach) as [Hb _].
  destruct (makeMove_accepted_inv _ _ _ _ _ _ _ _ _ _ _ _ Hb Heq)
    as (p & b & over & Hsrc & Hown & Hpr & Hover & Hthis' & Hw & Hgs & Hland &
        Hshape & _).
  set (b' := crowned b tr tc p pr) in *.
  assert (board_shape b') as Hb' by (by apply crowned_shape).
  assert (∃ p', board_get b' tr tc = Returned (occupied p') ∧
                color p' = color p) as (p' & Hland' & Hcolor).
  { unfold b', crowned. destruct pr; [|by exists p].
    exists (mkPiece (color p) true). split; [|done].
    by apply (board_get_set_eq _ tr tc (Some (mkPiece (color p) true))
                (occupied p)). }
  destruct (board_get_defined _ _ _ _ Hb' Hland') as [Htr Htc]; [done|].
  destruct (countPieces_returns b' red Hb') as [nr Hnr].
  destruct (countPieces_returns b' black Hb') as [nb Hnb].
  set (mover := if ct then currentPlayer this
                else opponent (currentPlayer this)) in *.
  destruct (getValidMovesForPlayer_returns b' mover Hb') as [ms Hms].
  unfold checkGameOver in Hover. simpl in Hover.
  fold mover in Hover. rewrite Hnr, Hnb, Hms in Hover. simpl in Hover.
  assert (nr = 0%nat → nb = 0%nat → False) as Hboth.
  { intros -> ->.
    destruct (color p') eqn:Hc.
    - pose proof (countPieces_positive _ _ _ _ _ _ Htr Htc Hland' Hc Hnr). lia.
    - pose proof (countPieces_positive _ _ _ _ _ _ Htr Htc Hland' Hc Hnb). lia. }
  exists nr, nb, ms. rewrite Hthis'. simpl. fold mover.
  do 3 (split; [done|]).
  split; [by apply getValidMovesForPlayer_nil|].
  destruct nr as [|nr]; simpl in Hover;
    [|destruct nb as [|nb]; simpl in Hover;
      [|destruct ms as [|mv ms]; simpl in Hover]];
    simplify_eq; repeat first [split | intro]; try done;
    exfalso; by apply Hboth.
Qed.

(** Red takes the last black piece: black counts no piece, red is the
    winner and the game is finished. *)
Lemma win_detection_witness :
  reachable before_last_capture ∧
  makeMove 4 7 6 5 "A" before_last_capture
    = (Returned (move_accepted (occupied (mkPiece black false)) false false
                   (Some red) finished), last_capture) ∧
  countPieces (board last_capture) black = Returned 0%nat ∧
  winner last_capture = Some red ∧
  gameState last_capture = finished.
Proof.
  assert (reachable before_last_capture) as Hreach.
  { apply reachable_run, reachable_new. }
  assert (makeMove 4 7 6 5 "A" before_last_capture
          = (Returned (move_accepted (occupied (mkPiece black false)) false
                         false (Some red) finished), last_capture)) as Heq
    by (vm_compute; reflexivity).
  assert (countPieces (board last_capture) black = Returned 0%nat) as Hnone
    by (vm_compute; reflexivity).
  destruct (win_detection _ _ _ _ _ _ _ _ _ _ _ _ Hreach Heq)
    as (nr & nb & ms & _ & Hnb & _ & _ & _ & Hblack & _).
  assert (nb = 0%nat) as Hzero by congruence.
  destruct (Hblack Hzero) as [Hwinner Hstate].
  split_all; assumption.
Defined.

(** Red's capture leaves black with one man, which cannot move: red is the
    winner although black has a piece. *)
Example win_by_blockade :
  makeMove 7 4 5 6 "A" before_blockade
    = (Returned (move_accepted (occupied (mkPiece black false)) false false
                   (Some red) finished), blockade) ∧
  currentPlayer blockade = black ∧
  countPieces (board blockade) black = Returned 1%nat ∧
  getValidMovesForPlayer (board blockade) black = Returned [].
Proof. by_computation. Qed.

(** *** C5: a king's capture on a given board *)

Lemma king_and_man_shape kr kc mr mc : board_shape (king_and_man kr kc mr mc).
Proof.
  do 2 apply board_set_shape. split; [done|]. by apply Forall_replicate.
Qed.

(** On the board of the scenario the move from [(5, 5)] to [(3, 3)] is
    refused, [(3, 3)] being a light square: the black man stays on
    [(4, 4)] and the king on [(5, 5)]. *)
Lemma king_capture_scenario_counterexample :
  getPieceCaptues (board light_square_scenario) 5 5
    = Returned [mkCapture (mkPos 5 5) (mkPos 3 3) (mkPos 4 4)] ∧
  makeMove 5 5 3 3 "A" light_square_scenario
    = (Returned (move_rejected "Can only move to dark squares"),
       light_square_scenario) ∧
  board_get (board light_square_scenario) 4 4
    = Returned (occupied (mkPiece black false)) ∧
  board_get (board light_square_scenario) 5 5
    = Returned (occupied (mkPiece red true)) ∧
  board_get (board light_square_scenario) 3 3 = Returned null.
Proof. by_computation. Qed.

(** C5, amended. On the board that is empty except for a red king on
    [(5, 5)] and a black man on [(4, 4)] the capture enumeration for
    [(5, 5)] returns exactly the capture from [(5, 5)] over [(4, 4)] to
    [(3, 3)]; the squares of this board are light, and [makeMove] from
    [(5, 5)] to [(3, 3)] by the red player on their turn is rejected with
    "Can only move to dark squares" and changes nothing. On the same
    position on dark squares, a red king on [(5, 4)] and a black man on
    [(4, 3)], the enumeration for [(5, 4)] returns exactly the capture over
    [(4, 3)] to [(3, 2)], and [makeMove] from [(5, 4)] to [(3, 2)] by the
    red player on their turn, with no capture sequence pending, removes the
    piece on [(4, 3)] and puts the king on [(3, 2)]. *)
Theorem king_capture_scenario this id player :
  players_get (players this) id = Some player →
  player_color player = red →
  currentPlayer this = red →
  (board this = king_and_man 5 5 4 4 →
   getPieceCaptues (board this) 5 5
     = Returned [mkCapture (mkPos 5 5) (mkPos 3 3) (mkPos 4 4)] ∧
   makeMove 5 5 3 3 id this
     = (Returned (move_rejected "Can only move to dark squares"), this)) ∧
  (board this = king_and_man 5 4 4 3 → mustCapture this = false →
   getPieceCaptues (board this) 5 4
     = Returned [mkCapture (mkPos 5 4) (mkPos 3 2) (mkPos 4 3)] ∧
   ∃ this',
     makeMove 5 4 3 2 id this
       = (Returned (move_accepted (occupied (mkPiece black false)) false false
                      (Some red) finished), this') ∧
     board_get (board this') 4 3 = Returned null ∧
     board_get (board this') 5 4 = Returned null ∧
     board_get (board this') 3 2 = Returned (occupied (mkPiece red true))).
Proof.
  intros Hplayer Hcolor Hturn. split.
  - intros Hboard. split; [rewrite Hboard; vm_compute; reflexivity|].
    apply makeMove_invalid. unfold isValidMove.
    rewrite Hplayer, Hcolor, Hturn, Hboard. vm_compute. reflexivity.
  - intros Hboard Hfree. split; [rewrite Hboard; vm_compute; reflexivity|].
    assert (board_shape (board this)) as Hb.
    { rewrite Hboard. apply king_and_man_shape. }
    assert (isValidMove 5 4 3 2 id this = Returned (valid_capture 4 3)) as Hv.
    { unfold isValidMove, bound_to_other_piece.
      rewrite Hplayer, Hcolor, Hturn, Hboard, Hfree. vm_compute. reflexivity. }
    assert (board_get (board this) 5 4 = Returned (occupied (mkPiece red true)))
      as Hsrc by (rewrite Hboard; vm_compute; reflexivity).
    destruct (makeMove_valid_capture _ _ _ _ _ _ _ _ _ Hb Hv Hsrc)
      as (q & more & over & Hmid & _ & _ & Hmore & Hover & Heq).
    rewrite Hboard in Hmid, Hmore, Hover, Heq.
    assert (q = mkPiece black false) as ->.
    { vm_compute in Hmid. congruence. }
    assert (more = []) as ->.
    { vm_compute in Hmore. congruence. }
    assert (over = Some red) as ->.
    { unfold checkGameOver, moved in Hover. simpl in Hover. congruence. }
    eexists. split; [rewrite Heq; reflexivity|]. simpl. by_computation.
Qed.

Lemma king_capture_scenario_witness :
  players_get (players light_square_scenario) "A"
    = Some (mkPlayer "Ann" red) ∧
  currentPlayer light_square_scenario = red ∧
  board light_square_scenario = king_and_man 5 5 4 4 ∧
  makeMove 5 5 3 3 "A" light_square_scenario
    = (Returned (move_rejected "Can only move to dark squares"),
       light_square_scenario) ∧
  players_get (players dark_square_scenario) "A" = Some (mkPlayer "Ann" red) ∧
  currentPlayer dark_square_scenario = red ∧
  board dark_square_scenario = king_and_man 5 4 4 3 ∧
  mustCapture dark_square_scenario = false ∧
  getPieceCaptues (board dark_square_scenario) 5 4
    = Returned [mkCapture (mkPos 5 4) (mkPos 3 2) (mkPos 4 3)] ∧
  (∃ this',
     makeMove 5 4 3 2 "A" dark_square_scenario
       = (Returned (move_accepted (occupied (mkPiece black false)) false false
                      (Some red) finished), this') ∧
     board_get (board this') 4 3 = Returned null ∧
     board_get (board this') 5 4 = Returned null ∧
     board_get (board this') 3 2 = Returned (occupied (mkPiece red true))).
Proof.
  destruct (king_capture_scenario light_square_scenario "A"
              (mkPlayer "Ann" red) eq_refl eq_refl eq_refl) as [Hlight _].
  destruct (king_capture_scenario dark_square_scenario "A"
              (mkPlayer "Ann" red) eq_refl eq_refl eq_refl) as [_ Hdark].
  do 3 (split; [reflexivity|]). split; [exact (proj2 (Hlight eq_refl))|].
  do 4 (split; [reflexivity|]). exact (Hdark eq_refl eq_refl).
Defined.

(** *** C6 and C10: new games by consent *)

(** How [requestNewGame] branches. *)
Lemma requestNewGame_unfold id this :
  let this1 :=
    set_newGameRequests (newGameRequests this ∪ {[id]}) this in
  requestNewGame id this =
    if (length (players this) =? 2)%nat &&
       (size (newGameRequests this ∪ {[id]}) =? 2)%nat
    then (Returned approved_both_agreed, (resetGame this1).2)
    else if (length (players this) =? 1)%nat
    then (Returned approved_single_player, (resetGame this1).2)
    else (Returned waiting_for_other, this1).
Proof.
  intros this1. unfold requestNewGame.
  rewrite bind_assign, !bind_read_pure. fold this1.
  change (players this1) with (players this).
  change (newGameRequests this1) with (newGameRequests this ∪ {[id]}).
  destruct (_ && _); [apply reset_then|].
  destruct (_ =? 1)%nat; [apply reset_then|]. done.
Qed.

Lemma resetGame_reset this : (resetGame this).2 = reset this.
Proof.
  unfold resetGame, reset. rewrite bind_assign, bind_read_pure.
  change (players (set_newGameRequests _ _)) with (players this).
  destruct (_ =? 2)%nat; [rewrite bind_assign|]; done.
Qed.

Lemma set_newGameRequests_id this :
  set_newGameRequests (newGameRequests this) this = this.
Proof. by destruct this. Qed.



Lemma repeated_new_game_request_counterexample :
  reachable pending_before_joining ∧
  (requestNewGame "A" (new_CheckersGame "ROOM")).1
    = Returned waiting_for_other ∧
  length (players pending_before_joining) = 2%nat ∧
  elements (newGameRequests pending_before_joining) = ["A"; "B"] ∧
  (requestNewGame "A" pending_before_joining).1
    = Returned approved_both_agreed ∧
  elements (newGameRequests (requestNewGame "A" pending_before_joining).2)
    = [] ∧
  gameState pending_before_joining = turn_selection ∧
  waitingForTurnOrderSelection
    (selectTurnOrder "A" "self" pending_before_joining).2 = false ∧
  waitingForTurnOrderSelection
    (requestNewGame "A"
       (selectTurnOrder "A" "self" pending_before_joining).2).2 = true.
Proof.
  split; [apply reachable_run, reachable_new|]. by_computation.
Qed.

(** C10, amended. In a session with exactly two players, a [requestNewGame]
    call of a connection that is already in the set of requests waits for
    the other player and leaves the whole session as it was, provided the
    set does not hold two entries; in particular, when the requester is the
    only one in the set, any number of repeated requests leaves the session
    as it was and resets nothing. *)
Theorem repeated_new_game_request this p :
  length (players this) = 2%nat →
  p ∈ newGameRequests this →
  (size (newGameRequests this) ≠ 2%nat →
   requestNewGame p this = (Returned waiting_for_other, this)) ∧
  (newGameRequests this = {[p]} →
   ∀ n, run (replicate n (RequestNewGame p)) this = this).
Proof.
  intros Htwo Hin.
  assert (size (newGameRequests this) ≠ 2%nat →
          requestNewGame p this = (Returned waiting_for_other, this)) as Hwait.
  { intros Hsize. rewrite requestNewGame_unfold, Htwo.
    assert (newGameRequests this ∪ {[p]} = newGameRequests this) as ->.
    { rewrite (comm_L (∪)). apply subseteq_union_1_L.
      by apply singleton_subseteq_l. }
    rewrite set_newGameRequests_id.
    destruct (Nat.eqb_spec (size (newGameRequests this)) 2); done. }
  split; [done|]. intros Halone n.
  induction n as [|n IH]; [done|]. simpl.
  rewrite Hwait; [done|]. rewrite Halone, size_singleton. done.
Qed.

Lemma repeated_new_game_request_witness :
  length (players (set_newGameRequests {["A"]} mid_chain)) = 2%nat ∧
  "A" ∈ newGameRequests (set_newGameRequests {["A"]} mid_chain) ∧
  size (newGameRequests (set_newGameRequests {["A"]} mid_chain)) ≠ 2%nat ∧
  requestNewGame "A" (set_newGameRequests {["A"]} mid_chain)
    = (Returned waiting_for_other, set_newGameRequests {["A"]} mid_chain) ∧
  run (replicate 3 (RequestNewGame "A"))
      (set_newGameRequests {["A"]} mid_chain)
    = set_newGameRequests {["A"]} mid_chain.
Proof.
  assert (length (players (set_newGameRequests {["A"]} mid_chain)) = 2%nat)
    as Htwo by (vm_compute; reflexivity).
  assert ("A" ∈ newGameRequests (set_newGameRequests {["A"]} mid_chain))
    as Hin by (change ("A" ∈ ({["A"]} : gset string)); set_solver).
  assert (size (newGameRequests (set_newGameRequests {["A"]} mid_chain))
          ≠ 2%nat) as Hsize
    by (change (size ({["A"]} : gset string) ≠ 2%nat);
        rewrite size_singleton; lia).
  destruct (repeated_new_game_request _ "A" Htwo Hin) as [Hwait Hrepeat].
  do 3 (split; [assumption|]). split; [exact (Hwait Hsize)|].
  exact (Hrepeat eq_refl 3%nat).
Defined.

(** *** C9: the reasons of a rejection *)

Lemma isValidMove_reasons fr fc tr tc id this reason :
  isValidMove fr fc tr tc id this = Returned (invalid reason) →
  reason ∈ move_reasons.
Proof.
  unfold isValidMove, move_reasons. intros Hv.
  destruct (players_get (players this) id) as [player|]; [|done].
  destruct (negb _); [by find_reason|].
  destruct (board_get (board this) fr fc) as [[| |piece]|];
    simpl in Hv; [by find_reason..| |done].
  destruct (negb _); [by find_reason|].
  destruct (board_get (board this) tr tc) as [[| |?]|];
    simpl in Hv; [by find_reason| |by find_reason|done].
  destruct (_ =? 0); [by find_reason|].
  destruct (bound_to_other_piece this fr fc); [by find_reason|].
  destruct ((Z.abs (tr - fr) =? 1) && (Z.abs (tc - fc) =? 1)).
  - destruct (negb (king piece) && _); [by find_reason|].
    destruct (getAvailableCaptures _ _) as [caps|]; [|done]. simpl in Hv.
    destruct (_ <? _)%nat; [by find_reason|done].
  - destruct ((Z.abs (tr - fr) =? 2) && (Z.abs (tc - fc) =? 2));
      [|by find_reason].
    destruct (negb (king piece) && _); [by find_reason|].
    destruct (board_get _ _ _) as [mid|]; [|done]. simpl in Hv.
    destruct (negb _); [by find_reason|done].
Qed.

(** A rejection of [makeMove] is a rejection of the validation: once the
    validation has accepted, the method ends with an accepted result. *)
Lemma makeMove_rejected_inv fr fc tr tc id this reason this' :
  makeMove fr fc tr tc id this = (Returned (move_rejected reason), this') →
  isValidMove fr fc tr tc id this = Returned (invalid reason).
Proof.
  unfold makeMove. intros H.
  apply bind_returned_inv in H as (v & this1 & Hv & H).
  unfold read in Hv. injection Hv as Hv <-.
  destruct v as [reason'| |mr mc].
  - unfold mret, Method_ret in H. by simplify_eq.
  - exfalso.
    repeat first
      [ apply bind_returned_inv in H as (? & ? & _ & H)
      | match type of H with
        | context [let (_, _) := ?x in _] => destruct x
        end ].
    unfold read in H. by simplify_eq.
  - exfalso.
    repeat first
      [ apply bind_returned_inv in H as (? & ? & _ & H)
      | match type of H with
        | context [let (_, _) := ?x in _] => destruct x
        end ].
    unfold read in H. by simplify_eq.
Qed.

(** A man that steps or jumps backwards is refused with a reason that is
    not among the ten. *)
Lemma rejection_reasons_counterexample :
  reachable capture_offered ∧
  makeMove 3 2 2 1 "A" capture_offered
    = (Returned (move_rejected "Invalid move direction"), capture_offered) ∧
  ("Invalid move direction" ∉ listed_reasons) ∧
  reachable mid_chain ∧
  makeMove 3 4 5 2 "B" mid_chain
    = (Returned (move_rejected "Invalid capture direction"), mid_chain) ∧
  ("Invalid capture direction" ∉ listed_reasons).
Proof.
  split; [apply reachable_run, reachable_new|].
  split; [vm_compute; reflexivity|]. split; [not_listed|].
  split; [apply reachable_run, reachable_new|].
  split; [vm_compute; reflexivity|]. not_listed.
Qed.

(** C9, amended. Every rejection that [makeMove] returns carries one of
    the ten reasons of [isValidMove], and every rejection that
    [selectTurnOrder] returns one of its two reasons; these twelve are the
    ten listed codes together with "Invalid move direction" and "Invalid
    capture direction", the reasons for a man that steps or jumps
    backwards. *)
Theorem rejection_reasons this :
  (∀ fr fc tr tc id reason this',
     makeMove fr fc tr tc id this = (Returned (move_rejected reason), this') →
     reason ∈ move_reasons) ∧
  (∀ id choice reason this',
     selectTurnOrder id choice this
       = (Returned (turn_order_rejected reason), this') →
     reason ∈ turn_order_reasons) ∧
  (∀ reason,
     reason ∈ move_reasons ++ turn_order_reasons ↔
     reason ∈ listed_reasons ∨
     reason = "Invalid move direction" ∨
     reason = "Invalid capture direction").
Proof.
  split; [|split].
  - intros fr fc tr tc id reason this' Heq.
    eapply isValidMove_reasons. by eapply makeMove_rejected_inv.
  - intros id choice reason this'. unfold selectTurnOrder, turn_order_reasons.
    rewrite bind_read_pure.
    destruct (negb _); [intros [= <- _]; find_reason|].
    rewrite bind_read_pure. intros Heq.
    apply bind_returned_inv in Heq as (chosen & this1 & _ & Heq).
    destruct chosen; simpl in Heq.
    + rewrite bind_assign in Heq. unfold read in Heq. by simplify_eq.
    + injection Heq as <- _. find_reason.
  - intros reason. unfold move_reasons, turn_order_reasons, listed_reasons.
    simpl. rewrite !elem_of_cons, !elem_of_nil. tauto.
Qed.

(** Each of the twelve reasons is given in some session. *)
Example every_reason_occurs :
  (makeMove 5 0 4 1 "B" capture_offered).1
    = Returned (move_rejected "Not your turn") ∧
  (makeMove 4 4 5 5 "A" capture_offered).1
    = Returned (move_rejected "Invalid source position") ∧
  (makeMove 3 2 4 3 "A" capture_offered).1
    = Returned (move_rejected "Destination not empty") ∧
  (makeMove 3 2 4 2 "A" capture_offered).1
    = Returned (move_rejected "Can only move to dark squares") ∧
  (makeMove 3 0 1 2 "B" mid_chain).1
    = Returned (move_rejected "Must continue capturing with the same piece") ∧
  (makeMove 3 2 2 1 "A" capture_offered).1
    = Returned (move_rejected "Invalid move direction") ∧
  (makeMove 3 2 4 1 "A" capture_offered).1
    = Returned (move_rejected "Must capture when possible") ∧
  (makeMove 3 4 5 2 "B" mid_chain).1
    = Returned (move_rejected "Invalid capture direction") ∧
  (makeMove 2 3 4 5 "A" capture_offered).1
    = Returned (move_rejected "No piece to capture") ∧
  (makeMove 2 3 5 4 "A" capture_offered).1
    = Returned (move_rejected "Invalid move distance") ∧
  (selectTurnOrder "B" "self" choosing).1
    = Returned (turn_order_rejected "Not authorized to select turn order") ∧
  (selectTurnOrder "A" "first" choosing).1
    = Returned (turn_order_rejected "Invalid choice").
Proof. by_computation. Qed.

(** * The rest of the class, the client and the server *)

(** ** The players of a session *)

Lemma players_get_None ps id : players_get ps id = None ↔ id ∉ ps.*1.
Proof.
  induction ps as [|[k q] ps IH]; simpl.
  - split; [intros _; apply not_elem_of_nil|done].
  - rewrite not_elem_of_cons. case_bool_decide; simplify_eq.
    + split; [done|]. by intros [].
    + rewrite IH. split; [by split|by intros []].
Qed.

Lemma players_set_length ps id p :
  length (players_set ps id p)
  = match players_get ps id with
    | Some _ => length ps
    | None => S (length ps)
    end.
Proof.
  induction ps as [|[k q] ps IH]; simpl; [done|].
  case_bool_decide; simpl; [done|]. rewrite IH. by destruct (players_get ps id).
Qed.


Lemma players_set_keys ps id p :
  (players_set ps id p).*1
  = match players_get ps id with
    | Some _ => ps.*1
    | None => ps.*1 ++ [id]
    end.
Proof.
  induction ps as [|[k q] ps IH]; simpl; [done|].
  case_bool_decide; simplify_eq/=; [done|].
  rewrite IH. by destruct (players_get ps id).
Qed.

Lemma players_set_NoDup ps id p : NoDup ps.*1 → NoDup (players_set ps id p).*1.
Proof.
  intros Hnd. rewrite players_set_keys.
  destruct (players_get ps id) eqn:Hget; [done|].
  apply NoDup_app. split; [done|]. split; [|apply NoDup_singleton].
  intros x Hx ->%list_elem_of_singleton. by apply players_get_None in Hget.
Qed.

Lemma players_delete_length ps id :
  (length (players_delete ps id) ≤ length ps)%nat.
Proof. apply List.filter_length_le. Qed.

Lemma players_delete_NoDup ps id : NoDup ps.*1 → NoDup (players_delete ps id).*1.
Proof.
  unfold players_delete. induction ps as [|[k q] ps IH]; simpl; [done|].
  rewrite NoDup_cons. intros [Hk Hnd].
  case_bool_decide; simpl; try (by apply IH).
  apply NoDup_cons. split; [|by apply IH].
  intros Hin. apply Hk. apply list_elem_of_fmap in Hin as (kv & -> & Hin).
  apply list_elem_of_fmap. exists kv. split; [done|].
  apply list_elem_of_In. apply list_elem_of_In, List.filter_In in Hin.
  by destruct Hin.
Qed.


Lemma addPlayer_players id n this :
  players (addPlayer id n this).2
  = if (2 <=? length (players this))%nat then players this
    else players_set (players this) id
           (mkPlayer n (if (length (players this) =? 0)%nat then red else black)).
Proof.
  unfold addPlayer. run_method.
  by repeat (case_match; simplify_eq/=).
Qed.

Lemma removePlayer_players id this :
  players (removePlayer id this).2 = players_delete (players this) id.
Proof. unfold removePlayer. run_method. by repeat (case_match; simplify_eq/=). Qed.

Lemma makeMove_players fr fc tr tc id this :
  board_shape (board this) →
  players (makeMove fr fc tr tc id this).2 = players this.
Proof.
  intros Hb.
  destruct (makeMove_cases fr fc tr tc id this Hb)
    as [[_ ->]|[(reason & _ & ->)|(v & cp & pr & ct & w & gs & this' & _ & _ & Heq)]];
    [done..|].
  rewrite Heq.
  destruct (makeMove_accepted_inv _ _ _ _ _ _ _ _ _ _ _ _ Hb Heq)
    as (p & b & over & _ & _ & _ & _ & -> & _). done.
Qed.

Lemma selectTurnOrder_players id ch this :
  players (selectTurnOrder id ch this).2 = players this.
Proof. unfold selectTurnOrder. run_method. by repeat (case_match; simplify_eq/=). Qed.

Lemma requestNewGame_players id this :
  players (requestNewGame id this).2 = players this.
Proof.
  rewrite requestNewGame_unfold.
  repeat case_match; simpl; by rewrite ?resetGame_reset.
Qed.

Lemma exec_players c this :
  board_shape (board this) →
  players (exec c this) =
    match c with
    | AddPlayer id n =>
        if (2 <=? length (players this))%nat then players this
        else players_set (players this) id
               (mkPlayer n (if (length (players this) =? 0)%nat
                            then red else black))
    | RemovePlayer id => players_delete (players this) id
    | _ => players this
    end.
Proof.
  intros Hb. destruct c; simpl.
  - apply addPlayer_players.
  - apply removePlayer_players.
  - by apply makeMove_players.
  - apply selectTurnOrder_players.
  - apply requestNewGame_players.
  - done.
Qed.

Lemma reachable_players this :
  reachable this →
  (length (players this) ≤ 2)%nat ∧ NoDup (players this).*1.
Proof.
  induction 1 as [code|c this Hreach [Hlen Hnd]].
  - simpl. split; [lia|constructor].
  - destruct (reachable_board_wf _ Hreach) as [Hb _].
    rewrite (exec_players c this Hb).
    destruct c; try done.
    + destruct (2 <=? length (players this))%nat eqn:Hfull; [done|].
      apply Nat.leb_gt in Hfull. split; [|by apply players_set_NoDup].
      rewrite players_set_length. destruct (players_get _ _); lia.
    + split; [|by apply players_delete_NoDup].
      pose proof (players_delete_length (players this) playerId). lia.
Qed.

(** X1. A session never holds more than two players, and no connection id
    is registered twice. *)
Theorem room_capacity this :
  reachable this →
  (length (players this) ≤ 2)%nat ∧ NoDup (players this).*1.
Proof. apply reachable_players. Qed.

Lemma room_capacity_witness :
  reachable mid_chain ∧
  (length (players mid_chain) ≤ 2)%nat ∧ NoDup (players mid_chain).*1.
Proof.
  assert (reachable mid_chain) as Hreach.
  { apply reachable_run, reachable_new. }
  split; [exact Hreach|]. exact (room_capacity mid_chain Hreach).
Defined.




Example addPlayer_raises_after_red_left :
  reachable red_left ∧
  players red_left = [("B", mkPlayer "Bob" black)] ∧
  (addPlayer "C" "Cy" red_left).1 = TypeError ∧
  players (addPlayer "C" "Cy" red_left).2
    = [("B", mkPlayer "Bob" black); ("C", mkPlayer "Cy" black)] ∧
  gameState (addPlayer "C" "Cy" red_left).2 = turn_selection.
Proof.
  split; [apply reachable_run, reachable_new|]. by_computation.
Qed.

(** ** Choosing the turn order *)




Example selector_who_left_raises :
  reachable red_left ∧
  may_select red_left "A" = true ∧
  players_get (players red_left) "A" = None ∧
  selectTurnOrder "A" "self" red_left = (TypeError, red_left) ∧
  selectTurnOrder "B" "self" red_left
  = (Returned (turn_order_rejected "Not authorized to select turn order"),
     red_left).
Proof.
  split; [apply reachable_run, reachable_new|]. by_computation.
Qed.

(** ** What an accepted move is and does *)

(** X6. Every move that [makeMove] accepts is made by a player of the
    colour to move, with a piece of that colour, from a square of the board
    onto an empty dark square of the board, along a diagonal; a man moves
    towards the far row of its colour; the move is either a step of one
    square, made while [getAvailableCaptures] lists nothing for the colour
    and never continued, or a jump of two squares over a piece of the other
    colour, which is the piece returned as captured. *)
Theorem accepted_move_shape this fr fc tr tc id cp pr ct w gs this' :
  reachable this →
  makeMove fr fc tr tc id this
    = (Returned (move_accepted cp pr ct w gs), this') →
  ∃ player piece,
    players_get (players this) id = Some player ∧
    player_color player = currentPlayer this ∧
    board_get (board this) fr fc = Returned (occupied piece) ∧
    color piece = currentPlayer this ∧
    board_get (board this) tr tc = Returned null ∧
    (0 ≤ fr < 8 ∧ 0 ≤ fc < 8 ∧ 0 ≤ tr < 8 ∧ 0 ≤ tc < 8) ∧
    (tr + tc) `rem` 2 = 1 ∧
    Z.abs (tr - fr) = Z.abs (tc - fc) ∧
    (king piece = false →
     match color piece with red => fr < tr | black => tr < fr end) ∧
    ((cp = null ∧ Z.abs (tr - fr) = 1 ∧ ct = false ∧
      getAvailableCaptures (board this) (currentPlayer this) = Returned [])
     ∨
     (∃ q, cp = occupied q ∧ Z.abs (tr - fr) = 2 ∧
           board_get (board this) (middle fr fc tr tc).1 (middle fr fc tr tc).2
             = Returned (occupied q) ∧
           color q = opponent (color piece))).
Proof.
  intros Hreach Heq.
  destruct (reachable_board_wf _ Hreach) as [Hb _].
  destruct (makeMove_accepted_valid _ _ _ _ _ _ _ _ Heq eq_refl)
    as (v & Hv & Hvalid).
  destruct (isValidMove_valid_inv _ _ _ _ _ _ _ Hv Hvalid)
    as (player & p & Hplayer & Hturn & Hsrc & Hown & Hdst & Hdark & _ & Hkind).
  destruct (board_get_defined _ _ _ _ Hb Hsrc) as [Hfr Hfc]; [done|].
  destruct (board_get_defined _ _ _ _ Hb Hdst) as [Htr Htc]; [done|].
  exists player, p. do 5 (split; [done|]). split; [done|].
  split; [by apply dark_parity|].
  assert (∀ d, king p = false → d = expectedDirection p → d = Z.sgn (tr - fr) →
            match color p with red => fr < tr | black => tr < fr end) as Hfwd.
  { intros d _ -> Hd. unfold expectedDirection in Hd.
    destruct (color p); lia. }
  destruct Hkind as [(-> & Hr & Hc & Hdir & Hnone)|(q & -> & Hr & Hc & Hdir & Hq & Hqc)].
  - split; [lia|]. split.
    { intros Hman. apply (Hfwd (tr - fr) Hman (Hdir Hman)). lia. }
    left.
    destruct (makeMove_valid_move _ _ _ _ _ _ _ Hb Hv Hsrc) as (over & _ & Heq').
    rewrite Heq' in Heq. by simplify_eq.
  - split; [lia|]. split.
    { intros Hman. by apply (Hfwd (Z.sgn (tr - fr)) Hman (Hdir Hman)). }
    right.
    destruct (makeMove_valid_capture _ _ _ _ _ _ _ _ _ Hb Hv Hsrc)
      as (q' & more & over & Hq' & _ & _ & _ & _ & Heq').
    assert (q' = q) as -> by congruence.
    rewrite Heq' in Heq. simplify_eq. exists q. split_all; try done.
    revert Hqc. rewrite <- Hown. by destruct (color q), (color p).
Qed.

Lemma accepted_move_shape_witness :
  reachable before_chain ∧
  makeMove 5 2 3 4 "B" before_chain
    = (Returned (move_accepted (occupied (mkPiece red false)) false true
                   None playing), mid_chain) ∧
  ∃ piece,
    board_get (board before_chain) 5 2 = Returned (occupied piece) ∧
    color piece = currentPlayer before_chain ∧
    (king piece = false →
     match color piece with red => 5 < 3 | black => 3 < 5 end).
Proof.
  assert (reachable before_chain) as Hreach.
  { apply reachable_run, reachable_new. }
  assert (makeMove 5 2 3 4 "B" before_chain
    = (Returned (move_accepted (occupied (mkPiece red false)) false true
                   None playing), mid_chain)) as Heq
    by (vm_compute; reflexivity).
  destruct (accepted_move_shape _ _ _ _ _ _ _ _ _ _ _ _ Hreach Heq)
    as (player & piece & _ & _ & Hsrc & Hown & _ & _ & _ & _ & Hfwd & _).
  split; [exact Hreach|]. split; [exact Heq|].
  exists piece. split_all; assumption.
Defined.

(** The squares an accepted move writes, and what it leaves in them. *)
Lemma makeMove_squares this fr fc tr tc id cp pr ct w gs this' :
  board_shape (board this) →
  makeMove fr fc tr tc id this
    = (Returned (move_accepted cp pr ct w gs), this') →
  ∃ piece,
    board_get (board this) fr fc = Returned (occupied piece) ∧
    board_get (board this') fr fc = Returned null ∧
    board_get (board this') tr tc
      = Returned (occupied (mkPiece (color piece) (king piece || pr))) ∧
    (cp ≠ null →
     board_get (board this') (middle fr fc tr tc).1 (middle fr fc tr tc).2
       = Returned null) ∧
    ∀ r c,
      (r, c) ≠ (fr, fc) → (r, c) ≠ (tr, tc) →
      (cp = null ∨ (r, c) ≠ middle fr fc tr tc) →
      board_get (board this') r c = board_get (board this) r c.
Proof.
  intros Hb Heq.
  destruct (makeMove_accepted_inv _ _ _ _ _ _ _ _ _ _ _ _ Hb Heq)
    as (p & b & over & Hsrc & Hown & Hpr & Hover & Hthis' & _ & _ & Hland &
        Hshape & Hkind).
  destruct (makeMove_accepted_valid _ _ _ _ _ _ _ _ Heq eq_refl)
    as (v & Hv & Hvalid).
  destruct (isValidMove_valid_inv _ _ _ _ _ _ _ Hv Hvalid)
    as (_ & p' & _ & _ & Hsrc' & _ & Hdst & _ & _ & Hgeo).
  assert (p' = p) as -> by congruence.
  assert ((tr, tc) ≠ (fr, fc)) as Hends by (intros [= -> ->]; congruence).
  exists p. split; [done|]. rewrite Hthis'. simpl.
  assert (∀ r c, (r, c) ≠ (tr, tc) →
            board_get (crowned b tr tc p pr) r c = board_get b r c) as Hcr.
  { intros r c Hne. unfold crowned. destruct pr; [|done].
    by rewrite board_get_set_ne. }
  assert (board_get (crowned b tr tc p pr) tr tc
          = Returned (occupied (mkPiece (color p) (king p || pr)))) as Hcrl.
  { unfold crowned. destruct pr.
    - rewrite (board_get_set_eq _ _ _ _ (occupied p)); [|done..].
      by rewrite orb_true_r.
    - rewrite Hland, orb_false_r. by destruct p. }
  destruct Hkind as [(_ & -> & _ & ->)|(mr & mc & q & more & Hv' & -> & -> & _)].
  - split_all; [|done|done|].
    + rewrite Hcr by done. unfold relocate.
      by rewrite (board_get_set_eq _ _ _ _ (occupied p));
        [|rewrite board_get_set_ne|].
    + intros r c Hfrom Hto _. rewrite Hcr by done. by apply relocate_other.
  - rewrite Hv' in Hv. injection Hv as <-.
    destruct Hgeo as [(? & _)|(q' & [= -> ->] & Hr & Hc & _ & Hq & _)]; [done|].
    assert ((fr + Z.sgn (tr - fr), fc + Z.sgn (tc - fc)) ≠ (fr, fc)) as Hmf.
    { intros [= ? ?]. lia. }
    assert ((fr + Z.sgn (tr - fr), fc + Z.sgn (tc - fc)) ≠ (tr, tc)) as Hmt.
    { intros [= ? ?]. lia. }
    split_all; [| done | |].
    + rewrite Hcr by done. rewrite board_get_set_ne by done.
      unfold relocate.
      by rewrite (board_get_set_eq _ _ _ _ (occupied p));
        [|rewrite board_get_set_ne|].
    + intros _. unfold middle. simpl. rewrite Hcr by done.
      rewrite (board_get_set_eq _ _ _ _ (occupied q')); [done| |done].
      by rewrite relocate_other.
    + intros r c Hfrom Hto [|Hmid]; [done|]. rewrite Hcr by done.
      rewrite board_get_set_ne by done. by apply relocate_other.
Qed.

(** X7. An accepted move empties the square it starts from, puts the moved
    piece, with its colour and crowned if it was a king or is promoted, on
    the square it ends on, empties the square it jumps over if it is a
    capture, and leaves every other square as it was. *)
Theorem accepted_move_board this fr fc tr tc id cp pr ct w gs this' :
  reachable this →
  makeMove fr fc tr tc id this
    = (Returned (move_accepted cp pr ct w gs), this') →
  ∃ piece,
    board_get (board this) fr fc = Returned (occupied piece) ∧
    board_get (board this') fr fc = Returned null ∧
    board_get (board this') tr tc
      = Returned (occupied (mkPiece (color piece) (king piece || pr))) ∧
    (cp ≠ null →
     board_get (board this') (middle fr fc tr tc).1 (middle fr fc tr tc).2
       = Returned null) ∧
    ∀ r c,
      (r, c) ≠ (fr, fc) → (r, c) ≠ (tr, tc) →
      (cp = null ∨ (r, c) ≠ middle fr fc tr tc) →
      board_get (board this') r c = board_get (board this) r c.
Proof.
  intros Hreach. apply makeMove_squares.
  by destruct (reachable_board_wf _ Hreach).
Qed.

Lemma accepted_move_board_witness :
  reachable before_crowning ∧
  makeMove 5 0 7 2 "A" before_crowning
    = (Returned (move_accepted (occupied (mkPiece black false)) true false
                   None playing),
       exec (MakeMove 5 0 7 2 "A") before_crowning) ∧
  ∃ piece,
    board_get (board before_crowning) 5 0 = Returned (occupied piece) ∧
    board_get (board (exec (MakeMove 5 0 7 2 "A") before_crowning)) 5 0
      = Returned null ∧
    board_get (board (exec (MakeMove 5 0 7 2 "A") before_crowning)) 7 2
      = Returned (occupied (mkPiece (color piece) (king piece || true))).
Proof.
  assert (reachable before_crowning) as Hreach.
  { apply reachable_run, reachable_new. }
  assert (makeMove 5 0 7 2 "A" before_crowning
    = (Returned (move_accepted (occupied (mkPiece black false)) true false
                   None playing),
       exec (MakeMove 5 0 7 2 "A") before_crowning)) as Heq
    by (vm_compute; reflexivity).
  destruct (accepted_move_board _ _ _ _ _ _ _ _ _ _ _ _ Hreach Heq)
    as (piece & Hsrc & Hfrom & Hto & _).
  split; [exact Hreach|]. split; [exact Heq|].
  exists piece. split_all; assumption.
Defined.

(** X8. [makeMove], accepted or not, changes neither the room code, the
    players, the new-game requests nor the turn order selection; it leaves
    [gameState] as it was or sets it to ['finished']. *)
Theorem move_leaves_room_data this fr fc tr tc id :
  reachable this →
  let this' := (makeMove fr fc tr tc id this).2 in
  roomCode this' = roomCode this ∧
  players this' = players this ∧
  newGameRequests this' = newGameRequests this ∧
  turnOrderSelector this' = turnOrderSelector this ∧
  waitingForTurnOrderSelection this' = waitingForTurnOrderSelection this ∧
  (gameState this' = gameState this ∨ gameState this' = finished).
Proof.
  intros Hreach this'. subst this'.
  destruct (reachable_board_wf _ Hreach) as [Hb _].
  destruct (makeMove_cases fr fc tr tc id this Hb)
    as [[_ ->]|[(reason & _ & ->)
               |(v & cp & pr & ct & w & gs & this' & _ & _ & Heq)]].
  - split_all; try done. by left.
  - split_all; try done. by left.
  - rewrite Heq.
    destruct (makeMove_accepted_inv _ _ _ _ _ _ _ _ _ _ _ _ Hb Heq)
      as (p & b & over & _ & _ & _ & _ & -> & _).
    simpl. split_all; try done. destruct over; [by right|by left].
Qed.

Lemma move_leaves_room_data_witness :
  reachable before_blockade ∧
  players blockade = players before_blockade ∧
  gameState before_blockade = playing ∧
  gameState blockade = finished.
Proof.
  assert (reachable before_blockade) as Hreach.
  { apply reachable_run, reachable_new. }
  destruct (move_leaves_room_data before_blockade 7 4 5 6 "A" Hreach)
    as (_ & Hplayers & _).
  split; [exact Hreach|]. split; [exact Hplayers|].
  split; vm_compute; reflexivity.
Defined.

(** ** Counting pieces *)

Lemma for_of_app {A S} (l1 l2 : list A) (body : A → S → Outcome S) acc :
  for_of (l1 ++ l2) body acc
  = match for_of l1 body acc with
    | Returned s => for_of l2 body s
    | TypeError => TypeError
    end.
Proof.
  revert acc. induction l1 as [|a l1 IH]; intros acc; simpl; [done|].
  destruct (body a acc); [apply IH|done].
Qed.

Lemma for_of_map {A B S} (f : A → B) l (body : B → S → Outcome S) acc :
  for_of (map f l) body acc = for_of l (λ a, body (f a)) acc.
Proof.
  revert acc. induction l as [|a l IH]; intros acc; simpl; [done|].
  destruct (body (f a) acc); [apply IH|done].
Qed.

Lemma for_of_nested {A B S} (l1 : list A) (l2 : list B)
    (body : A → B → S → Outcome S) acc :
  for_of l1 (λ a s, for_of l2 (λ b s, body a b s) s) acc
  = for_of (list_prod l1 l2) (λ ab s, body ab.1 ab.2 s) acc.
Proof.
  revert acc. induction l1 as [|a l1 IH]; intros acc; simpl; [done|].
  rewrite for_of_app, for_of_map. simpl.
  destruct (for_of l2 _ acc); [apply IH|done].
Qed.

Lemma for_of_count {A} (f : A → bool) l (body : A → nat → Outcome nat) n :
  (∀ a k, a ∈ l → body a k = Returned (if f a then S k else k)) →
  for_of l body n = Returned (n + length (List.filter f l))%nat.
Proof.
  revert n. induction l as [|a l IH]; intros n Hbody; simpl.
  - f_equal. lia.
  - rewrite Hbody by apply list_elem_of_here.
    rewrite IH by (intros; apply Hbody; by apply list_elem_of_further).
    destruct (f a); simpl; f_equal; lia.
Qed.

Lemma squares_spec r c : (r, c) ∈ squares ↔ 0 ≤ r < 8 ∧ 0 ≤ c < 8.
Proof.
  unfold squares. rewrite list_elem_of_In, in_prod_iff, <- !list_elem_of_In.
  rewrite !elem_of_seqZ. lia.
Qed.

Lemma squares_NoDup : NoDup squares.
Proof. apply (bool_decide_unpack _). vm_compute. reflexivity. Qed.

Lemma countPieces_count b c :
  board_shape b → countPieces b c = Returned (count b c).
Proof.
  intros Hb. unfold countPieces.
  rewrite (for_of_nested (seqZ 0 8) (seqZ 0 8)
             (λ row col count,
                v ← board_get b row col;
                if belongs_to v c then Returned (S count) else Returned count)).
  fold squares. rewrite (for_of_count (holds b c)); [done|].
  intros [r col] k [Hr Hc]%squares_spec. unfold holds. simpl.
  destruct (board_get_row b r col Hb Hr) as [v ->]. simpl.
  by destruct (belongs_to v c).
Qed.

Lemma filter_length_change `{EqDecision A} (f g : A → bool) (x : A) l :
  NoDup l → x ∈ l → (∀ y, y ∈ l → y ≠ x → f y = g y) →
  (length (List.filter g l) + (if f x then 1 else 0)
   = length (List.filter f l) + (if g x then 1 else 0))%nat.
Proof.
  induction l as [|a l IH]; [by intros _ ?%elem_of_nil|].
  rewrite NoDup_cons. intros [Ha Hnd] Hx Hfg. simpl.
  destruct (decide (a = x)) as [->|Hne].
  - assert (List.filter f l = List.filter g l) as ->.
    { apply List.filter_ext_in. intros y Hy%list_elem_of_In.
      apply Hfg; [by apply list_elem_of_further|]. by intros ->. }
    destruct (f x), (g x); simpl; lia.
  - apply elem_of_cons in Hx as [->|Hx]; [done|].
    rewrite (Hfg a) by (done || apply list_elem_of_here).
    assert (∀ y, y ∈ l → y ≠ x → f y = g y) as Hfg'.
    { intros. apply Hfg; [by apply list_elem_of_further|done]. }
    specialize (IH Hnd Hx Hfg'). destruct (g a); simpl; lia.
Qed.

(** A write changes the count by the piece it removes and the piece it
    puts. *)
Lemma count_board_set b r c old new k :
  board_shape b → board_get b r c = Returned (cell_of old) →
  (count (board_set b r c new) k + (if belongs_to (cell_of old) k then 1 else 0)
   = count b k + (if belongs_to (cell_of new) k then 1 else 0))%nat.
Proof.
  intros Hb Hget.
  destruct (board_get_defined _ _ _ _ Hb Hget) as [Hr Hc]; [by destruct old|].
  unfold count.
  replace (belongs_to (cell_of old) k) with (holds b k (r, c))
    by (unfold holds; simpl; by rewrite Hget).
  replace (belongs_to (cell_of new) k)
    with (holds (board_set b r c new) k (r, c)).
  2:{ unfold holds. simpl.
      rewrite (board_get_set_eq _ _ _ _ (cell_of old)); [done..|by destruct old]. }
  apply filter_length_change; [apply squares_NoDup|by apply squares_spec|].
  intros [r' c'] _ Hne. unfold holds. simpl.
  rewrite board_get_set_ne; [done|]. by intros [= -> ->].
Qed.

Lemma count_relocate b fr fc tr tc p k :
  board_shape b →
  board_get b fr fc = Returned (occupied p) →
  board_get b tr tc = Returned null →
  count (relocate b fr fc tr tc p) k = count b k.
Proof.
  intros Hb Hsrc Hdst. unfold relocate.
  pose proof (count_board_set b tr tc None (Some p) k Hb Hdst) as H1.
  assert (board_get (board_set b tr tc (Some p)) fr fc
          = Returned (cell_of (Some p))) as Hsrc'.
  { rewrite board_get_set_ne; [done|]. intros [= -> ->]. congruence. }
  pose proof (count_board_set _ fr fc (Some p) None k
                (board_set_shape _ tr tc (Some p) Hb) Hsrc') as H2.
  simpl in *. destruct (bool_decide (color p = k)); lia.
Qed.

Lemma count_crowned b tr tc p pr k :
  board_shape b → board_get b tr tc = Returned (occupied p) →
  count (crowned b tr tc p pr) k = count b k.
Proof.
  intros Hb Hland. unfold crowned. destruct pr; [|done].
  pose proof (count_board_set b tr tc (Some p) (Some (mkPiece (color p) true))
                k Hb Hland) as H1.
  simpl in *. destruct (bool_decide (color p = k)); lia.
Qed.

(** An accepted move takes the captured piece, if any, from the pieces of
    the colour that is not to move, and changes no other count. *)
Lemma makeMove_count fr fc tr tc id this cp pr ct w gs this' k :
  board_shape (board this) →
  makeMove fr fc tr tc id this
    = (Returned (move_accepted cp pr ct w gs), this') →
  (count (board this') k
   + (if bool_decide (k = currentPlayer this) then 0 else taken cp)
   = count (board this) k)%nat.
Proof.
  intros Hb Heq.
  destruct (makeMove_accepted_inv _ _ _ _ _ _ _ _ _ _ _ _ Hb Heq)
    as (p & b & over & Hsrc & Hown & Hpr & Hover & Hthis' & _ & _ & Hland &
        Hshape & Hkind).
  destruct (makeMove_accepted_valid _ _ _ _ _ _ _ _ Heq eq_refl)
    as (v & Hv & Hvalid).
  destruct (isValidMove_valid_inv _ _ _ _ _ _ _ Hv Hvalid)
    as (_ & p' & _ & _ & Hsrc' & _ & Hdst & _ & _ & Hgeo).
  assert (p' = p) as -> by congruence.
  rewrite Hthis'. simpl. rewrite count_crowned by done.
  destruct Hkind as [(_ & -> & _ & ->)|(mr & mc & q & more & Hv' & -> & -> & _)].
  - rewrite count_relocate by done. simpl. by destruct (bool_decide _); lia.
  - rewrite Hv' in Hv. injection Hv as <-.
    destruct Hgeo as [(? & _)|(q' & [= -> ->] & Hr & Hc & _ & Hq & Hqc)]; [done|].
    assert (board_get (relocate (board this) fr fc tr tc p)
              (fr + Z.sgn (tr - fr)) (fc + Z.sgn (tc - fc))
            = Returned (cell_of (Some q'))) as Hq'.
    { rewrite relocate_other; [done|intros [= ? ?]; lia..]. }
    pose proof (count_board_set _ _ _ (Some q') None k
                  (relocate_shape _ fr fc tr tc p Hb) Hq') as H1.
    rewrite count_relocate in H1 by done. simpl in H1.
    assert (q = q') as ->.
    { destruct (makeMove_valid_capture _ _ _ _ _ _ _ _ _ Hb Hv' Hsrc)
        as (q2 & more2 & over2 & Hq2 & _ & _ & _ & _ & Heq').
      rewrite Heq' in Heq. simplify_eq. congruence. }
    simpl. repeat case_bool_decide; simplify_eq; try lia.
    exfalso. destruct (color q'), k, (currentPlayer this); done.
Qed.

(** X9. An accepted move leaves the number of pieces of the colour that
    moved as it was and takes from the number of pieces of the other colour
    exactly the piece it captured, if any. *)
Theorem piece_conservation this fr fc tr tc id cp pr ct w gs this' :
  reachable this →
  makeMove fr fc tr tc id this
    = (Returned (move_accepted cp pr ct w gs), this') →
  ∃ own other,
    countPieces (board this) (currentPlayer this) = Returned own ∧
    countPieces (board this') (currentPlayer this) = Returned own ∧
    countPieces (board this) (opponent (currentPlayer this))
      = Returned (other + taken cp)%nat ∧
    countPieces (board this') (opponent (currentPlayer this))
      = Returned other.
Proof.
  intros Hreach Heq.
  destruct (reachable_board_wf _ Hreach) as [Hb _].
  assert (board_shape (board this')) as Hb'.
  { pose proof (reachable_board_wf _ (reachable_exec
      (MakeMove fr fc tr tc id) _ Hreach)) as [Hb' _].
    simpl in Hb'. by rewrite Heq in Hb'. }
  exists (count (board this') (currentPlayer this)),
         (count (board this') (opponent (currentPlayer this))).
  rewrite !countPieces_count by done.
  pose proof (makeMove_count _ _ _ _ _ _ _ _ _ _ _ _ (currentPlayer this) Hb Heq)
    as Hown.
  pose proof (makeMove_count _ _ _ _ _ _ _ _ _ _ _ _
                (opponent (currentPlayer this)) Hb Heq) as Hother.
  rewrite bool_decide_eq_true_2 in Hown by done.
  rewrite bool_decide_eq_false_2 in Hother
    by (by destruct (currentPlayer this)).
  split_all; f_equal; lia.
Qed.

Lemma piece_conservation_witness :
  reachable before_chain ∧
  makeMove 5 2 3 4 "B" before_chain
    = (Returned (move_accepted (occupied (mkPiece red false)) false true
                   None playing), mid_chain) ∧
  ∃ own other,
    countPieces (board before_chain) black = Returned own ∧
    countPieces (board mid_chain) black = Returned own ∧
    countPieces (board before_chain) red = Returned (other + 1)%nat ∧
    countPieces (board mid_chain) red = Returned other.
Proof.
  assert (reachable before_chain) as Hreach.
  { apply reachable_run, reachable_new. }
  assert (makeMove 5 2 3 4 "B" before_chain
    = (Returned (move_accepted (occupied (mkPiece red false)) false true
                   None playing), mid_chain)) as Heq
    by (vm_compute; reflexivity).
  split; [exact Hreach|]. split; [exact Heq|].
  exact (piece_conservation _ _ _ _ _ _ _ _ _ _ _ _ Hreach Heq).
Defined.

(** X10. In every reachable session [countPieces] returns at most 12 for
    each colour. *)
Theorem piece_bound this c :
  reachable this →
  ∃ n, countPieces (board this) c = Returned n ∧ (n ≤ 12)%nat.
Proof.
  intros Hreach. exists (count (board this) c).
  split; [apply countPieces_count; by destruct (reachable_board_wf _ Hreach)|].
  assert (count initializeBoard c ≤ 12)%nat as Hinit.
  { destruct c; vm_compute; lia. }
  induction Hreach as [code|cmd this Hreach IH]; [done|].
  destruct (reachable_board_wf _ Hreach) as [Hb _].
  destruct cmd; simpl.
  - by rewrite addPlayer_board.
  - by rewrite removePlayer_board.
  - destruct (makeMove_cases fromRow fromCol toRow toCol playerId this Hb)
      as [[_ ->]|[(reason & _ & ->)
                 |(v & cp & pr & ct & w & gs & this' & _ & _ & Heq)]];
      [done..|].
    rewrite Heq. simpl.
    pose proof (makeMove_count _ _ _ _ _ _ _ _ _ _ _ _ c Hb Heq). lia.
  - by rewrite selectTurnOrder_board.
  - destruct (requestNewGame_board playerId this) as [-> | ->]; done.
  - done.
Qed.

Lemma piece_bound_witness :
  reachable mid_chain ∧
  ∃ n, countPieces (board mid_chain) red = Returned n ∧ (n ≤ 12)%nat.
Proof.
  assert (reachable mid_chain) as Hreach.
  { apply reachable_run, reachable_new. }
  split; [exact Hreach|]. exact (piece_bound mid_chain red Hreach).
Defined.

Lemma initializeBoard_squares r c :
  0 ≤ r < 8 → 0 ≤ c < 8 →
  board_get initializeBoard r c = Returned (starting_square r c).
Proof.
  intros Hr Hc.
  assert (Forall (λ square, board_get initializeBoard square.1 square.2
                            = Returned (starting_square square.1 square.2))
            squares) as Hall.
  { apply (bool_decide_unpack _). vm_compute. reflexivity. }
  rewrite Forall_forall in Hall.
  by apply (Hall (r, c)), squares_spec.
Qed.

(** X11. A fresh game and a game that [resetGame] has reset have the
    starting position: red men on the dark squares of rows 0 to 2, black men
    on the dark squares of rows 5 to 7 and nothing else, which makes twelve
    pieces of each colour. *)
Theorem starting_position code this r c :
  0 ≤ r < 8 → 0 ≤ c < 8 →
  board_get (board (new_CheckersGame code)) r c
    = Returned (starting_square r c) ∧
  board_get (board (resetGame this).2) r c = Returned (starting_square r c) ∧
  countPieces (board (new_CheckersGame code)) red = Returned 12%nat ∧
  countPieces (board (new_CheckersGame code)) black = Returned 12%nat.
Proof.
  intros Hr Hc. rewrite resetGame_board. simpl.
  split; [by apply initializeBoard_squares|].
  split; [by apply initializeBoard_squares|].
  split; vm_compute; reflexivity.
Qed.

Lemma starting_position_witness :
  board_get (board (new_CheckersGame "ROOM")) 2 1
    = Returned (occupied (mkPiece red false)) ∧
  board_get (board (resetGame mid_chain).2) 5 2
    = Returned (occupied (mkPiece black false)).
Proof.
  split.
  - apply (starting_position "ROOM" mid_chain 2 1); lia.
  - apply (starting_position "ROOM" mid_chain 5 2); lia.
Defined.

(** ** Men and the far row *)

Lemma men_scan_sound b :
  board_shape b → men_scan b = true → men_short_of_far_row b.
Proof.
  intros Hb Hscan r c p Hget Hman.
  destruct (board_get_defined _ _ _ _ Hb Hget) as [Hr Hc]; [done|].
  assert (In (r, c) squares) as Hin by by apply list_elem_of_In, squares_spec.
  unfold men_scan in Hscan. rewrite forallb_forall in Hscan.
  specialize (Hscan (r, c) Hin). cbn beta iota zeta delta [fst snd] in Hscan.
  rewrite Hget, Hman in Hscan. by apply negb_true_iff.
Qed.

Lemma initializeBoard_men : men_short_of_far_row initializeBoard.
Proof.
  apply men_scan_sound; [apply initializeBoard_shape|].
  vm_compute. reflexivity.
Qed.

Lemma makeMove_men fr fc tr tc id this :
  board_shape (board this) →
  men_short_of_far_row (board this) →
  men_short_of_far_row (board (makeMove fr fc tr tc id this).2).
Proof.
  intros Hb Hmen.
  destruct (makeMove_cases fr fc tr tc id this Hb)
    as [[_ ->]|[(reason & _ & ->)
               |(v & cp & pr & ct & w & gs & this' & _ & _ & Heq)]];
    [done..|].
  rewrite Heq. simpl.
  destruct (makeMove_squares _ _ _ _ _ _ _ _ _ _ _ _ Hb Heq)
    as (p & Hsrc & Hfrom & Hto & Hmid & Hother).
  destruct (makeMove_accepted_inv _ _ _ _ _ _ _ _ _ _ _ _ Hb Heq)
    as (p' & _ & _ & Hsrc' & _ & Hpr & _).
  assert (p' = p) as -> by congruence.
  intros r c x Hget Hman.
  destruct (decide ((r, c) = (fr, fc))) as [[= -> ->]|Hnf]; [congruence|].
  destruct (decide ((r, c) = (tr, tc))) as [[= -> ->]|Hnt].
  { rewrite Hto in Hget. injection Hget as <-. simpl in *.
    apply orb_false_iff in Hman as [Hman ->].
    unfold promotes in Hpr. rewrite Hman in Hpr. simpl in Hpr.
    unfold reaches_far_row in *. simpl. done. }
  assert (cp = null ∨ cp ≠ null) as [->|Hcp]
    by (destruct cp; (by left) || (by right)).
  { rewrite Hother in Hget by (done || by left). by eapply Hmen. }
  destruct (decide ((r, c) = middle fr fc tr tc)) as [Hm|Hnm].
  { specialize (Hmid Hcp). rewrite <- Hm in Hmid. simpl in Hmid. congruence. }
  rewrite Hother in Hget by (done || by right). by eapply Hmen.
Qed.

Lemma reachable_men this : reachable this → men_short_of_far_row (board this).
Proof.
  induction 1 as [code|cmd this Hreach IH]; [apply initializeBoard_men|].
  destruct (reachable_board_wf _ Hreach) as [Hb _].
  destruct cmd; simpl.
  - by rewrite addPlayer_board.
  - by rewrite removePlayer_board.
  - by apply makeMove_men.
  - by rewrite selectTurnOrder_board.
  - destruct (requestNewGame_board playerId this) as [-> | ->];
      [done|apply initializeBoard_men].
  - done.
Qed.

(** X12. In every reachable session a man is short of the row on which it
    is crowned: a red man stands on a row from 0 to 6, a black man on a row
    from 1 to 7. *)
Theorem men_never_on_far_row this r c p :
  reachable this →
  board_get (board this) r c = Returned (occupied p) →
  king p = false →
  match color p with red => 0 ≤ r < 7 | black => 0 < r < 8 end.
Proof.
  intros Hreach Hget Hman.
  destruct (reachable_board_wf _ Hreach) as [Hb _].
  destruct (board_get_defined _ _ _ _ Hb Hget) as [Hr _]; [done|].
  pose proof (reachable_men _ Hreach r c p Hget Hman) as Hfar.
  unfold reaches_far_row in Hfar. destruct (color p); lia.
Qed.

Lemma men_never_on_far_row_witness :
  reachable before_crowning ∧
  board_get (board before_crowning) 5 0
    = Returned (occupied (mkPiece red false)) ∧
  0 ≤ 5 < 7.
Proof.
  assert (reachable before_crowning) as Hreach.
  { apply reachable_run, reachable_new. }
  assert (board_get (board before_crowning) 5 0
          = Returned (occupied (mkPiece red false))) as Hget
    by (vm_compute; reflexivity).
  split; [exact Hreach|]. split; [exact Hget|].
  exact (men_never_on_far_row before_crowning 5 0 (mkPiece red false)
           Hreach Hget eq_refl).
Defined.

(** ** When no move is accepted *)

Lemma directions_elem p dr dc :
  (dr = 1 ∨ dr = -1) → (dc = 1 ∨ dc = -1) →
  (king p = false → dr = expectedDirection p) →
  (dr, dc) ∈ directions p.
Proof.
  intros Hdr Hdc Hfwd. unfold directions.
  destruct (king p).
  - destruct Hdr as [-> | ->], Hdc as [-> | ->];
      repeat first [apply list_elem_of_here | apply list_elem_of_further].
  - specialize (Hfwd eq_refl). unfold expectedDirection in Hfwd.
    destruct (color p); subst dr; destruct Hdc as [-> | ->];
      repeat first [apply list_elem_of_here | apply list_elem_of_further].
Qed.

(** A move that [isValidMove] accepts is a step or a jump of the piece on
    its source square, in the sense of the move enumeration. *)
Lemma isValidMove_enumerated fr fc tr tc id this v :
  board_shape (board this) →
  isValidMove fr fc tr tc id this = Returned v → is_valid v = true →
  ∃ p,
    board_get (board this) fr fc = Returned (occupied p) ∧
    color p = currentPlayer this ∧
    ((v = valid_move ∧
      step_from (board this) p fr fc
        (mkMove (mkPos fr fc) (mkPos tr tc) type_move None) ∧
      getAvailableCaptures (board this) (currentPlayer this) = Returned [])
     ∨
     (∃ mr mc, v = valid_capture mr mc ∧
      capture_from (board this) p fr fc
        (mkCapture (mkPos fr fc) (mkPos tr tc) (mkPos mr mc)))).
Proof.
  intros Hb Hv Hvalid.
  destruct (isValidMove_valid_inv _ _ _ _ _ _ _ Hv Hvalid)
    as (player & p & _ & _ & Hsrc & Hown & Hdst & _ & _ & Hkind).
  destruct (board_get_defined _ _ _ _ Hb Hdst) as [Htr Htc]; [done|].
  exists p. do 2 (split; [done|]).
  destruct Hkind as [(-> & Hr & Hc & Hdir & Hnone)
                    |(q & -> & Hr & Hc & Hdir & Hq & Hqc)].
  - left. split; [done|]. split; [|done].
    exists (tr - fr), (tc - fc), null.
    split; [apply directions_elem; [lia|lia|done]|].
    replace (fr + (tr - fr)) with tr by lia.
    replace (fc + (tc - fc)) with tc by lia.
    split_all; try done. by apply in_bounds_spec.
  - right. exists (fr + Z.sgn (tr - fr)), (fc + Z.sgn (tc - fc)).
    split; [done|].
    exists (Z.sgn (tr - fr)), (Z.sgn (tc - fc)), q, null.
    split; [apply directions_elem; [lia|lia|done]|].
    replace (fr + 2 * Z.sgn (tr - fr)) with tr by lia.
    replace (fc + 2 * Z.sgn (tc - fc)) with tc by lia.
    split_all; try done; [by apply in_bounds_spec|congruence].
Qed.

Lemma count_positive b k r c p :
  board_shape b → board_get b r c = Returned (occupied p) → color p = k →
  (0 < count b k)%nat.
Proof.
  intros Hb Hget Hk.
  destruct (board_get_defined _ _ _ _ Hb Hget) as [Hr Hc]; [done|].
  eapply (countPieces_positive b k r c p); [done..|].
  by apply countPieces_count.
Qed.

(** Whoever [checkGameOver] finds beaten, the colour to move has no move
    that [isValidMove] accepts, provided the other colour has a piece. *)
Lemma checkGameOver_no_move this w fr fc tr tc id v :
  board_shape (board this) →
  checkGameOver this = Returned (Some w) →
  (0 < count (board this) (opponent (currentPlayer this)))%nat →
  isValidMove fr fc tr tc id this = Returned v → is_valid v = false.
Proof.
  intros Hb Hover Hother Hv.
  destruct (is_valid v) eqn:Hvalid; [exfalso|done].
  destruct (isValidMove_enumerated _ _ _ _ _ _ _ Hb Hv Hvalid)
    as (p & Hsrc & Hown & Hmove).
  pose proof (count_positive _ _ _ _ _ Hb Hsrc Hown) as Hmine.
  unfold checkGameOver in Hover.
  rewrite !countPieces_count in Hover by done. simpl in Hover.
  destruct (getValidMovesForPlayer_returns (board this) (currentPlayer this) Hb)
    as [ms Hms].
  rewrite Hms in Hover. simpl in Hover.
  assert (count (board this) red ≠ 0 ∧ count (board this) black ≠ 0)%nat
    as [Hred Hblack].
  { destruct (currentPlayer this); simpl in *; lia. }
  apply Nat.eqb_neq in Hred, Hblack. rewrite Hred, Hblack in Hover.
  destruct ms as [|m ms]; [|done].
  pose proof (proj1 (getValidMovesForPlayer_nil _ _ _ Hb Hms) eq_refl
                fr fc p Hsrc Hown) as [Hnostep Hnojump].
  destruct Hmove as [(_ & Hstep & _)|(mr & mc & _ & Hjump)].
  - by eapply Hnostep.
  - by eapply Hnojump.
Qed.

(** X13. When an accepted move in a game without a winner returns a
    winner, the game is ['finished'], the winner is the colour that moved,
    the capture sequence does not go on, and in the session the move leaves
    no [makeMove] is accepted, whoever asks for whatever move: each one is
    refused or raises and leaves the session as it is. *)
Theorem game_over_is_final this fr fc tr tc id cp pr ct w gs this' :
  reachable this →
  winner this = None →
  makeMove fr fc tr tc id this
    = (Returned (move_accepted cp pr ct (Some w) gs), this') →
  gs = finished ∧ w = currentPlayer this ∧ ct = false ∧
  ∀ fr' fc' tr' tc' id',
    (∀ r, (makeMove fr' fc' tr' tc' id' this').1 = Returned r →
          success r = false) ∧
    (makeMove fr' fc' tr' tc' id' this').2 = this'.
Proof.
  intros Hreach Hnone Heq.
  destruct (reachable_board_wf _ Hreach) as [Hb _].
  assert (board_shape (board this')) as Hb'.
  { pose proof (reachable_board_wf _ (reachable_exec
      (MakeMove fr fc tr tc id) _ Hreach)) as [Hb' _].
    simpl in Hb'. by rewrite Heq in Hb'. }
  destruct (makeMove_accepted_inv _ _ _ _ _ _ _ _ _ _ _ _ Hb Heq)
    as (p & b & over & Hsrc & Hown & Hpr & Hover & Hthis' & Hw & Hgs & Hland &
        Hshape & Hkind).
  assert (over = Some w) as ->.
  { rewrite Hthis' in Hw. simpl in Hw. destruct over; congruence. }
  assert (checkGameOver this' = Returned (Some w)) as Hover'.
  { rewrite Hthis'. exact Hover. }
  (* the moved piece stands on the board the move leaves *)
  assert (∃ p', board_get (board this') tr tc = Returned (occupied p') ∧
                color p' = currentPlayer this) as (p' & Hland' & Hcolor).
  { rewrite Hthis'. simpl. unfold crowned. destruct pr.
    - exists (mkPiece (color p) true). split; [|done].
      by apply (board_get_set_eq _ tr tc (Some (mkPiece (color p) true))
                  (occupied p)).
    - by exists p. }
  pose proof (count_positive _ _ _ _ _ Hb' Hland' Hcolor) as Hmover.
  (* a capture sequence that goes on leaves the game open *)
  assert (ct = false) as ->.
  { destruct ct; [exfalso|done].
    destruct Hkind as [(_ & _ & ? & _)|(mr & mc & q & more & _ & _ & -> & Hmore & Hct)];
      [done|].
    symmetry in Hct. apply andb_true_iff in Hct as [Hlen Hnpr].
    apply negb_true_iff in Hnpr. rewrite Hnpr in *.
    destruct more as [|cap more]; [done|].
    pose proof (proj1 (getPieceCaptues_spec _ _ _ _ _ Hland Hmore cap)
                  (list_elem_of_here _ _)) as Hcap.
    assert (board this' = board_set (relocate (board this) fr fc tr tc p)
                            mr mc None) as Hboard by (by rewrite Hthis').
    assert (currentPlayer this' = currentPlayer this) as Hturn
      by (by rewrite Hthis').
    rewrite <- Hboard in Hcap, Hland.
    pose proof Hcap as (dr & dc & q' & x & _ & _ & _ & Hq' & Hq'c & _).
    assert (0 < count (board this') (opponent (currentPlayer this)))%nat
      as Hother.
    { apply (count_positive _ _ _ _ q' Hb' Hq').
      rewrite <- Hown. revert Hq'c. by destruct (color q'), (color p). }
    unfold checkGameOver in Hover'.
    rewrite !countPieces_count in Hover' by done. simpl in Hover'.
    destruct (getValidMovesForPlayer_returns (board this')
                (currentPlayer this') Hb') as [ms Hms].
    rewrite Hms in Hover'. simpl in Hover'.
    assert (count (board this') red ≠ 0 ∧ count (board this') black ≠ 0)%nat
      as [Hred Hblack].
    { destruct (currentPlayer this); simpl in *; lia. }
    apply Nat.eqb_neq in Hred, Hblack. rewrite Hred, Hblack in Hover'.
    destruct ms as [|m ms]; [|done].
    rewrite Hturn in Hms.
    pose proof (proj1 (getValidMovesForPlayer_nil _ _ _ Hb' Hms) eq_refl
                  tr tc p Hland Hown) as [_ Hnojump].
    by eapply Hnojump. }
  assert (currentPlayer this' = opponent (currentPlayer this)) as Hturn
    by (by rewrite Hthis').
  assert (0 < count (board this') (opponent (currentPlayer this')))%nat
    as Hother.
  { rewrite Hturn. by destruct (currentPlayer this). }
  split; [by rewrite Hgs, Hthis'|].
  split.
  { unfold checkGameOver in Hover'.
    rewrite !countPieces_count in Hover' by done. simpl in Hover'.
    destruct (getValidMovesForPlayer_returns (board this')
                (currentPlayer this') Hb') as [ms Hms].
    rewrite Hms, Hturn in Hover'. simpl in Hover'.
    destruct (currentPlayer this); simpl in *;
      repeat (case_match; simplify_eq/=); try done;
      match goal with H : (_ =? 0)%nat = true |- _ =>
        apply Nat.eqb_eq in H; lia end. }
  split; [done|]. intros fr' fc' tr' tc' id'.
  assert (∀ r, (makeMove fr' fc' tr' tc' id' this').1 = Returned r →
               success r = false) as Hrefused.
  { intros r Hr. destruct (success r) eqn:Hs; [exfalso|done].
    destruct (makeMove fr' fc' tr' tc' id' this') as [o this''] eqn:Heq'.
    simpl in Hr. subst o.
    destruct (makeMove_accepted_valid _ _ _ _ _ _ _ _ Heq' Hs)
      as (v & Hv & Hvalid).
    by rewrite (checkGameOver_no_move _ _ _ _ _ _ _ _ Hb' Hover' Hother Hv)
      in Hvalid. }
  split; [done|]. by apply makeMove_unaccepted_unchanged.
Qed.

Lemma game_over_is_final_witness :
  reachable before_blockade ∧
  winner before_blockade = None ∧
  makeMove 7 4 5 6 "A" before_blockade
    = (Returned (move_accepted (occupied (mkPiece black false)) false false
                   (Some red) finished), blockade) ∧
  ∀ fr' fc' tr' tc' id',
    (∀ r, (makeMove fr' fc' tr' tc' id' blockade).1 = Returned r →
          success r = false) ∧
    (makeMove fr' fc' tr' tc' id' blockade).2 = blockade.
Proof.
  assert (reachable before_blockade) as Hreach.
  { apply reachable_run, reachable_new. }
  assert (winner before_blockade = None) as Hnone by (vm_compute; reflexivity).
  assert (makeMove 7 4 5 6 "A" before_blockade
    = (Returned (move_accepted (occupied (mkPiece black false)) false false
                   (Some red) finished), blockade)) as Heq
    by (vm_compute; reflexivity).
  destruct (game_over_is_final _ _ _ _ _ _ _ _ _ _ _ _ Hreach Hnone Heq)
    as (_ & _ & _ & Hfinal).
  split_all; assumption.
Defined.

(** X14. When the session binds the player to a capturing piece that is
    not of the colour to move, as happens when the turn order is chosen in
    the middle of a capture sequence, no [makeMove] is accepted and none
    changes the session. *)
Theorem stale_capture_obligation this pos p fr fc tr tc id :
  reachable this →
  mustCapture this = true →
  capturingPiece this = Some pos →
  board_get (board this) (row pos) (col pos) = Returned (occupied p) →
  color p ≠ currentPlayer this →
  (∀ r, (makeMove fr fc tr tc id this).1 = Returned r → success r = false) ∧
  (makeMove fr fc tr tc id this).2 = this.
Proof.
  intros Hreach Hmust Hpos Hp Hcolor.
  destruct (reachable_board_wf _ Hreach) as [Hb _].
  assert (∀ r, (makeMove fr fc tr tc id this).1 = Returned r →
               success r = false) as Hrefused.
  { intros r Hr. destruct (success r) eqn:Hs; [exfalso|done].
    destruct (makeMove fr fc tr tc id this) as [o this'] eqn:Heq.
    simpl in Hr. subst o.
    destruct (makeMove_accepted_valid _ _ _ _ _ _ _ _ Heq Hs)
      as (v & Hv & Hvalid).
    destruct (isValidMove_valid_inv _ _ _ _ _ _ _ Hv Hvalid)
      as (_ & q & _ & _ & Hsrc & Hown & _ & _ & Hbound & _).
    unfold bound_to_other_piece in Hbound. rewrite Hmust, Hpos in Hbound.
    simpl in Hbound. apply orb_false_iff in Hbound as [Hr Hc].
    apply negb_false_iff, Z.eqb_eq in Hr, Hc. subst fr fc. congruence. }
  split; [done|]. by apply makeMove_unaccepted_unchanged.
Qed.

Lemma stale_capture_obligation_witness :
  reachable chosen_mid_chain ∧
  currentPlayer chosen_mid_chain = red ∧
  capturingPiece chosen_mid_chain = Some (mkPos 3 4) ∧
  board_get (board chosen_mid_chain) 3 4
    = Returned (occupied (mkPiece black false)) ∧
  makeMove 2 1 3 2 "A" chosen_mid_chain
    = (Returned (move_rejected "Must continue capturing with the same piece"),
       chosen_mid_chain) ∧
  (∀ r, (makeMove 3 4 1 2 "B" chosen_mid_chain).1 = Returned r →
        success r = false) ∧
  (makeMove 3 4 1 2 "B" chosen_mid_chain).2 = chosen_mid_chain.
Proof.
  assert (reachable chosen_mid_chain) as Hreach.
  { apply reachable_run, reachable_new. }
  assert (capturingPiece chosen_mid_chain = Some (mkPos 3 4)) as Hpos
    by (vm_compute; reflexivity).
  assert (board_get (board chosen_mid_chain) 3 4
          = Returned (occupied (mkPiece black false))) as Hp
    by (vm_compute; reflexivity).
  split; [exact Hreach|]. split; [vm_compute; reflexivity|].
  split; [exact Hpos|]. split; [exact Hp|].
  split; [vm_compute; reflexivity|].
  apply (stale_capture_obligation chosen_mid_chain (mkPos 3 4)
           (mkPiece black false) 3 4 1 2 "B" Hreach);
    [vm_compute; reflexivity|exact Hpos|exact Hp|].
  vm_compute. discriminate.
Defined.

(** ** The moves offered to a player *)

Lemma isValidMove_step this id player piece fr fc tr tc cs :
  players_get (players this) id = Some player →
  player_color player = currentPlayer this →
  board_get (board this) fr fc = Returned (occupied piece) →
  color piece = currentPlayer this →
  board_get (board this) tr tc = Returned null →
  (tr + tc) `rem` 2 ≠ 0 →
  bound_to_other_piece this fr fc = false →
  Z.abs (tr - fr) = 1 → Z.abs (tc - fc) = 1 →
  (king piece = false → tr - fr = expectedDirection piece) →
  getAvailableCaptures (board this) (currentPlayer this) = Returned cs →
  isValidMove fr fc tr tc id this
  = Returned (match cs with
              | [] => valid_move
              | _ => invalid "Must capture when possible"
              end).
Proof.
  intros Hplayer Hturn Hsrc Hown Hdst Hodd Hbound Hr Hc Hdir Hcs.
  destruct cs as [|cap cs].
  - unfold isValidMove. rewrite Hplayer, Hturn, bool_decide_eq_true_2 by done.
    simpl. rewrite Hsrc. simpl. rewrite bool_decide_eq_true_2 by done.
    simpl. rewrite Hdst. simpl.
    destruct (Z.eqb_spec ((tr + tc) `rem` 2) 0); [done|].
    rewrite Hbound, Hr, Hc. simpl.
    assert (negb (king piece) && negb (tr - fr =? expectedDirection piece)
            = false) as ->.
    { destruct (king piece); [done|]. simpl.
      by rewrite (proj2 (Z.eqb_eq _ _)) by auto. }
    by rewrite Hcs.
  - by eapply isValidMove_must_capture.
Qed.

(** X15. Every move that [isValidMove] accepts for a player is among the
    moves the ['get-possible-moves'] handler sends that player for the
    source square. *)
Theorem possible_moves_complete game fr fc tr tc id v :
  reachable game →
  isValidMove fr fc tr tc id game = Returned v → is_valid v = true →
  ∃ moves,
    possible_moves fr fc id game = Returned moves ∧
    mkPos tr tc ∈ moves.
Proof.
  intros Hreach Hv Hvalid.
  destruct (reachable_board_wf _ Hreach) as [Hb _].
  destruct (isValidMove_valid_inv _ _ _ _ _ _ _ Hv Hvalid)
    as (player & p' & Hplayer & Hturn & _ & _ & _ & _ & Hbound & _).
  destruct (isValidMove_enumerated _ _ _ _ _ _ _ Hb Hv Hvalid)
    as (p & Hsrc & Hown & Hmove).
  destruct (board_get_defined _ _ _ _ Hb Hsrc) as [Hfr Hfc]; [done|].
  destruct (getValidMovesForPiece_returns _ _ _ _ Hb Hsrc) as [ms Hms].
  pose proof (getValidMovesForPiece_spec _ _ _ _ _ Hsrc Hms) as Hspec.
  unfold possible_moves. rewrite Hsrc. simpl.
  rewrite Hplayer. simpl. rewrite Hturn, Hown, bool_decide_eq_true_2 by done.
  simpl. rewrite Hbound, Hms. simpl. eexists. split; [done|].
  remember (capture_moves ms) as captures eqn:Hcaps.
  unfold capture_moves in Hcaps.
  destruct Hmove as [(_ & Hstep & Hnone)|(mr & mc & _ & Hjump)].
  - assert (captures = []) as ->.
    { destruct captures as [|m rest]; [done|exfalso].
      assert (In m (List.filter
                (λ move, bool_decide (move_type move = type_capture)) ms))
        as [Hm Htype]%List.filter_In.
      { rewrite <- Hcaps. by left. }
      apply bool_decide_eq_true in Htype.
      apply list_elem_of_In, Hspec in Hm as [Hs|(cap & Hcap & ->)].
      { destruct Hs as (? & ? & ? & _ & -> & _). done. }
      assert (cap ∈ @nil Capture) as Hin; [|by apply elem_of_nil in Hin].
      apply (getAvailableCaptures_spec _ _ _ Hnone).
      by exists fr, fc, p. }
    simpl. apply list_elem_of_fmap.
    exists (mkMove (mkPos fr fc) (mkPos tr tc) type_move None).
    split; [done|]. apply Hspec. by left.
  - set (m := capture_move
                (mkCapture (mkPos fr fc) (mkPos tr tc) (mkPos mr mc))).
    assert (m ∈ captures) as Hin.
    { rewrite Hcaps. apply list_elem_of_In, List.filter_In. split; [|done].
      apply list_elem_of_In, Hspec. right. by eexists. }
    destruct captures as [|m' rest]; [by apply elem_of_nil in Hin|].
    exact (list_elem_of_fmap_2 move_to _ _ Hin).
Qed.

Lemma possible_moves_complete_witness :
  reachable capture_offered ∧
  isValidMove 3 2 5 4 "A" capture_offered = Returned (valid_capture 4 3) ∧
  ∃ moves,
    possible_moves 3 2 "A" capture_offered = Returned moves ∧
    mkPos 5 4 ∈ moves.
Proof.
  assert (reachable capture_offered) as Hreach.
  { apply reachable_run, reachable_new. }
  assert (isValidMove 3 2 5 4 "A" capture_offered
          = Returned (valid_capture 4 3)) as Hv by (vm_compute; reflexivity).
  split; [exact Hreach|]. split; [exact Hv|].
  exact (possible_moves_complete _ _ _ _ _ _ _ Hreach Hv eq_refl).
Defined.

(** X16. For a player of the colour to move, a square the
    ['get-possible-moves'] handler sends is a move that [isValidMove] accepts
    as a capture, or accepts as a step when [getAvailableCaptures] lists
    nothing for the colour, or refuses with ['Must capture when possible']
    when another piece of the colour can capture. *)
Theorem possible_moves_sound game r c tr tc id player moves :
  reachable game →
  players_get (players game) id = Some player →
  player_color player = currentPlayer game →
  possible_moves r c id game = Returned moves →
  mkPos tr tc ∈ moves →
  ∃ cs,
    getAvailableCaptures (board game) (currentPlayer game) = Returned cs ∧
    ((∃ mr mc,
        isValidMove r c tr tc id game = Returned (valid_capture mr mc)) ∨
     (cs = [] ∧ isValidMove r c tr tc id game = Returned valid_move) ∨
     (cs ≠ [] ∧
      isValidMove r c tr tc id game
      = Returned (invalid "Must capture when possible"))).
Proof.
  intros Hreach Hplayer Hturn Hmoves Hin.
  pose proof (reachable_board_wf _ Hreach) as Hwf.
  destruct Hwf as [Hb Hdark].
  destruct (getAvailableCaptures_returns (board game) (currentPlayer game) Hb)
    as [cs Hcs].
  exists cs. split; [done|].
  unfold possible_moves in Hmoves.
  destruct (board_get (board game) r c) as [[| |p]|] eqn:Hsrc;
    simpl in Hmoves; simplify_eq; try by apply elem_of_nil in Hin.
  rewrite Hplayer in Hmoves. simpl in Hmoves.
  case_bool_decide as Hcolor; simpl in Hmoves;
    [|simplify_eq; by apply elem_of_nil in Hin].
  injection Hcolor as Hcolor. rewrite Hturn in Hcolor. symmetry in Hcolor.
  destruct (bound_to_other_piece game r c) eqn:Hbound;
    [simplify_eq; by apply elem_of_nil in Hin|].
  destruct (getValidMovesForPiece (board game) r c) as [ms|] eqn:Hms;
    [|done].
  simpl in Hmoves. injection Hmoves as <-.
  pose proof (getValidMovesForPiece_spec _ _ _ _ _ Hsrc Hms) as Hspec.
  remember (capture_moves ms) as captures eqn:Hcaps.
  unfold capture_moves in Hcaps.
  apply list_elem_of_fmap in Hin as (m & Hto & Hm).
  assert (m ∈ ms) as Hms'.
  { destruct captures as [|m' rest]; simpl in Hm; [done|].
    assert (In m (List.filter
              (λ move, bool_decide (move_type move = type_capture)) ms))
      as [Hm' _]%List.filter_In.
    { rewrite <- Hcaps. by apply list_elem_of_In. }
    by apply list_elem_of_In. }
  destruct (board_get_defined _ _ _ _ Hb Hsrc) as [Hr Hc]; [done|].
  apply Hspec in Hms' as [(dr & dc & x & Hd & -> & Hinb & Hx & Hfx)
                         |(cap & Hcap & ->)].
  - right. simpl in Hto. injection Hto as -> ->.
    apply in_bounds_spec in Hinb.
    assert (x = null) as ->.
    { destruct (board_get_inside _ (r + dr) (c + dc) Hb) as [[?|] Hget];
        [lia..| |]; rewrite Hget in Hx; by simplify_eq. }
    pose proof (directions_unit _ _ _ Hd) as [Hdr Hdc].
    assert (isValidMove r c (r + dr) (c + dc) id game
            = Returned (match cs with
                        | [] => valid_move
                        | _ => invalid "Must capture when possible"
                        end)) as Hv.
    { apply (isValidMove_step _ _ player p); try done.
      - apply (step_parity r c); [lia..|]. by eapply Hdark.
      - lia.
      - lia.
      - intros Hman. rewrite <- (directions_forward _ _ _ Hman Hd). lia. }
    destruct cs; [by left|by right].
  - left. destruct Hcap as (dr & dc & q & x & Hd & -> & Hrest).
    simpl in Hto. injection Hto as -> ->.
    eexists _, _.
    apply (isValidMove_capture game id player p r c
             (mkCapture (mkPos r c) (mkPos (r + 2 * dr) (c + 2 * dc))
                (mkPos (r + dr) (c + dc)))); try done.
    by exists dr, dc, q, x.
Qed.

Lemma possible_moves_sound_witness :
  reachable capture_offered ∧
  players_get (players capture_offered) "A" = Some (mkPlayer "Ann" red) ∧
  possible_moves 1 0 "A" capture_offered = Returned [mkPos 2 1] ∧
  (∃ cs,
    getAvailableCaptures (board capture_offered) (currentPlayer capture_offered)
      = Returned cs ∧
    ((∃ mr mc,
        isValidMove 1 0 2 1 "A" capture_offered
        = Returned (valid_capture mr mc)) ∨
     (cs = [] ∧
      isValidMove 1 0 2 1 "A" capture_offered = Returned valid_move) ∨
     (cs ≠ [] ∧
      isValidMove 1 0 2 1 "A" capture_offered
      = Returned (invalid "Must capture when possible")))) ∧
  isValidMove 1 0 2 1 "A" capture_offered
    = Returned (invalid "Must capture when possible").
Proof.
  assert (reachable capture_offered) as Hreach.
  { apply reachable_run, reachable_new. }
  assert (players_get (players capture_offered) "A"
          = Some (mkPlayer "Ann" red)) as Hplayer by (vm_compute; reflexivity).
  assert (possible_moves 1 0 "A" capture_offered
          = Returned [mkPos 2 1]) as Hmoves by (vm_compute; reflexivity).
  split; [exact Hreach|]. split; [exact Hplayer|]. split; [exact Hmoves|].
  split; [|vm_compute; reflexivity].
  apply (possible_moves_sound capture_offered 1 0 2 1 "A" (mkPlayer "Ann" red)
           [mkPos 2 1] Hreach Hplayer); [vm_compute; reflexivity|exact Hmoves|].
  apply list_elem_of_here.
Defined.

Lemma for_of_related {A S T} (R : S → T → Prop) (l : list A)
    (body1 : A → S → Outcome S) (body2 : A → T → Outcome T) s t s' :
  R s t →
  (∀ a s t s', a ∈ l → R s t → body1 a s = Returned s' →
     ∃ t', body2 a t = Returned t' ∧ R s' t') →
  for_of l body1 s = Returned s' →
  ∃ t', for_of l body2 t = Returned t' ∧ R s' t'.
Proof.
  revert s t. induction l as [|a l IH]; intros s t HR Hbody; simpl.
  - intros [= <-]. by exists t.
  - destruct (body1 a s) as [s1|] eqn:H1; [|done]. intros Hrest.
    destruct (Hbody a s t s1 (list_elem_of_here _ _) HR H1) as (t1 & -> & HR1).
    apply (IH s1 t1 HR1); [|done].
    intros. eapply Hbody; [by apply list_elem_of_further|done..].
Qed.

Lemma capture_moves_app ms1 ms2 :
  capture_moves (ms1 ++ ms2) = capture_moves ms1 ++ capture_moves ms2.
Proof. apply List.filter_app. Qed.

(** The jumps among the moves of a piece are the captures of that piece. *)
Lemma getValidMovesForPiece_captures b r c p ms :
  board_get b r c = Returned (occupied p) →
  getValidMovesForPiece b r c = Returned ms →
  ∃ cs, getPieceCaptues b r c = Returned cs ∧
        capture_moves ms = capture_move <$> cs.
Proof.
  intros Hsrc. unfold getValidMovesForPiece, getPieceCaptues.
  rewrite Hsrc. simpl.
  apply (for_of_related (λ ms cs, capture_moves ms = capture_move <$> cs));
    [reflexivity|].
  intros [dr dc] ms1 cs1 ms2 _ HR.
  destruct (in_bounds (r + dr) (c + dc)),
    (in_bounds (r + 2 * dr) (c + 2 * dc)),
    (board_get b (r + dr) (c + dc)) as [target|],
    (board_get b (r + 2 * dr) (c + 2 * dc)) as [land|];
    simpl; try done;
    try destruct (falsy target); simpl; try done;
    try destruct (opposing target (color p) && falsy land); simpl; try done;
    intros [= <-]; eexists; (split; [done|]);
    rewrite ?capture_moves_app, ?fmap_app, ?HR; simpl;
    by rewrite ?app_nil_r.
Qed.

Lemma getValidMovesForPlayer_captures b c ms :
  getValidMovesForPlayer b c = Returned ms →
  ∃ cs, getAvailableCaptures b c = Returned cs ∧
        capture_moves ms = capture_move <$> cs.
Proof.
  unfold getValidMovesForPlayer, getAvailableCaptures.
  apply (for_of_related (λ ms cs, capture_moves ms = capture_move <$> cs));
    [reflexivity|].
  intros row ms1 cs1 ms2 _ HR.
  apply (for_of_related (λ ms cs, capture_moves ms = capture_move <$> cs));
    [done|].
  intros col ms3 cs3 ms4 _ HR3.
  destruct (board_get b row col) as [v|] eqn:Hget; [|done]. simpl.
  destruct (belongs_to v c) eqn:Hown; [|intros [= <-]; by eexists].
  apply belongs_to_spec in Hown as (p & -> & _).
  destruct (getValidMovesForPiece b row col) as [pieceMoves|] eqn:Hpm; [|done].
  simpl. intros [= <-].
  destruct (getValidMovesForPiece_captures _ _ _ _ _ Hget Hpm)
    as (pcs & -> & Hpcs).
  simpl. eexists. split; [done|].
  by rewrite capture_moves_app, fmap_app, HR3, Hpcs.
Qed.

(** X17. On a board of eight rows of eight squares the capture moves among
    the moves [getValidMovesForPlayer] lists for a colour are the captures
    [getAvailableCaptures] lists for it, one for one and in the same
    order. *)
Theorem capture_enumerations_agree b c :
  board_shape b →
  ∃ ms cs,
    getValidMovesForPlayer b c = Returned ms ∧
    getAvailableCaptures b c = Returned cs ∧
    capture_moves ms = capture_move <$> cs.
Proof.
  intros Hb.
  destruct (getValidMovesForPlayer_returns b c Hb) as [ms Hms].
  destruct (getValidMovesForPlayer_captures b c ms Hms) as (cs & Hcs & Heq).
  by exists ms, cs.
Qed.

Lemma capture_enumerations_agree_witness :
  board_shape (board mid_chain) ∧
  ∃ ms cs,
    getValidMovesForPlayer (board mid_chain) black = Returned ms ∧
    getAvailableCaptures (board mid_chain) black = Returned cs ∧
    capture_moves ms = capture_move <$> cs.
Proof.
  assert (board_shape (board mid_chain)) as Hb.
  { apply reachable_board_wf, reachable_run, reachable_new. }
  split; [exact Hb|]. exact (capture_enumerations_agree _ black Hb).
Defined.

(** ** The client's capture check and board *)

Lemma for_some_spec {A} (l : list A) (test : A → Outcome bool) :
  (∀ a, a ∈ l → ∃ r, test a = Returned r) →
  ∃ r, for_some l test = Returned r ∧
       (r = true ↔ ∃ a, a ∈ l ∧ test a = Returned true).
Proof.
  induction l as [|a l IH]; intros Hret; simpl.
  - exists false. split; [done|]. split; [done|].
    by intros (a & ?%elem_of_nil & _).
  - destruct (Hret a (list_elem_of_here _ _)) as [[|] Ha]; rewrite Ha.
    + exists true. split; [done|]. split; [|done]. intros _.
      exists a. split; [apply list_elem_of_here|done].
    + destruct IH as (r & -> & Hr).
      { intros. apply Hret. by apply list_elem_of_further. }
      exists r. split; [done|]. rewrite Hr. split.
      * intros (x & Hx & Htx). exists x. split; [|done].
        by apply list_elem_of_further.
      * intros (x & [->|Hx]%elem_of_cons & Htx); [congruence|by exists x].
Qed.

(** The client's check of a piece and the server's enumeration for it. *)
Lemma pieceHasCaptures_spec g c row col p :
  board_shape (board g) →
  board_get (board g) row col = Returned (occupied p) → color p = c →
  ∃ r, pieceHasCaptures row col (mkClient (Some g) (Some c)) = Returned r ∧
       (r = true ↔ ∃ cap, capture_from (board g) p row col cap).
Proof.
  intros Hb Hget Hc. unfold pieceHasCaptures. simpl. rewrite Hget. simpl.
  rewrite Hc, bool_decide_eq_true_2 by done. simpl. rewrite <- Hc.
  destruct (for_some_spec (directions p) (λ '(dRow, dCol),
     if in_bounds (row + 2 * dRow) (col + 2 * dCol) then
       capturedPiece ← board_get (board g) (row + dRow) (col + dCol);
       landSquare ← board_get (board g) (row + 2 * dRow) (col + 2 * dCol);
       Returned (opposing capturedPiece (color p) && falsy landSquare)
     else Returned false)) as (r & Hr & Hiff).
  { intros [dr dc] Hd.
    destruct (in_bounds (row + 2 * dr) (col + 2 * dc)) eqn:Hin; [|by eexists].
    apply in_bounds_spec in Hin.
    destruct (board_get_defined _ _ _ _ Hb Hget) as [Hrow Hcol]; [done|].
    pose proof (directions_unit _ _ _ Hd) as [Hdr Hdc].
    destruct (board_get_row (board g) (row + dr) (col + dc) Hb) as [v ->];
      [lia|].
    destruct (board_get_row (board g) (row + 2 * dr) (col + 2 * dc) Hb)
      as [w ->]; [lia|].
    by eexists. }
  exists r. split; [exact Hr|]. rewrite Hiff. split.
  - intros ([dr dc] & Hd & Htest).
    destruct (in_bounds (row + 2 * dr) (col + 2 * dc)) eqn:Hin; [|done].
    destruct (board_get (board g) (row + dr) (col + dc)) as [v|] eqn:Hv;
      [|done].
    destruct (board_get (board g) (row + 2 * dr) (col + 2 * dc)) as [w|] eqn:Hw;
      [|done].
    simpl in Htest. injection Htest as Htest.
    apply andb_true_iff in Htest as [(q & -> & Hq)%opposing_spec Hfalsy].
    eexists. by exists dr, dc, q, w.
  - intros (cap & dr & dc & q & w & Hd & _ & Hin & Hq & Hqc & Hw & Hfalsy).
    exists (dr, dc). split; [done|]. rewrite Hin, Hq, Hw. simpl.
    rewrite Hfalsy, bool_decide_eq_false_2 by done. done.
Qed.

(** X18. The client's [hasMandatoryCaptures], on the state it received
    and for its own colour, is true exactly when the server's
    [getAvailableCaptures] lists a capture for that colour. *)
Theorem client_mandatory_captures g c :
  board_shape (board g) →
  ∃ cs,
    getAvailableCaptures (board g) c = Returned cs ∧
    hasMandatoryCaptures (mkClient (Some g) (Some c))
    = Returned (bool_decide (cs ≠ [])).
Proof.
  intros Hb.
  destruct (getAvailableCaptures_returns (board g) c Hb) as [cs Hcs].
  exists cs. split; [done|].
  pose proof (getAvailableCaptures_spec _ _ _ Hcs) as Hspec.
  unfold hasMandatoryCaptures. cbn [client_gameState playerColor].
  set (inner := λ row : Z, for_some (seqZ 0 8) (λ col,
        piece ← board_get (board g) row col;
        match piece with
        | occupied p =>
            if bool_decide (Some (color p) = Some c)
            then pieceHasCaptures row col (mkClient (Some g) (Some c))
            else Returned false
        | _ => Returned false
        end)).
  assert (∀ row col, 0 ≤ row < 8 → 0 ≤ col < 8 →
            ∃ r, (piece ← board_get (board g) row col;
                  match piece with
                  | occupied p =>
                      if bool_decide (Some (color p) = Some c)
                      then pieceHasCaptures row col (mkClient (Some g) (Some c))
                      else Returned false
                  | _ => Returned false
                  end) = Returned r ∧
                 (r = true ↔
                  ∃ p cap, board_get (board g) row col = Returned (occupied p) ∧
                           color p = c ∧ capture_from (board g) p row col cap))
    as Hsquare.
  { intros row col Hrow Hcol.
    destruct (board_get_inside (board g) row col Hb Hrow Hcol) as [[p|] Hget];
      rewrite Hget; simpl.
    - case_bool_decide as Hpc.
      + injection Hpc as Hpc.
        destruct (pieceHasCaptures_spec g c row col p Hb Hget Hpc)
          as (r & -> & Hr).
        exists r. split; [done|]. rewrite Hr. split.
        * intros [cap Hcap]. by exists p, cap.
        * intros (p' & cap & [= <-] & _ & Hcap). by exists cap.
      + exists false. split; [done|]. split; [done|].
        intros (p' & cap & [= <-] & <- & _). done.
    - exists false. split; [done|]. split; [done|].
      by intros (p' & cap & ? & _). }
  assert (∀ row, 0 ≤ row < 8 →
            ∃ r, inner row = Returned r ∧
                 (r = true ↔
                  ∃ col p cap, 0 ≤ col < 8 ∧
                    board_get (board g) row col = Returned (occupied p) ∧
                    color p = c ∧ capture_from (board g) p row col cap))
    as Hrow.
  { intros row Hr. unfold inner.
    destruct (for_some_spec (seqZ 0 8) (λ col,
        piece ← board_get (board g) row col;
        match piece with
        | occupied p =>
            if bool_decide (Some (color p) = Some c)
            then pieceHasCaptures row col (mkClient (Some g) (Some c))
            else Returned false
        | _ => Returned false
        end)) as (r & Hret & Hiff).
    { intros col Hcol%elem_of_seqZ.
      destruct (Hsquare row col Hr) as (r & -> & _); [lia|]. by eexists. }
    exists r. split; [done|]. rewrite Hiff. split.
    - intros (col & Hcol%elem_of_seqZ & Htest).
      destruct (Hsquare row col Hr) as (r' & Hr' & Hiff'); [lia|].
      rewrite Hr' in Htest. injection Htest as ->.
      destruct (proj1 Hiff' eq_refl) as (p & cap & ?). exists col, p, cap.
      split; [lia|done].
    - intros (col & p & cap & Hcol & Hrest). exists col.
      split; [apply elem_of_seqZ; lia|].
      destruct (Hsquare row col Hr Hcol) as (r' & -> & Hiff').
      f_equal. apply Hiff'. by exists p, cap. }
  destruct (for_some_spec (seqZ 0 8) inner) as (r & -> & Hiff).
  { intros row Hr%elem_of_seqZ.
    destruct (Hrow row) as (r & -> & _); [lia|]. by eexists. }
  f_equal. destruct r.
  - destruct (proj1 Hiff eq_refl) as (row & Hr%elem_of_seqZ & Htest).
    destruct (Hrow row) as (r' & Hr' & Hiff'); [lia|].
    rewrite Hr' in Htest. injection Htest as ->.
    destruct (proj1 Hiff' eq_refl) as (col & p & cap & Hcol & Hget & Hpc & Hcap).
    assert (cap ∈ cs) as Hin.
    { apply Hspec. exists row, col, p. split_all; try done; lia. }
    symmetry. apply bool_decide_eq_true. intros ->. by apply elem_of_nil in Hin.
  - symmetry. apply bool_decide_eq_false. intros Hne. apply Hne.
    destruct cs as [|cap cs]; [done|exfalso].
    destruct (proj1 (Hspec cap) (list_elem_of_here _ _))
      as (row & col & p & Hr & Hc & Hget & Hpc & Hcap).
    assert (false = true); [|done]. apply Hiff.
    exists row. split; [apply elem_of_seqZ; lia|].
    destruct (Hrow row Hr) as (r' & -> & Hiff').
    f_equal. apply Hiff'. by exists col, p, cap.
Qed.

Lemma client_mandatory_captures_witness :
  board_shape (board capture_offered) ∧
  ∃ cs,
    getAvailableCaptures (board capture_offered) red = Returned cs ∧
    hasMandatoryCaptures (mkClient (Some capture_offered) (Some red))
    = Returned (bool_decide (cs ≠ [])).
Proof.
  assert (board_shape (board capture_offered)) as Hb.
  { apply reachable_board_wf, reachable_run, reachable_new. }
  split; [exact Hb|]. exact (client_mandatory_captures _ red Hb).
Defined.

(** X19. The client keeps the moves the server offers in display
    coordinates; a click on the square of the server coordinates [(r, c)],
    which [updateBoard] shows at the display coordinates of [(r, c)], counts
    as a possible move exactly when [(r, c)] is among the offered moves, for
    either orientation of the board. *)
Theorem clicked_square_is_offered this moves r c :
  isPossibleMove (handlePossibleMoves moves this)
    (toDisplay this r) (toDisplay this c) = true
  ↔ mkPos r c ∈ moves.
Proof.
  unfold isPossibleMove, handlePossibleMoves. rewrite existsb_exists.
  split.
  - intros (m & Hin & Heq).
    apply list_elem_of_In, list_elem_of_fmap in Hin as ([mr mc] & -> & Hin).
    simpl in Heq. apply andb_true_iff in Heq as [Hr%Z.eqb_eq Hc%Z.eqb_eq].
    unfold toDisplay in *.
    assert (mr = r ∧ mc = c) as [-> ->]; [|done].
    case_bool_decide; lia.
  - intros Hin. exists (mkPos (toDisplay this r) (toDisplay this c)).
    split; [|simpl; by rewrite !Z.eqb_refl].
    apply list_elem_of_In, list_elem_of_fmap. by exists (mkPos r c).
Qed.

Lemma updateBoard_squares g color squares :
  updateBoard (mkClient (Some g) color) = Returned squares →
  ∀ sq, sq ∈ squares ↔
    ∃ r c v,
      0 ≤ r < 8 ∧ 0 ≤ c < 8 ∧ board_get (board g) r c = Returned v ∧
      sq = mkSquare (toDisplay (mkClient (Some g) color) r)
                    (toDisplay (mkClient (Some g) color) c) r c
             (if (toDisplay (mkClient (Some g) color) r
                  + toDisplay (mkClient (Some g) color) c) `rem` 2 =? 0
              then light else dark)
             (match v with occupied p => Some p | _ => None end).
Proof.
  unfold updateBoard. cbn [client_gameState]. intros Hrun.
  set (this := mkClient (Some g) color) in *.
  set (P := λ (r : Z) (sq : Square), ∃ c v,
       0 ≤ c < 8 ∧ board_get (board g) r c = Returned v ∧
       sq = mkSquare (toDisplay this r) (toDisplay this c) r c
              (if (toDisplay this r + toDisplay this c) `rem` 2 =? 0
               then light else dark)
              (match v with occupied p => Some p | _ => None end)).
  assert (∀ sq, sq ∈ squares ↔ ∃ r, r ∈ seqZ 0 8 ∧ P r sq) as Hspec.
  { apply (for_of_elem_of P _ _ _ Hrun).
    intros r s s' _ Hinner.
    apply (for_of_appends
      (λ c sq, ∃ v,
         board_get (board g) r c = Returned v ∧
         sq = mkSquare (toDisplay this r) (toDisplay this c) r c
                (if (toDisplay this r + toDisplay this c) `rem` 2 =? 0
                 then light else dark)
                (match v with occupied p => Some p | _ => None end))) in Hinner
      as (xs & -> & Hxs).
    - exists xs. split; [done|]. intros x. rewrite Hxs. unfold P. split.
      + intros (c & Hc%elem_of_seqZ & v & ? & ?). exists c, v.
        split; [lia|done].
      + intros (c & v & Hc & ? & ?). exists c.
        split; [apply elem_of_seqZ; lia|]. by exists v.
    - intros c s1 s2 _.
      destruct (board_get (board g) r c) as [v|] eqn:Hv; [|done]. simpl.
      destruct v as [| |p]; intros [= <-]; eexists; (split; [done|]);
        intros x; rewrite list_elem_of_singleton;
        (split; [intros ->; by eexists|by intros (? & [= <-] & ->)]). }
  intros sq. rewrite Hspec. unfold P. split.
  - intros (r & Hr%elem_of_seqZ & c & v & ?). exists r, c, v.
    split; [lia|done].
  - intros (r & c & v & Hr & ?). exists r.
    split; [apply elem_of_seqZ; lia|]. by exists c, v.
Qed.

Lemma display_parity this r c :
  0 ≤ r < 8 → 0 ≤ c < 8 → (r + c) `rem` 2 = 1 →
  ((toDisplay this r + toDisplay this c) `rem` 2 =? 0) = false.
Proof.
  intros Hr Hc Hodd. apply Z.eqb_neq. unfold toDisplay.
  case_bool_decide; [|by rewrite Hodd].
  replace (7 - r + (7 - c)) with (r + c + 2 * (7 - r - c)) by lia.
  apply rem_shift; [lia..|done].
Qed.

(** X20. For a reachable session and either orientation, [updateBoard]
    gives every square that has a piece the class ['dark'], and every piece
    of the board is on the square of its server coordinates. *)
Theorem pieces_drawn_on_dark_squares g color :
  reachable g →
  ∃ squares,
    updateBoard (mkClient (Some g) color) = Returned squares ∧
    (∀ sq, sq ∈ squares → is_Some (square_piece sq) → square_class sq = dark) ∧
    (∀ r c p,
       board_get (board g) r c = Returned (occupied p) →
       mkSquare (toDisplay (mkClient (Some g) color) r)
                (toDisplay (mkClient (Some g) color) c) r c dark (Some p)
       ∈ squares).
Proof.
  intros Hreach. destruct (reachable_board_wf _ Hreach) as [Hb Hdark].
  assert (∃ squares, updateBoard (mkClient (Some g) color) = Returned squares) as [squares Hrun].
  { unfold updateBoard. cbn [client_gameState].
    apply (scan_returns (board g)
             (λ row col piece squares,
                match piece with
                | occupied p =>
                    Returned (squares ++
                      [mkSquare (toDisplay (mkClient (Some g) color) row) (toDisplay (mkClient (Some g) color) col) row
                         col
                         (square_class
                            (createSquare (toDisplay (mkClient (Some g) color) row)
                               (toDisplay (mkClient (Some g) color) col) row col))
                         (Some p)])
                | _ =>
                    Returned (squares ++
                      [createSquare (toDisplay (mkClient (Some g) color) row) (toDisplay (mkClient (Some g) color) col)
                         row col])
                end)); [done|by eexists..]. }
  exists squares. split; [done|].
  pose proof (updateBoard_squares g color squares Hrun) as Hspec.
  split.
  - intros sq (r & c & v & Hr & Hc & Hv & ->)%Hspec [p Hp]. simpl in *.
    destruct v as [| |q]; [done..|].
    by rewrite (display_parity (mkClient (Some g) color) r c Hr Hc (Hdark _ _ _ Hv)).
  - intros r c p Hget. apply Hspec.
    destruct (board_get_defined _ _ _ _ Hb Hget) as [Hr Hc]; [done|].
    exists r, c, (occupied p). split_all; try lia; try done.
    by rewrite (display_parity (mkClient (Some g) color) r c Hr Hc (Hdark _ _ _ Hget)).
Qed.

Lemma pieces_drawn_on_dark_squares_witness :
  reachable mid_chain ∧
  ∃ squares,
    updateBoard (mkClient (Some mid_chain) (Some red)) = Returned squares ∧
    (∀ sq, sq ∈ squares → is_Some (square_piece sq) → square_class sq = dark) ∧
    (∀ r c p,
       board_get (board mid_chain) r c = Returned (occupied p) →
       mkSquare (toDisplay (mkClient (Some mid_chain) (Some red)) r)
                (toDisplay (mkClient (Some mid_chain) (Some red)) c) r c dark
                (Some p)
       ∈ squares).
Proof.
  assert (reachable mid_chain) as Hreach.
  { apply reachable_run, reachable_new. }
  split; [exact Hreach|].
  exact (pieces_drawn_on_dark_squares mid_chain (Some red) Hreach).
Defined.

(** ** The controller and the handlers *)

(** X21. [createRoom] returns the code it drew; [getRoomInfo] of that code
    then reports no player and the state ['waiting'], [getGame] gives a
    fresh game, whatever was stored under the code before, and the other
    codes are as they were. *)
Theorem createRoom_getRoomInfo code now this :
  (createRoom code now this).1 = code ∧
  getRoomInfo code (createRoom code now this).2
    = Some (mkRoomInfo code 0 waiting) ∧
  getGame code (createRoom code now this).2 = Some (new_CheckersGame code) ∧
  ∀ code', code' ≠ code →
    getRoomInfo code' (createRoom code now this).2 = getRoomInfo code' this ∧
    getGame code' (createRoom code now this).2 = getGame code' this.
Proof.
  unfold getRoomInfo, getGame, createRoom. simpl.
  rewrite lookup_insert_eq. split_all; try done.
  intros code' Hne. by rewrite lookup_insert_ne.
Qed.

Lemma cleanupOldRooms_lookup this maxAgeHours now code :
  let cutoffTime := now - maxAgeHours * 60 * 60 * 1000 in
  let old := match rooms this !! code with
             | Some room => bool_decide (created room < cutoffTime)
             | None => false
             end in
  getGame code (cleanupOldRooms this maxAgeHours now)
    = (if old then None else getGame code this) ∧
  rooms (cleanupOldRooms this maxAgeHours now) !! code
    = (if old then None else rooms this !! code).
Proof.
  intros cutoffTime old. unfold getGame, cleanupOldRooms. simpl.
  fold cutoffTime. change old with (expired (rooms this) cutoffTime code).
  rewrite !map_lookup_filter.
  destruct (expired (rooms this) cutoffTime code) eqn:Hold.
  - split.
    + destruct (games this !! code); simpl; [|done].
      rewrite option_guard_False; [done|]. simpl. by rewrite Hold.
    + destruct (rooms this !! code); simpl; [|done].
      rewrite option_guard_False; [done|]. simpl. by rewrite Hold.
  - split.
    + destruct (games this !! code); simpl; [|done].
      by rewrite option_guard_True.
    + destruct (rooms this !! code); simpl; [|done].
      by rewrite option_guard_True.
Qed.

Lemma set_game_wf code game game' s :
  server_wf s → games (gameController s) !! code = Some game →
  reachable game' → server_wf (set_game code game' s).
Proof.
  intros [Hgames Hdom] Hcode Hreach. split; simpl.
  - intros code' g. destruct (decide (code' = code)) as [->|Hne].
    + rewrite lookup_insert_eq. by intros [= <-].
    + rewrite lookup_insert_ne by done. apply Hgames.
  - rewrite dom_insert_L, <- Hdom.
    apply elem_of_dom_2 in Hcode. apply subseteq_union_1_L.
    by apply singleton_subseteq_l.
Qed.

Lemma with_game_wf id k s :
  server_wf s →
  (∀ code game,
     games (gameController s) !! code = Some game → reachable game →
     server_wf (k code game s).2) →
  server_wf (with_game id k s).2.
Proof.
  intros Hwf Hk. unfold with_game.
  destruct (socket_roomCode s !! id) as [code|]; [|done].
  case_bool_decide; [done|]. unfold getGame.
  destruct (games (gameController s) !! code) as [game|] eqn:Hgame; [|done].
  apply Hk; [done|]. by eapply (proj1 Hwf).
Qed.

Lemma cleanupRoom_wf code gc sockets :
  server_wf (mkServer gc sockets) →
  server_wf (mkServer (cleanupRoom code gc) sockets).
Proof.
  intros [Hgames Hdom]. unfold cleanupRoom. simpl in *.
  destruct (games gc !! code) as [game|]; [|done].
  destruct (length (players game) =? 0)%nat; [|done].
  split; simpl.
  - intros code' g Hg. apply lookup_delete_Some in Hg as [_ Hg]. by eapply Hgames.
  - by rewrite !dom_delete_L, Hdom.
Qed.

Lemma server_exec_wf e s : server_wf s → server_wf (server_exec e s).
Proof.
  intros Hwf.
  destruct e as [code now|connected socketId code playerName
                |socketId fromRow fromCol toRow toCol|socketId choice
                |connected socketId|socketId|socketId r c|socketId|h now];
    simpl.
  - destruct Hwf as [Hgames Hdom]. split; simpl.
    + intros code' g. destruct (decide (code' = code)) as [->|Hne].
      * rewrite lookup_insert_eq. intros [= <-]. apply reachable_new.
      * rewrite lookup_insert_ne by done. apply Hgames.
    + by rewrite !dom_insert_L, Hdom.
  - unfold handleJoinRoom, getGame.
    destruct (games (gameController s) !! code) as [game|] eqn:Hgame; [|done].
    destruct (addPlayer socketId playerName game) as [success game'] eqn:Hadd.
    assert (server_wf (set_game code game' s)) as Hwf'.
    { apply (set_game_wf _ game); [done..|].
      replace game' with (exec (AddPlayer socketId playerName) game)
        by (simpl; by rewrite Hadd).
      apply reachable_exec. by eapply (proj1 Hwf). }
    by destruct success as [[|]|].
  - apply with_game_wf; [done|]. intros code game Hgame Hreach.
    unfold handleMakeMove.
    destruct (makeMove fromRow fromCol toRow toCol socketId game)
      as [result game'] eqn:Hmove.
    assert (server_wf (set_game code game' s)) as Hwf'.
    { apply (set_game_wf _ game); [done..|].
      replace game' with
        (exec (MakeMove fromRow fromCol toRow toCol socketId) game)
        by (simpl; by rewrite Hmove).
      by apply reachable_exec. }
    by destruct result as [[|]|].
  - apply with_game_wf; [done|]. intros code game Hgame Hreach.
    destruct (selectTurnOrder socketId choice game) as [result game'] eqn:Hsel.
    assert (server_wf (set_game code game' s)) as Hwf'.
    { apply (set_game_wf _ game); [done..|].
      replace game' with (exec (SelectTurnOrder socketId choice) game)
        by (simpl; by rewrite Hsel).
      by apply reachable_exec. }
    by destruct result as [[|]|].
  - apply with_game_wf; [done|]. intros code game Hgame Hreach.
    destruct (requestNewGame socketId game) as [result game'] eqn:Hreq.
    assert (server_wf (set_game code game' s)) as Hwf'.
    { apply (set_game_wf _ game); [done..|].
      replace game' with (exec (RequestNewGame socketId) game)
        by (simpl; by rewrite Hreq).
      by apply reachable_exec. }
    by destruct result as [[| |]|].
  - apply with_game_wf; [done|]. intros code game Hgame Hreach.
    apply (set_game_wf _ game); [done..|].
    by apply (reachable_exec (CancelNewGameRequest socketId)).
  - apply with_game_wf; [done|]. intros code game Hgame Hreach.
    by destruct (possible_moves r c socketId game).
  - apply with_game_wf; [done|]. intros code game Hgame Hreach.
    destruct (removePlayer socketId game) as [result game'] eqn:Hrem.
    assert (server_wf (set_game code game' s)) as Hwf'.
    { apply (set_game_wf _ game); [done..|].
      replace game' with (exec (RemovePlayer socketId) game)
        by (simpl; by rewrite Hrem).
      by apply reachable_exec. }
    destruct result as [|]; [|done]. simpl.
    by apply (cleanupRoom_wf code _ (socket_roomCode s)).
  - destruct Hwf as [Hgames Hdom]. split; simpl.
    + intros code g [Hg _]%map_lookup_filter_Some. by eapply Hgames.
    + apply set_eq. intros code. rewrite !elem_of_dom.
      unfold is_Some. setoid_rewrite map_lookup_filter_Some. simpl.
      split.
      * intros (g & Hg & Hold).
        assert (code ∈ dom (rooms (gameController s))) as [r Hr]%elem_of_dom.
        { rewrite <- Hdom. by apply elem_of_dom_2 in Hg. }
        by exists r.
      * intros (r & Hr & Hold).
        assert (code ∈ dom (games (gameController s))) as [g Hg]%elem_of_dom.
        { rewrite Hdom. by apply elem_of_dom_2 in Hr. }
        by exists g.
Qed.

Lemma server_reachable_wf s : server_reachable s → server_wf s.
Proof.
  induction 1 as [|e s _ IH]; [|by apply server_exec_wf].
  split; [|done]. intros code game Hgame. simpl in Hgame.
  by rewrite lookup_empty in Hgame.
Qed.

Lemma server_reachable_foldl es s :
  server_reachable s → server_reachable (foldl (λ s e, server_exec e s) s es).
Proof.
  revert s. induction es as [|e es IH]; intros s Hs; simpl; [done|].
  by apply IH, server_step.
Qed.

(** X22. Whatever rooms are created and cleaned up and whatever events the
    sockets send, every game the controller holds is a session that a fresh
    game reaches by the methods of the class, and its code has an entry in
    [rooms]. *)
Theorem server_games_reachable s code game :
  server_reachable s →
  getGame code (gameController s) = Some game →
  reachable game ∧ is_Some (rooms (gameController s) !! code).
Proof.
  intros [Hgames Hdom]%server_reachable_wf Hgame. unfold getGame in Hgame.
  split; [by eapply Hgames|].
  apply elem_of_dom. rewrite <- Hdom. by apply elem_of_dom_2 in Hgame.
Qed.

Lemma server_games_reachable_witness :
  server_reachable playing_server ∧
  getGame "ROOM" (gameController playing_server) = Some capture_offered ∧
  reachable capture_offered ∧
  is_Some (rooms (gameController playing_server) !! "ROOM").
Proof.
  assert (server_reachable playing_server) as Hreach.
  { apply server_reachable_foldl, server_new. }
  assert (getGame "ROOM" (gameController playing_server)
          = Some capture_offered) as Hgame by (vm_compute; reflexivity).
  split; [exact Hreach|]. split; [exact Hgame|].
  exact (server_games_reachable playing_server "ROOM" capture_offered
           Hreach Hgame).
Defined.

Lemma sum_players_bound (gs : list CheckersGame) n :
  Forall reachable gs →
  (foldl (λ total game, total + length (players game)) n gs
   ≤ n + 2 * length gs)%nat.
Proof.
  revert n. induction gs as [|g gs IH]; intros n Hall; simpl; [lia|].
  apply Forall_cons in Hall as [Hg Hall].
  destruct (reachable_players g Hg) as [Hlen _].
  specialize (IH (n + length (players g))%nat Hall). lia.
Qed.

(** X23. The [totalPlayers] that [getStats] reports is at most twice its
    [activeRooms]. *)
Theorem stats_bound s :
  server_reachable s →
  ((getStats (gameController s)).2 ≤ 2 * (getStats (gameController s)).1)%nat.
Proof.
  intros [Hgames _]%server_reachable_wf. unfold getStats. simpl.
  pose proof (sum_players_bound (map_to_list (games (gameController s))).*2 0)
    as Hsum.
  rewrite length_fmap, length_map_to_list in Hsum. apply Hsum.
  apply Forall_forall. intros g [[code g'] [-> Hin]]%list_elem_of_fmap.
  apply elem_of_map_to_list in Hin. by eapply Hgames.
Qed.

Lemma stats_bound_witness :
  server_reachable playing_server ∧
  getStats (gameController playing_server) = (1%nat, 2%nat) ∧
  ((getStats (gameController playing_server)).2
   ≤ 2 * (getStats (gameController playing_server)).1)%nat.
Proof.
  assert (server_reachable playing_server) as Hreach.
  { apply server_reachable_foldl, server_new. }
  split; [exact Hreach|]. split; [vm_compute; reflexivity|].
  exact (stats_bound playing_server Hreach).
Defined.

Lemma set_game_id code game s :
  games (gameController s) !! code = Some game → set_game code game s = s.
Proof.
  intros Hgame. destruct s as [[gs rs] sockets]. unfold set_game. simpl in *.
  by rewrite insert_id.
Qed.

(** X24. The ['make-move'] handler either emits nothing and changes
    nothing (the socket has no room, or the room is gone), or answers a
    refused move by one ['move-error'] to the requesting socket alone,
    with the server unchanged, or stores the game after an accepted move and
    emits ['move-made'] to the room, followed by ['game-over'] exactly when
    the result carries a winner; when it raises, the server is unchanged. *)
Theorem move_answers s socketId fr fc tr tc :
  server_reachable s →
  (∀ emits s',
     handleMakeMove socketId fr fc tr tc s = (Returned emits, s') →
     (emits = [] ∧ s' = s) ∨
     (∃ reason,
        emits = [to_socket socketId (ev_move_error reason)] ∧ s' = s) ∨
     (∃ code game game' cp pr ct w gs,
        socket_roomCode s !! socketId = Some code ∧
        getGame code (gameController s) = Some game ∧
        makeMove fr fc tr tc socketId game
          = (Returned (move_accepted cp pr ct w gs), game') ∧
        s' = set_game code game' s ∧
        emits = to_room code (ev_move_made fr fc tr tc cp pr game')
                :: match w with
                   | Some c => [to_room code (ev_game_over c game')]
                   | None => []
                   end)) ∧
  (∀ s', handleMakeMove socketId fr fc tr tc s = (TypeError, s') → s' = s).
Proof.
  intros Hreach. pose proof (server_reachable_wf _ Hreach) as [Hgames _].
  unfold handleMakeMove, with_game.
  destruct (socket_roomCode s !! socketId) as [code|] eqn:Hcode.
  2:{ split; [|done]. intros emits s' [= <- <-]. by left. }
  case_bool_decide.
  { split; [|done]. intros emits s' [= <- <-]. by left. }
  unfold getGame.
  destruct (games (gameController s) !! code) as [game|] eqn:Hgame.
  2:{ split; [|done]. intros emits s' [= <- <-]. by left. }
  destruct (reachable_board_wf _ (Hgames _ _ Hgame)) as [Hb _].
  destruct (makeMove_cases fr fc tr tc socketId game Hb)
    as [[_ ->]|[(reason & _ & ->)
               |(v & cp & pr & ct & w & gs & game' & _ & _ & Hmove)]].
  - rewrite set_game_id by done. split; [done|]. by intros s' [= <-].
  - rewrite set_game_id by done. split; [|done].
    intros emits s' [= <- <-]. right. left. by exists reason.
  - rewrite Hmove. split; [|done]. intros emits s' [= <- <-]. right. right.
    by exists code, game, game', cp, pr, ct, w, gs.
Qed.

Lemma move_answers_witness :
  server_reachable playing_server ∧
  handleMakeMove "A" 3 2 4 1 playing_server
    = (Returned [to_socket "A" (ev_move_error "Must capture when possible")],
       playing_server) ∧
  (∀ s', handleMakeMove "A" 3 2 4 1 playing_server = (TypeError, s') →
         s' = playing_server).
Proof.
  assert (server_reachable playing_server) as Hreach.
  { apply server_reachable_foldl, server_new. }
  split; [exact Hreach|]. split; [vm_compute; reflexivity|].
  exact (proj2 (move_answers playing_server "A" 3 2 4 1 Hreach)).
Defined.

Lemma selectTurnOrder_cases id choice this :
  (selectTurnOrder id choice this = (TypeError, this)) ∨
  (∃ reason,
     selectTurnOrder id choice this
     = (Returned (turn_order_rejected reason), this)) ∨
  (∃ starting nm this',
     selectTurnOrder id choice this
     = (Returned (turn_order_selected starting nm), this') ∧
     gameState this' = playing).
Proof.
  destruct this as [rc ps cp gs w bd mc cpc reqs sel wt].
  unfold selectTurnOrder. run_method.
  destruct (bool_decide (sel = Some id) && wt); simpl;
    [|right; left; by eexists].
  destruct (players_get ps id) as [p|];
    repeat (case_bool_decide; simplify_eq/=);
    first [by left | right; left; by eexists | right; right; by eexists _, _, _].
Qed.

(** X25. The ['select-turn-order'] handler either emits nothing and
    changes nothing (the socket has no room, or the room is gone), or
    answers a refusal by one ['move-error'] to the requesting socket alone,
    with the server unchanged, or stores the game, now ['playing'], and
    emits ['turn-order-selected'] to the room; when it raises, the server is
    unchanged. *)
Theorem turn_order_answers s socketId choice :
  (∀ emits s',
     handleSelectTurnOrder socketId choice s = (Returned emits, s') →
     (emits = [] ∧ s' = s) ∨
     (∃ reason,
        emits = [to_socket socketId (ev_move_error reason)] ∧ s' = s) ∨
     (∃ code game game' starting nm,
        socket_roomCode s !! socketId = Some code ∧
        getGame code (gameController s) = Some game ∧
        selectTurnOrder socketId choice game
          = (Returned (turn_order_selected starting nm), game') ∧
        gameState game' = playing ∧
        s' = set_game code game' s ∧
        emits = [to_room code
                   (ev_turn_order_selected choice starting nm game')])) ∧
  (∀ s', handleSelectTurnOrder socketId choice s = (TypeError, s') → s' = s).
Proof.
  unfold handleSelectTurnOrder, with_game.
  destruct (socket_roomCode s !! socketId) as [code|] eqn:Hcode.
  2:{ split; [|done]. intros emits s' [= <- <-]. by left. }
  case_bool_decide.
  { split; [|done]. intros emits s' [= <- <-]. by left. }
  unfold getGame.
  destruct (games (gameController s) !! code) as [game|] eqn:Hgame.
  2:{ split; [|done]. intros emits s' [= <- <-]. by left. }
  destruct (selectTurnOrder_cases socketId choice game)
    as [Hsel|[(reason & Hsel)|(starting & nm & game' & Hsel & Hplaying)]];
    rewrite Hsel.
  - rewrite set_game_id by done. split; [done|]. by intros s' [= <-].
  - rewrite set_game_id by done. split; [|done].
    intros emits s' [= <- <-]. right. left. by exists reason.
  - split; [|done]. intros emits s' [= <- <-]. right. right.
    by exists code, game, game', starting, nm.
Qed.

(** X26. In a room of two players without pending requests, the request
    of a new game by one socket is announced to the room under the
    requester's name and recorded; the request of another socket of the
    room then resets the game, announces ['game-reset'] to the room and tells
    the turn order selector, if that socket is connected, to choose. *)
Theorem new_game_events connected s a b code game :
  socket_roomCode s !! a = Some code →
  socket_roomCode s !! b = Some code → code ≠ "" →
  getGame code (gameController s) = Some game →
  length (players game) = 2%nat → newGameRequests game = ∅ → a ≠ b →
  let requested := set_newGameRequests {[a]} game in
  let agreed := reset game in
  handleRequestNewGame connected a s
  = (Returned [to_room code
                 (ev_new_game_requested (requesterName game a) requested)],
     set_game code requested s) ∧
  handleRequestNewGame connected b (set_game code requested s)
  = (Returned
       (to_room code
          (ev_game_reset agreed "Both players agreed to start a new game!")
        :: match turnOrderSelector agreed with
           | Some selector =>
               if negb (bool_decide (selector = ""))
               then notify_selector connected selector
               else []
           | None => []
           end),
     set_game code agreed s) ∧
  board agreed = initializeBoard ∧
  gameState agreed = turn_selection ∧
  newGameRequests agreed = ∅.
Proof.
  intros Ha Hb Hne Hgame Htwo Hnone Hab requested agreed.
  assert (requestNewGame a game = (Returned waiting_for_other, requested))
    as Hfirst.
  { rewrite requestNewGame_unfold, Htwo, Hnone.
    rewrite (left_id_L ∅ (∪)), size_singleton. done. }
  assert (requestNewGame b requested = (Returned approved_both_agreed, agreed))
    as Hsecond.
  { rewrite requestNewGame_unfold.
    change (players requested) with (players game).
    change (newGameRequests requested) with ({[a]} : gset string).
    rewrite Htwo, size_union, !size_singleton by set_solver.
    simpl. by rewrite resetGame_reset. }
  split_all.
  - unfold handleRequestNewGame, with_game.
    rewrite Ha, bool_decide_eq_false_2, Hgame, Hfirst by done. done.
  - unfold handleRequestNewGame, with_game. simpl.
    rewrite Hb, bool_decide_eq_false_2 by done.
    unfold getGame. simpl. rewrite lookup_insert_eq, Hsecond.
    assert (waitingForTurnOrderSelection agreed = true) as ->
      by (unfold agreed, reset; simpl; by rewrite Htwo).
    unfold set_game. simpl. by rewrite insert_insert_eq.
  - done.
  - unfold agreed, reset. simpl. by rewrite Htwo.
  - done.
Qed.

Lemma new_game_events_witness :
  socket_roomCode playing_server !! "A" = Some "ROOM" ∧
  socket_roomCode playing_server !! "B" = Some "ROOM" ∧
  getGame "ROOM" (gameController playing_server) = Some capture_offered ∧
  handleRequestNewGame (λ _, true) "A" playing_server
  = (Returned [to_room "ROOM"
                 (ev_new_game_requested "Ann"
                    (set_newGameRequests {["A"]} capture_offered))],
     set_game "ROOM" (set_newGameRequests {["A"]} capture_offered)
       playing_server) ∧
  turnOrderSelector (reset capture_offered) = Some "A".
Proof.
  assert (socket_roomCode playing_server !! "A" = Some "ROOM") as Ha
    by (vm_compute; reflexivity).
  assert (socket_roomCode playing_server !! "B" = Some "ROOM") as Hb
    by (vm_compute; reflexivity).
  assert (getGame "ROOM" (gameController playing_server)
          = Some capture_offered) as Hgame by (vm_compute; reflexivity).
  destruct (new_game_events (λ _, true) playing_server "A" "B" "ROOM"
              capture_offered Ha Hb ltac:(done) Hgame)
    as (Hfirst & _); [vm_compute; reflexivity..|done|].
  split; [exact Ha|]. split; [exact Hb|]. split; [exact Hgame|].
  split; [exact Hfirst|]. vm_compute. reflexivity.
Defined.

Lemma removePlayer_returns id game :
  ∃ game', removePlayer id game = (Returned (), game') ∧
           players game' = players_delete (players game) id.
Proof.
  unfold removePlayer. run_method.
  destruct (length (players_delete (players game) id) =? 0)%nat;
    by eexists.
Qed.

(** X27. When a socket that has a room disconnects, it is removed from the
    players of the game, the room is told who is left, and the game stays
    under its code exactly when a player is left; the other rooms are
    untouched. *)
Theorem disconnect_closes_empty_room s id code game :
  socket_roomCode s !! id = Some code → code ≠ "" →
  getGame code (gameController s) = Some game →
  ∃ game',
    removePlayer id game = (Returned (), game') ∧
    (handleDisconnect id s).1
      = Returned [to_room code (ev_player_left (players game') game')] ∧
    getGame code (gameController (handleDisconnect id s).2)
      = (if (length (players game') =? 0)%nat then None else Some game') ∧
    ∀ code', code' ≠ code →
      getGame code' (gameController (handleDisconnect id s).2)
      = getGame code' (gameController s).
Proof.
  intros Hcode Hne Hgame.
  destruct (removePlayer_returns id game) as (game' & Hrem & Hplayers).
  exists game'. split; [done|].
  unfold handleDisconnect, with_game.
  rewrite Hcode, bool_decide_eq_false_2, Hgame, Hrem by done. simpl.
  split; [done|]. unfold getGame, cleanupRoom. simpl.
  rewrite lookup_insert_eq.
  destruct (length (players game') =? 0)%nat eqn:Hempty; simpl.
  - rewrite lookup_delete_eq. split; [done|]. intros code' Hne'.
    by rewrite lookup_delete_ne, lookup_insert_ne.
  - rewrite lookup_insert_eq. split; [done|]. intros code' Hne'.
    by rewrite lookup_insert_ne.
Qed.

Lemma disconnect_closes_empty_room_witness :
  socket_roomCode playing_server !! "A" = Some "ROOM" ∧
  getGame "ROOM" (gameController playing_server) = Some capture_offered ∧
  ∃ game',
    removePlayer "A" capture_offered = (Returned (), game') ∧
    (handleDisconnect "A" playing_server).1
      = Returned [to_room "ROOM" (ev_player_left (players game') game')] ∧
    getGame "ROOM" (gameController (handleDisconnect "A" playing_server).2)
      = (if (length (players game') =? 0)%nat then None else Some game').
Proof.
  assert (socket_roomCode playing_server !! "A" = Some "ROOM") as Hcode
    by (vm_compute; reflexivity).
  assert (getGame "ROOM" (gameController playing_server)
          = Some capture_offered) as Hgame by (vm_compute; reflexivity).
  destruct (disconnect_closes_empty_room playing_server "A" "ROOM"
              capture_offered Hcode ltac:(done) Hgame)
    as (game' & Hrem & Hemit & Hroom & _).
  split; [exact Hcode|]. split; [exact Hgame|].
  exists game'. split_all; assumption.
Defined.

(** The last player leaves: the room is gone and cannot be joined again. *)
Example last_player_leaves :
  let s := foldl (λ s e, server_exec e s) new_Server
             [CreateRoom "ROOM" 0; JoinRoom (λ _, true) "A" "ROOM" "Ann";
              Disconnect "A"] in
  getGame "ROOM" (gameController s) = None ∧
  (handleJoinRoom (λ _, true) "B" "ROOM" "Bob" s).1
  = Returned [to_socket "B" (ev_error "Room not found")].
Proof. cbv zeta. by_computation. Qed.

Lemma addPlayer_full id n game :
  (2 ≤ length (players game))%nat → addPlayer id n game = (Returned false, game).
Proof.
  destruct game as [rc ps cp gs w bd mc cpc reqs sel wt]. simpl.
  destruct ps as [|? [|? ?]]; simpl; [lia..|done].
Qed.

Lemma addPlayer_not_full id n game :
  (length (players game) < 2)%nat →
  (addPlayer id n game).1 ≠ Returned false.
Proof.
  destruct game as [rc ps cp gs w bd mc cpc reqs sel wt]. simpl.
  unfold addPlayer. run_method.
  destruct ps as [|[b pb] [|? ?]]; simpl; [done| |lia].
  intros _. case_bool_decide; simpl; [done|].
  unfold find_red. simpl. by repeat case_match.
Qed.

(** X28. ['join-room'] for a code without a game answers ['Room not
    found'] and for a game with two players ['Room is full'], to the socket
    alone and without changing the server; when it succeeds, the socket has
    the room code, the game stored under the code has the socket among its
    players, red if it is the first and black otherwise, and the room is
    told of the new player. *)
Theorem join_refused s connected id code n :
  (getGame code (gameController s) = None →
   handleJoinRoom connected id code n s
   = (Returned [to_socket id (ev_error "Room not found")], s)) ∧
  (∀ game,
     getGame code (gameController s) = Some game →
     (2 ≤ length (players game))%nat →
     handleJoinRoom connected id code n s
     = (Returned [to_socket id (ev_error "Room is full")], s)) ∧
  (∀ game emits s',
     getGame code (gameController s) = Some game →
     (length (players game) < 2)%nat →
     handleJoinRoom connected id code n s = (Returned emits, s') →
     socket_roomCode s' !! id = Some code ∧
     ∃ game',
       getGame code (gameController s') = Some game' ∧
       players game' = players_set (players game) id
         (mkPlayer n (if (length (players game) =? 0)%nat then red else black)) ∧
       to_room code (ev_player_joined (players game') game') ∈ emits).
Proof.
  unfold handleJoinRoom. split_all.
  - by intros ->.
  - intros game Hgame Hfull. rewrite Hgame.
    rewrite addPlayer_full by done. by rewrite set_game_id.
  - intros game emits s' -> Hroom.
    pose proof (addPlayer_players id n game) as Hplayers.
    rewrite (proj2 (Nat.leb_gt _ _) Hroom) in Hplayers.
    destruct (addPlayer id n game) as [[[|]|] game'] eqn:Hadd; simpl in *.
    + intros [= <- <-]. simpl. rewrite lookup_insert_eq. split; [done|].
      exists game'. unfold getGame. simpl. rewrite lookup_insert_eq.
      split_all; [done..|]. apply list_elem_of_here.
    + exfalso. apply (addPlayer_not_full id n game Hroom). by rewrite Hadd.
    + done.
Qed.

(** X29. [cleanupOldRooms] drops a room created before the cutoff whether
    or not players are in it: [getRoomInfo] then finds nothing under the
    code, and a move sent by a socket of that room is ignored without any
    answer. *)
Theorem old_room_is_dropped s maxAgeHours now id code room fr fc tr tc :
  socket_roomCode s !! id = Some code →
  rooms (gameController s) !! code = Some room →
  created room < now - maxAgeHours * 60 * 60 * 1000 →
  let s' := server_exec (CleanupOldRooms maxAgeHours now) s in
  getRoomInfo code (gameController s') = None ∧
  handleMakeMove id fr fc tr tc s' = (Returned [], s').
Proof.
  intros Hcode Hroom Hold s'.
  destruct (cleanupOldRooms_lookup (gameController s) maxAgeHours now code)
    as [Hgame _].
  rewrite Hroom, bool_decide_eq_true_2 in Hgame by done.
  subst s'. unfold getRoomInfo, handleMakeMove, with_game, server_exec.
  cbn [gameController socket_roomCode]. unfold getGame in *.
  rewrite Hgame, Hcode. split; [done|].
  case_bool_decide; [done|]. by rewrite Hgame.
Qed.

Lemma old_room_is_dropped_witness :
  socket_roomCode playing_server !! "A" = Some "ROOM" ∧
  rooms (gameController playing_server) !! "ROOM" = Some (mkRoomMeta 0 0) ∧
  getGame "ROOM" (gameController playing_server) = Some capture_offered ∧
  getRoomInfo "ROOM"
    (gameController (server_exec (CleanupOldRooms 1 7200000) playing_server))
  = None ∧
  handleMakeMove "A" 3 2 5 4
    (server_exec (CleanupOldRooms 1 7200000) playing_server)
  = (Returned [], server_exec (CleanupOldRooms 1 7200000) playing_server).
Proof.
  assert (socket_roomCode playing_server !! "A" = Some "ROOM") as Hcode
    by (vm_compute; reflexivity).
  assert (rooms (gameController playing_server) !! "ROOM"
          = Some (mkRoomMeta 0 0)) as Hroom by (vm_compute; reflexivity).
  split; [exact Hcode|]. split; [exact Hroom|].
  split; [vm_compute; reflexivity|].
  apply (old_room_is_dropped playing_server 1 7200000 "A" "ROOM"
           (mkRoomMeta 0 0) 3 2 5 4 Hcode Hroom).
  simpl. lia.
Defined.

Lemma board_get_raises b r c :
  board_shape b → board_get b r c = TypeError ↔ ¬ (0 ≤ r < 8).
Proof.
  intros Hb. split.
  - intros Hraise Hr. destruct (board_get_row b r c Hb Hr) as [v Hv].
    congruence.
  - intros Hr. unfold board_get.
    destruct (index b r) as [rw|] eqn:Hrw; [|done].
    apply index_lt in Hrw. destruct Hb as [Hlen _]. rewrite Hlen in Hrw. lia.
Qed.

(** X30. For a socket in a room, ['get-possible-moves'] with a row outside
    0..7 raises a [TypeError]; with a row inside it sends the socket one
    ['possible-moves'] event and changes nothing. *)
Theorem possible_moves_request s id code game row col :
  server_reachable s →
  socket_roomCode s !! id = Some code → code ≠ "" →
  getGame code (gameController s) = Some game →
  (¬ (0 ≤ row < 8) → handleGetPossibleMoves id row col s = (TypeError, s)) ∧
  (0 ≤ row < 8 →
   ∃ moves,
     possible_moves row col id game = Returned moves ∧
     handleGetPossibleMoves id row col s
     = (Returned [to_socket id (ev_possible_moves moves)], s)).
Proof.
  intros Hreach Hcode Hne Hgame.
  destruct (server_reachable_wf _ Hreach) as [Hgames _].
  destruct (reachable_board_wf _ (Hgames _ _ Hgame)) as [Hb _].
  unfold handleGetPossibleMoves, with_game.
  rewrite Hcode, bool_decide_eq_false_2, Hgame by done.
  split.
  - intros Hrow. unfold possible_moves.
    by rewrite (proj2 (board_get_raises _ row col Hb) Hrow).
  - intros Hrow.
    assert (∃ moves, possible_moves row col id game = Returned moves)
      as [moves Hmoves]; [|exists moves; by rewrite Hmoves].
    unfold possible_moves.
    destruct (board_get_row (board game) row col Hb Hrow) as [v Hv].
    rewrite Hv. simpl. destruct v as [| |p]; [by eexists..|].
    destruct (negb _); [by eexists|].
    destruct (bound_to_other_piece game row col); [by eexists|].
    destruct (getValidMovesForPiece_returns _ _ _ _ Hb Hv) as [ms ->].
    by eexists.
Qed.

Lemma possible_moves_request_witness :
  server_reachable playing_server ∧
  socket_roomCode playing_server !! "A" = Some "ROOM" ∧
  getGame "ROOM" (gameController playing_server) = Some capture_offered ∧
  handleGetPossibleMoves "A" 8 1 playing_server
    = (TypeError, playing_server) ∧
  handleGetPossibleMoves "A" 3 2 playing_server
    = (Returned [to_socket "A" (ev_possible_moves [mkPos 5 4])],
       playing_server).
Proof.
  assert (server_reachable playing_server) as Hreach.
  { apply server_reachable_foldl, server_new. }
  assert (socket_roomCode playing_server !! "A" = Some "ROOM") as Hcode
    by (vm_compute; reflexivity).
  assert (getGame "ROOM" (gameController playing_server)
          = Some capture_offered) as Hgame by (vm_compute; reflexivity).
  destruct (possible_moves_request playing_server "A" "ROOM" capture_offered
              8 1 Hreach Hcode ltac:(done) Hgame) as [Hraise _].
  split; [exact Hreach|]. split; [exact Hcode|]. split; [exact Hgame|].
  split; [apply Hraise; lia|]. vm_compute. reflexivity.
Defined.
